(** * Domotz custom drivers: a shallow embedding and its properties

    The repository is a set of independent monitoring scripts written
    against the host platform's [D] object.  The scripts are embedded as
    state-passing functions over the calls they make to the host; the host
    itself (transport, promises, tables, hashing, parsing of markup) is
    outside the repository and enters as the interface the scripts use:

    - a call of the host ([D.success], [D.failure], [console.error],
      [insertRecord], a request) is recorded in the trace of the run and
      returns to the script;
    - a request takes its options as they are at the call and keeps the
      callback; the host calls it later, once, with the reply, and the
      order of the replies is the host's;
    - the callbacks of promises that a reply settles run before the next
      reply is handled;
    - a run of a script is its remote procedure followed by the replies
      the host delivers, [run replies (get_status initial)];
    - whether the host loads a script anew for every run is not for the
      repository to say: a run on a module that stays loaded starts from
      the variables the last run left, with no request awaited.

    A function of a script that is handed to the host or to another
    function is named by a constructor that holds what it captured; the
    function that calls it interprets the constructor. *)

From Stdlib Require Import ZArith NArith Lia String Ascii.
From stdpp Require Import base list gmap.

Set Default Proof Using "Type".
Open Scope nat_scope.

(** ** JavaScript strings and the built-ins the scripts call *)

Module JS.

(** A string is its sequence of UTF-16 code units. *)
Definition jsstring := list N.

(** The string of a literal of ASCII characters. *)
Definition js (s : string) : jsstring :=
  map N_of_ascii (list_ascii_of_string s).

(** [\s] of a regular expression: WhiteSpace and LineTerminator. *)
Definition is_space (c : N) : bool :=
  ((9 <=? c) && (c <=? 13) || (c =? 32) || (c =? 160) || (c =? 5760)
   || (8192 <=? c) && (c <=? 8202) || (c =? 8232) || (c =? 8233)
   || (c =? 8239) || (c =? 8287) || (c =? 12288) || (c =? 65279))%N.

(** [\d] of a regular expression. *)
Definition is_digit (c : N) : bool := ((48 <=? c) && (c <=? 57))%N.

(** [s.slice(0, n)] *)
Definition slice0 (n : nat) (s : jsstring) : jsstring := take n s.

(** [s.split(sep)] for a separator of one code unit. *)
Fixpoint split_char (sep : N) (cur : jsstring) (s : jsstring) : list jsstring :=
  match s with
  | [] => [reverse cur]
  | c :: s' =>
      if (c =? sep)%N then reverse cur :: split_char sep [] s'
      else split_char sep (c :: cur) s'
  end.

Definition split_lines (s : jsstring) : list jsstring := split_char 10%N [] s.

(** [s.split(/\s+/gm)]: the pieces between maximal runs of white space; a
    run at either end of the string leaves an empty piece there.
    [in_ws] says that the previous code unit belonged to a run. *)
Fixpoint split_ws_from (in_ws : bool) (cur : jsstring) (s : jsstring)
  : list jsstring :=
  match s with
  | [] => [reverse cur]
  | c :: s' =>
      if is_space c then
        if in_ws then split_ws_from true [] s'
        else reverse cur :: split_ws_from true [] s'
      else split_ws_from false (c :: cur) s'
  end.

Definition split_ws (s : jsstring) : list jsstring := split_ws_from false [] s.

(** Pieces of the regular expressions the scripts use.  A literal piece
    must be a prefix of the rest of the input; [\d+] takes the longest run
    of digits, which must not be empty.  In every expression of the scripts
    [\d+] is followed by a literal that starts with no digit (or by the end
    of the expression), so giving digits back never makes a match succeed
    and the longest run is the one the expression captures. *)
Fixpoint match_lit (lit s : jsstring) : option jsstring :=
  match lit, s with
  | [], _ => Some s
  | c :: lit', d :: s' => if (c =? d)%N then match_lit lit' s' else None
  | _ :: _, [] => None
  end.

Fixpoint span_digits (s : jsstring) : jsstring * jsstring :=
  match s with
  | c :: s' =>
      if is_digit c then let '(ds, rest) := span_digits s' in (c :: ds, rest)
      else ([], s)
  | [] => ([], [])
  end.

Definition match_digits (s : jsstring) : option (jsstring * jsstring) :=
  match span_digits s with
  | ([], _) => None
  | (ds, rest) => Some (ds, rest)
  end.

(** [re.exec(s)] for an expression without flags: the match that starts
    earliest; [at_start] matches the expression at the start of its input
    and returns the captured group. *)
Fixpoint exec {A} (at_start : jsstring → option A) (s : jsstring) : option A :=
  match at_start s with
  | Some m => Some m
  | None => match s with [] => None | _ :: s' => exec at_start s' end
  end.

(** [s.indexOf(sub) !== -1] *)
Definition includes (sub s : jsstring) : bool :=
  bool_decide (is_Some (exec (match_lit sub) s)).

(** [s.replace(re, '')] for a global expression that is an alternative of
    literal words: at each position the first word that matches there is
    dropped and the search goes on behind it.  [skip] counts the code
    units of a matched word still to drop. *)
Fixpoint remove_words (words : list jsstring) (skip : nat) (s : jsstring)
  : jsstring :=
  match s with
  | [] => []
  | c :: s' =>
      match skip with
      | S k => remove_words words k s'
      | 0 =>
          match list_find (λ w, is_Some (match_lit w s)) words with
          | Some (_, w) => remove_words words (length w - 1) s'
          | None => c :: remove_words words 0 s'
          end
      end
  end.

(** [s.replace(/\s+/g, '-')] *)
Fixpoint replace_ws (in_ws : bool) (s : jsstring) : jsstring :=
  match s with
  | [] => []
  | c :: s' =>
      if is_space c then
        if in_ws then replace_ws true s' else 45%N :: replace_ws true s'
      else c :: replace_ws false s'
  end.

(** [s.toLowerCase()].  Lowering is no map of code units: a capital sigma
    becomes a final sigma after a letter, and a surrogate pair is lowered
    as one code point.  On a string of code units below 256 and of U+0130
    it is such a map, spelled out in [lower_unit]; the lower case of U+0130
    is the two code units U+0069 U+0307.  The lower case of any other
    string is [lower_other] of the string, the rest of the built-in. *)
Definition lower_unit (c : N) : list N :=
  if ((65 <=? c) && (c <=? 90))%N then [(c + 32)%N]
  else if (c <? 192)%N then [c]
  else if ((c <=? 222) && negb (c =? 215))%N then [(c + 32)%N]
  else if (c <? 256)%N then [c]
  else if (c =? 304)%N then [105%N; 775%N]
  else [c].

Definition spelled_out (c : N) : bool := ((c <? 256) || (c =? 304))%N.

Definition toLowerCase (lower_other : jsstring → jsstring) (s : jsstring)
  : jsstring :=
  if forallb spelled_out s then concat (map lower_unit s) else lower_other s.

(** [a[i] = v] on an array with holes: inside the array the slot is
    overwritten, beyond its end the array grows and the gap stays empty. *)
Definition array_set {V} (a : list (option V)) (i : nat) (v : V)
  : list (option V) :=
  if decide (i < length a) then <[i:=Some v]> a
  else a ++ replicate (i - length a) None ++ [Some v].

(** [new Array(n)] *)
Definition new_Array {V} (n : nat) : list (option V) := replicate n None.

#[global] Arguments js : simpl never.

End JS.

Import JS.

(** Values of the language, as far as the scripts handle them: what
    [JSON.parse] returns, [undefined], and the cells of a table row.
    A number is given by the string [String(x)] makes of it, its shortest
    decimal form: the scripts get numbers from [JSON.parse] only and never
    compute with them, they test them, join them to strings and pass them
    on, and the string tells the numbers apart (but for the sign of
    zero). *)
Module Val.
#[local] Set Warnings "-register-all".
Inductive value :=
| VUndef
| VNull
| VBool (b : bool)
| VNum (text : jsstring)
| VStr (s : jsstring)
| VArr (items : list value)
| VObj (fields : list (jsstring * value)).

Definition of_field (f : option jsstring) : value :=
  match f with Some s => VStr s | None => VUndef end.

(** [if (v)] *)
Definition truthy (v : value) : bool :=
  match v with
  | VUndef | VNull => false
  | VBool b => b
  | VNum text =>
      negb (bool_decide (text = js "0") || bool_decide (text = js "NaN"))
  | VStr s => match s with [] => false | _ => true end
  | VArr _ | VObj _ => true
  end.

Fixpoint field (k : jsstring) (fields : list (jsstring * value)) : value :=
  match fields with
  | [] => VUndef
  | (k', v) :: fields' => if decide (k' = k) then v else field k fields'
  end.

(** [v[k]] for a key that no prototype defines: reading a property of
    [undefined] or [null] raises [TypeError], a value that is no object has
    no such property. *)
Definition get (v : value) (k : jsstring) : option value :=
  match v with
  | VUndef | VNull => None
  | VObj fields => Some (field k fields)
  | _ => Some VUndef
  end.

Fixpoint join (sep : jsstring) (parts : list jsstring) : jsstring :=
  match parts with
  | [] => []
  | [p] => p
  | p :: ps => p ++ sep ++ join sep ps
  end.

(** The string [v] becomes as an operand of [+] next to a string. *)
Fixpoint to_string (v : value) : jsstring :=
  match v with
  | VUndef => js "undefined"
  | VNull => js "null"
  | VBool b => if b then js "true" else js "false"
  | VNum text => text
  | VStr s => s
  | VArr items =>
      join (js ",")
        (map (λ x, match x with
                   | VUndef | VNull => []
                   | _ => to_string x
                   end) items)
  | VObj _ => js "[object Object]"
  end.

(** [v == s] for a string [s] that does not read as a number *)
Definition loose_eq_string (v : value) (s : jsstring) : bool :=
  match v with
  | VStr _ | VArr _ | VObj _ => bool_decide (to_string v = s)
  | _ => false
  end.
End Val.
Import Val.

(** ** The host platform, as seen from a script *)

Module Host.

(** [D.errorType] *)
Inductive errorType :=
| GENERIC_ERROR | AUTHENTICATION_ERROR | RESOURCE_UNAVAILABLE | PARSING_ERROR.

(** The error object a transport hands to a callback. *)
Record error := Error { message : option jsstring; code : option Z }.

(** Exceptions the scripts can raise. *)
Inductive exn := TypeError | SyntaxError.

(** Arguments of [console.error] and [console.info]. *)
Inductive logged :=
| LStr (s : jsstring)
| LErr (e : error)
| LExn (x : exn)
| LStrExn (s : jsstring) (x : exn).

(** A table is the sequence of its [insertRecord] calls. *)
Definition record : Type := jsstring * list value.

(** The calls a script makes to the host, and the two things the host does
    to a script: it invokes the callback of request [k], and it is left
    with an exception no handler of the script caught.  A host call
    returns to the script like any other call. *)
Inductive event :=
| SendSSH (command : option jsstring)
| HttpPost (url : jsstring) (body : jsstring)
| HttpGet (url : value) (token : option jsstring)
| ConsoleError (x : logged)
| ConsoleInfo (xs : list logged)
| ConsoleLog (x : logged)
| InsertRecord (r : record)
| Success (table : option (list record))
| Failure (t : option errorType)
| Callback (k : nat)
| Uncaught (x : exn).

(** What [D.device.sendSSHCommand] passes to its callback. *)
Record ssh_reply := SshReply { out : option jsstring; err : option error }.

(** What [D.device.http.get] and [D.device.http.post] pass to their
    callback: [error], [response] and [body].  Of the headers, the two the
    scripts read. *)
Record headers := Headers {
  x_auth_token : option jsstring;
  command_status : option jsstring
}.
Record response := Response { rheaders : option headers; statusCode : Z }.
Record http_reply := HttpReply {
  herror : option error;
  hresponse : option response;
  hbody : jsstring
}.

End Host.
Import Host.

(** ** examples/ssh/freebsd_route.js *)

Module Join.
Section Join.
Context {V : Type}.

(** The variables [execute_all] declares and its inner function captures. *)
Record vars := Vars {
  results : list (option V);
  finished : nat;
  length_ : nat
}.

(** [results[index] = result; if (++finished == length) ...]: the
    variables afterwards, and whether [callback(results)] is called. *)
Definition store (index : nat) (result : V) (v : vars) : vars * bool :=
  let finished' := S (finished v) in
  (Vars (array_set (results v) index result) finished' (length_ v),
   bool_decide (finished' = length_ v)).

(** The state of one call of [execute_all]: the captured variables, and
    the calls made to [callback] so far, each with the [results] array as
    it is at that call. *)
Record run := Run {
  captured : vars;
  calls : list (list (option V))
}.

(** [function (result) { results[index] = result;
                         if (++finished == length) callback(results) }] *)
Definition on_result (index : nat) (result : V) (r : run) : run :=
  let '(v, fire) := store index result (captured r) in
  {| captured := v;
     calls := if fire then calls r ++ [results v] else calls r |}.

(** The statements of [execute_all] before [forEach], for an [arrayFn]
    of [n] functions. *)
Definition enter (n : nat) : run :=
  {| captured := Vars (new_Array n) 0 n;
     calls := if decide (n = 0) then [[]] else [] |}.

(** What the functions of [arrayFn] do with the function they are handed
    is given by its invocations in the order they happen, during the
    [forEach] or after it: [(index, result)] stands for
    [arrayFn[index]] passing [result]. *)
Definition play (invocations : list (nat * V)) (r : run) : run :=
  foldl (fun r iv => on_result iv.1 iv.2 r) r invocations.

Definition execute_all (n : nat) (invocations : list (nat * V)) : run :=
  play invocations (enter n).
End Join.
Arguments vars : clear implicits.
Arguments run : clear implicits.
End Join.

Module FreebsdRoute.

Definition validate_cmd : jsstring := js "netstat -r -n".
Definition route_v4_cmd : jsstring := js "netstat -4 -r -n | tail -n +5".
Definition route_v6_cmd : jsstring := js "netstat -6 -r -n | tail -n +5".

(** The functions [exec_command] is handed as [callback]: the inner
    function of [route(version, cmd)], holding the function that
    [forEach] created at [index], and the function of [validate]. *)
Inductive lines_callback :=
| RouteLines (version : jsstring) (index : nat)
| ValidateLines.

(** The function [exec_command] hands to [D.device.sendSSHCommand]. *)
Inductive ssh_callback :=
| ExecCallback (command : jsstring) (callback : lines_callback).

(** The module's variables, the callbacks the host holds, and the events so
    far.  [ssh_command] is [ssh_config.command]; [join] are the variables of
    the call of [execute_all]. *)
Record state := State {
  ssh_command : option jsstring;
  table : list record;
  join : Join.vars unit;
  pending : gmap nat ssh_callback;
  requests : nat;
  trace : list event
}.

Definition initial : state := State None [] (Join.Vars [] 0 0) ∅ 0 [].

Definition emit (es : list event) (st : state) : state :=
  State (ssh_command st) (table st) (join st) (pending st) (requests st)
        (trace st ++ es).

(** [table.insertRecord(id, columns)] *)
Definition insertRecord (r : record) (st : state) : state :=
  State (ssh_command st) (table st ++ [r]) (join st) (pending st)
        (requests st) (trace st ++ [InsertRecord r]).

(** [D.device.sendSSHCommand(ssh_config, cb)]: the host takes the command
    that [ssh_config] holds at the call and keeps [cb] for the reply. *)
Definition sendSSHCommand (cb : ssh_callback) (st : state) : state :=
  State (ssh_command st) (table st) (join st)
        (<[requests st := cb]> (pending st)) (S (requests st))
        (trace st ++ [SendSSH (ssh_command st)]).

Definition exec_command (command : jsstring) (callback : lines_callback)
    (st : state) : state :=
  let st := State (Some command) (table st) (join st) (pending st)
                  (requests st) (trace st) in
  sendSSHCommand (ExecCallback command callback) st.

(** [s + x] for an array element [x] that may be absent. *)
Definition concat_field (s : jsstring) (x : option jsstring) : jsstring :=
  s ++ default (js "undefined") x.

(** The record [route] inserts for one line. *)
Definition route_record (version line : jsstring) : record :=
  let route_data := split_ws line in
  (concat_field (version ++ js ">") (route_data !! 0),
   [of_field (route_data !! 0); of_field (route_data !! 1);
    of_field (route_data !! 2); of_field (route_data !! 3)]).

(** [function () { D.success(table) }] of [get_status] *)
Definition status_done (st : state) : state :=
  emit [Success (Some (table st))] st.

(** The function [forEach] hands to [arrayFn[index]], called with no
    argument. *)
Definition join_result (index : nat) (st : state) : state :=
  let '(v, fire) := Join.store index () (join st) in
  let st := State (ssh_command st) (table st) v (pending st) (requests st)
                  (trace st) in
  if fire then status_done st else st.

Definition on_lines (cb : lines_callback) (lines : list jsstring)
    (st : state) : state :=
  match cb with
  | RouteLines version index =>
      join_result index
        (foldl (fun st line => insertRecord (route_record version line) st)
               st lines)
  | ValidateLines => emit [Success None] st
  end.

(** The callback of [exec_command]; [Some x] when it ends by raising [x]. *)
Definition on_reply (cb : ssh_callback) (r : ssh_reply) (st : state)
  : state * option exn :=
  let '(ExecCallback command callback) := cb in
  let st :=
    match err r with
    | Some e =>
        emit [ConsoleError (LStr (js "error while executing command: " ++ command));
              ConsoleError (LErr e); Failure None] st
    | None => st
    end in
  match out r with
  | Some o => (on_lines callback (split_lines o) st, None)
  | None => (st, Some TypeError)
  end.

Definition route (version cmd : jsstring) : nat → state → state :=
  fun index => exec_command cmd (RouteLines version index).

(** [execute_all(arrayFn, callback)] with the callback of [get_status];
    a function of [arrayFn] takes the index of the function [forEach]
    hands it. *)
Definition execute_all (arrayFn : list (nat → state → state)) (st : state)
  : state :=
  let st := if decide (length arrayFn = 0) then status_done st else st in
  let n := length arrayFn in
  let st := State (ssh_command st) (table st) (Join.Vars (new_Array n) 0 n)
                  (pending st) (requests st) (trace st) in
  foldl (fun st fn => fn.2 fn.1 st) st (imap pair arrayFn).

Definition validate (st : state) : state :=
  exec_command validate_cmd ValidateLines st.

Definition get_status (st : state) : state :=
  execute_all [route (js "ip_v4") route_v4_cmd;
               route (js "ip_v6") route_v6_cmd] st.

(** The host answers request [k]: it calls the callback it holds for it,
    once. *)
Definition deliver (st : state) (d : nat * ssh_reply) : state :=
  match pending st !! d.1 with
  | None => st
  | Some cb =>
      let st := State (ssh_command st) (table st) (join st)
                      (delete d.1 (pending st)) (requests st)
                      (trace st ++ [Callback d.1]) in
      let '(st, x) := on_reply cb d.2 st in
      match x with Some x => emit [Uncaught x] st | None => st end
  end.

Definition run (replies : list (nat * ssh_reply)) (st : state) : state :=
  foldl deliver st replies.

End FreebsdRoute.

(** ** Windows Monitor IP Latency *)

Module WinLatency.
Section WinLatency.
(** [D.crypto.hash(s, "sha256", null, "hex")] *)
Variable sha256_hex : jsstring → jsstring.

Definition pktno : jsstring := js "2".
Definition ipAddresses : list jsstring :=
  [js "8.8.8.8"; js "1.1.1.1"; js "192.168.0.1"; js "192.168.0.2";
   js "192.168.0.3"].

(** The callbacks handed to [D.device.sendSSHCommand]: [resultCallback]
    of the [forEach] step for [ipAddress], and [loginCallback]. *)
Inductive ssh_callback :=
| ResultCallback (ipAddress : jsstring)
| LoginCallback.

(** [ssh_command] is [sshCommandOptions["command"]], [table] is
    [tableColumns], [count] the variable of the call of [get_status]. *)
Record state := State {
  ssh_command : option jsstring;
  table : list record;
  count : nat;
  pending : gmap nat ssh_callback;
  requests : nat;
  trace : list event
}.

Definition initial : state := State None [] 0 ∅ 0 [].

Definition emit (es : list event) (st : state) : state :=
  State (ssh_command st) (table st) (count st) (pending st) (requests st)
        (trace st ++ es).

Definition insertRecord (r : record) (st : state) : state :=
  State (ssh_command st) (table st ++ [r]) (count st) (pending st)
        (requests st) (trace st ++ [InsertRecord r]).

Definition set_command (command : jsstring) (st : state) : state :=
  State (Some command) (table st) (count st) (pending st) (requests st)
        (trace st).

(** The host takes the command the options hold at the call. *)
Definition sendSSHCommand (cb : ssh_callback) (st : state) : state :=
  State (ssh_command st) (table st) (count st)
        (<[requests st := cb]> (pending st)) (S (requests st))
        (trace st ++ [SendSSH (ssh_command st)]).

Definition truthy_string (s : option jsstring) : bool :=
  match s with Some (_ :: _) => true | _ => false end.

Definition checkSshError (e : error) (st : state) : state :=
  let st := if truthy_string (message e)
            then emit [ConsoleError (LStr (default [] (message e)))] st
            else st in
  let st := if decide (code e = Some 5%Z)
            then emit [Failure (Some AUTHENTICATION_ERROR)] st else st in
  emit [ConsoleError (LErr e); Failure (Some GENERIC_ERROR)] st.

(** [/Average = (\d+)ms/] at the start of the input *)
Definition latency_at (s : jsstring) : option jsstring :=
  s ← match_lit (js "Average = ") s;
  '(ds, s) ← match_digits s;
  _ ← match_lit (js "ms") s;
  Some ds.

(** [/Packets: Sent = \d+, Received = \d+, Lost = (\d+)/] at the start
    of the input *)
Definition loss_at (s : jsstring) : option jsstring :=
  s ← match_lit (js "Packets: Sent = ") s;
  '(_, s) ← match_digits s;
  s ← match_lit (js ", Received = ") s;
  '(_, s) ← match_digits s;
  s ← match_lit (js ", Lost = ") s;
  '(ds, _) ← match_digits s;
  Some ds.

(** The text a regular expression is matched against. *)
Definition subject (output : option jsstring) : jsstring :=
  default (js "undefined") output.

(** The end of [resultCallback]:
    [count++; if (count === ipAddresses.length) D.success(tableColumns)] *)
Definition count_reply (st : state) : state :=
  let st := State (ssh_command st) (table st) (S (count st)) (pending st)
                  (requests st) (trace st) in
  if decide (count st = length ipAddresses)
  then emit [Success (Some (table st))] st else st.

Definition resultCallback (ipAddress : jsstring) (r : ssh_reply) (st : state)
  : state * option exn :=
  match err r with
  | Some e => (count_reply (checkSshError e st), None)
  | None =>
      match exec latency_at (subject (out r)) with
      | None => (st, Some TypeError)
      | Some latencyValue =>
          match exec loss_at (subject (out r)) with
          | None => (st, Some TypeError)
          | Some packetLossValue =>
              let recordId := slice0 50 (sha256_hex ipAddress) in
              (count_reply
                 (insertRecord
                    (recordId, [VStr ipAddress; VStr latencyValue;
                                VStr packetLossValue]) st), None)
          end
      end
  end.

Definition loginCallback (r : ssh_reply) (st : state) : state :=
  match err r with
  | Some e => checkSshError e st
  | None => emit [Success None] st
  end.

Definition validate (st : state) : state :=
  let commandValidate := js "dir" in
  let st := emit [ConsoleInfo [LStr (js "Verifying credentials ... ");
                               LStr commandValidate]] st in
  sendSSHCommand LoginCallback (set_command commandValidate st).

Definition get_status (st : state) : state :=
  let st := State (ssh_command st) (table st) 0 (pending st) (requests st)
                  (trace st) in
  foldl (λ st ipAddress,
           let st := emit [ConsoleInfo
                             [LStr (js "Pinging " ++ ipAddress ++ js " ... ")]]
                          st in
           let command := js "ping -n " ++ pktno ++ js " " ++ ipAddress in
           sendSSHCommand (ResultCallback ipAddress) (set_command command st))
        st ipAddresses.

(** The host answers request [k]: it calls the callback it holds for it,
    once. *)
Definition deliver (st : state) (d : nat * ssh_reply) : state :=
  match pending st !! d.1 with
  | None => st
  | Some cb =>
      let st := State (ssh_command st) (table st) (count st)
                      (delete d.1 (pending st)) (requests st)
                      (trace st ++ [Callback d.1]) in
      match cb with
      | ResultCallback ipAddress =>
          let '(st, x) := resultCallback ipAddress d.2 st in
          match x with Some x => emit [Uncaught x] st | None => st end
      | LoginCallback => loginCallback d.2 st
      end
  end.

Definition run (replies : list (nat * ssh_reply)) (st : state) : state :=
  foldl deliver st replies.
End WinLatency.
End WinLatency.

(** ** examples/http/dell_power_vault_san_drives.js *)

Module DellDrives.
Section DellDrives.
(** [JSON.parse]; [None] when it raises [SyntaxError]. *)
Variable JSON_parse : jsstring → option value.
(** The case table beyond the part spelled out in [JS.lower_unit]. *)
Variable lower_other : jsstring → jsstring.
(** [JSON.stringify] of the credentials, the body of the login request. *)
Variable credentials : jsstring.

(** What a pending request resolves: the promise of [login], of
    [getControllers], of [getControllerInfo] for member [ci], of
    [getDriveInfo] for drive [di] of that controller. *)
Inductive kont :=
| KLogin
| KStorage
| KController (ci : nat)
| KDrive (ci di : nat) (controllerName : value).

(** The value of a [getDriveInfo] promise: [{controllerName, drive}], or
    [undefined]. *)
Definition drive_result : Type := option (value * value).
(** The value of a [getControllerInfo] promise: the array that
    [D.q.all(drivePromises)] resolves to, or [undefined]. *)
Definition controller_result : Type := option (list drive_result).

Inductive dslot := DWait | DDone (r : drive_result).
Inductive cslot :=
| CWait
| CDrives (drives : list dslot)
| CDone (r : controller_result).

(** [controllers] are the promises [getControllers] created; [joined]
    says that [D.q.all] holds them and [extractData] has not yet run. *)
Record state := State {
  sessionToken : option jsstring;
  table : list record;
  controllers : list cslot;
  joined : bool;
  pending : gmap nat kont;
  requests : nat;
  trace : list event
}.

Definition initial : state := State None [] [] false ∅ 0 [].

Definition emit (es : list event) (st : state) : state :=
  State (sessionToken st) (table st) (controllers st) (joined st)
        (pending st) (requests st) (trace st ++ es).

Definition insertRecord (r : record) (st : state) : state :=
  State (sessionToken st) (table st ++ [r]) (controllers st) (joined st)
        (pending st) (requests st) (trace st ++ [InsertRecord r]).

Definition set_token (t : jsstring) (st : state) : state :=
  State (Some t) (table st) (controllers st) (joined st) (pending st)
        (requests st) (trace st).

Definition set_controllers (cs : list cslot) (j : bool) (st : state) : state :=
  State (sessionToken st) (table st) cs j (pending st) (requests st)
        (trace st).

Definition request (e : event) (k : kont) (st : state) : state :=
  State (sessionToken st) (table st) (controllers st) (joined st)
        (<[requests st := k]> (pending st)) (S (requests st))
        (trace st ++ [e]).

Definition truthy_header (h : option jsstring) : bool :=
  match h with Some (_ :: _) => true | _ => false end.

Definition header_includes (h : option jsstring) (sub : jsstring) : bool :=
  truthy_header h && includes sub (default [] h).

(** The function [processResponse(d)] returns, up to the call of
    [d.resolve]: the value the promise is resolved with, or the exception
    that ends the callback before. *)
Definition processResponse (r : http_reply) (st : state)
  : state * (exn + value) :=
  let st := match herror r with
            | Some e => emit [ConsoleError (LErr e);
                              Failure (Some GENERIC_ERROR)] st
            | None => st
            end in
  match hresponse r with
  | None => (st, inl TypeError)
  | Some response =>
      match rheaders response with
      | None => (st, inl TypeError)
      | Some h =>
          let st :=
            if truthy_header (x_auth_token h)
            then set_token (default [] (x_auth_token h)) st
            else if header_includes (command_status h) (js "Command failed")
            then emit [ConsoleError
                         (LStr (js "Session token not found in response headers"));
                       Failure (Some AUTHENTICATION_ERROR)] st
            else if header_includes (command_status h) (js "Invalid URL")
            then emit [ConsoleError (LStr (js "Invalid URL"));
                       Failure (Some RESOURCE_UNAVAILABLE)] st
            else if negb (statusCode response =? 200)%Z
            then emit [Failure (Some GENERIC_ERROR)] st
            else st in
          match JSON_parse (hbody r) with
          | None => (st, inl SyntaxError)
          | Some v => (st, inr v)
          end
      end
  end.

Definition login (st : state) : state :=
  request (HttpPost (js "/redfish/v1/SessionService/Sessions/") credentials)
          KLogin st.

Definition httpGet (url : value) (k : kont) (st : state) : state :=
  request (HttpGet url (sessionToken st)) k st.

(** [sanitize] *)
Definition recordIdReservedWords : list jsstring :=
  [js "?"; js "*"; js "%"; js "table"; js "column"; js "history"].

Definition sanitize (output : jsstring) : jsstring :=
  toLowerCase lower_other
    (replace_ws false (slice0 50 (remove_words recordIdReservedWords 0 output))).

(** The body of the inner [forEach] of [extractData], for one element of
    [driveData]. *)
Definition extract_drive (drives : drive_result) (st : state)
  : state * option exn :=
  match drives with
  | None => (st, Some TypeError)
  | Some (controllerName, drive) =>
      let st :=
        if negb (truthy controllerName) || negb (truthy drive)
        then emit [ConsoleError (LStr (js "Controller name or drive not found"));
                   Failure (Some GENERIC_ERROR)] st
        else st in
      match
        get drive (js "Name"),
        (serialNumber ← get drive (js "SerialNumber");
         location ← get drive (js "PhysicalLocation");
         placement ← get location (js "Placement");
         rack ← get placement (js "Rack");
         rackOffset ← get placement (js "RackOffset");
         status ← get drive (js "Status");
         state ← get status (js "State");
         health ← (if loose_eq_string state (js "Enabled")
                   then get status (js "Health")
                   else Some (VStr (js "N/A")));
         Some [serialNumber; rack; rackOffset; health])
      with
      | Some name, Some columns =>
          let recordId :=
            sanitize (to_string controllerName ++ js " " ++ to_string name) in
          (insertRecord (recordId, columns) st, None)
      | _, _ => (st, Some TypeError)
      end
  end.

(** [xs.forEach(f)] for a body that may raise. *)
Fixpoint for_each {A} (f : A → state → state * option exn) (xs : list A)
    (st : state) : state * option exn :=
  match xs with
  | [] => (st, None)
  | x :: xs' =>
      match f x st with
      | (st, None) => for_each f xs' st
      | (st, Some e) => (st, Some e)
      end
  end.

Definition extractData (data : option (list controller_result)) (st : state)
  : state * option exn :=
  match data with
  | None => (st, Some TypeError)
  | Some data =>
      match for_each (λ driveData st,
                        match driveData with
                        | None => (st, Some TypeError)
                        | Some driveData => for_each extract_drive driveData st
                        end) data st with
      | (st, None) => (emit [Success (Some (table st))] st, None)
      | (st, Some e) => (st, Some e)
      end
  end.

(** The end of the chain of [get_status]: [.then(extractData)] and the
    [catch] behind it. *)
Definition extract_or_catch (data : option (list controller_result))
    (st : state) : state :=
  match extractData data st with
  | (st, None) => st
  | (st, Some e) =>
      emit [ConsoleError (LExn e); Failure (Some GENERIC_ERROR)] st
  end.


Definition slot_result (c : cslot) : option controller_result :=
  match c with CDone r => Some r | _ => None end.

(** [D.q.all(promises)] resolves once every promise has, to the array of
    their values; [extractData] follows. *)
Definition check_join (st : state) : state :=
  if joined st then
    match mapM slot_result (controllers st) with
    | Some data =>
        extract_or_catch (Some data) (set_controllers (controllers st) false st)
    | None => st
    end
  else st.

(** The requests of [getControllers], [getControllerInfo] and
    [getDriveInfo]; what their [then] does is [on_storage],
    [on_controller] and [on_drive] below. *)
Definition getControllers (st : state) : state :=
  httpGet (VStr (js "/redfish/v1/Storage")) KStorage st.

Definition getControllerInfo (controllerUrl : value) (ci : nat) (st : state)
  : state :=
  httpGet controllerUrl (KController ci) st.

Definition getDriveInfo (driveUrl controllerName : value) (ci di : nat)
    (st : state) : state :=
  httpGet driveUrl (KDrive ci di controllerName) st.

(** The [catch] at the end of the chain of [get_status]. *)
Definition failed_chain (e : exn) (st : state) : state :=
  emit [ConsoleError (LExn e); Failure (Some GENERIC_ERROR)] st.

(** [controllers.Members.map(member => getControllerInfo(member['@odata.id']))],
    from member [ci] on. *)
Fixpoint map_members (ci : nat) (members : list value) (st : state)
  : state * option exn :=
  match members with
  | [] => (st, None)
  | member :: members' =>
      match get member (js "@odata.id") with
      | None => (st, Some TypeError)
      | Some url => map_members (S ci) members' (getControllerInfo url ci st)
      end
  end.

(** The [then] of [getControllers], and what the chain of [get_status]
    does with its outcome. *)
Definition on_storage (controllers : value) (st : state) : state :=
  if truthy controllers
     && truthy (default VUndef (get controllers (js "Members")))
  then
    match default VUndef (get controllers (js "Members")) with
    | VArr members =>
        let st := set_controllers (replicate (length members) CWait) false st in
        match map_members 0 members st with
        | (st, None) => check_join (set_controllers (DellDrives.controllers st) true st)
        | (st, Some e) => failed_chain e st
        end
    | _ => failed_chain TypeError st
    end
  else extract_or_catch None st.

Definition set_slot (ci : nat) (c : cslot) (st : state) : state :=
  set_controllers (<[ci := c]> (DellDrives.controllers st)) (joined st) st.

(** [controller.Drives.map(drive => getDriveInfo(drive['@odata.id'], controller.Name))],
    from drive [di] on. *)
Fixpoint map_drives (ci di : nat) (name : value) (drives : list value)
    (st : state) : state * option exn :=
  match drives with
  | [] => (st, None)
  | drive :: drives' =>
      match get drive (js "@odata.id") with
      | None => (st, Some TypeError)
      | Some url =>
          map_drives ci (S di) name drives' (getDriveInfo url name ci di st)
      end
  end.

Definition dslot_result (d : dslot) : option drive_result :=
  match d with DDone r => Some r | DWait => None end.

(** A controller whose drives have all been read is read. *)
Definition settle (drives : list dslot) : cslot :=
  match mapM dslot_result drives with
  | Some results => CDone (Some results)
  | None => CDrives drives
  end.

Definition controller_failed (e : exn) (st : state) : state :=
  emit [ConsoleError (LStrExn (js "Error retrieving controller info ") e);
        Failure (Some GENERIC_ERROR)] st.

(** The [then] and the [catch] of [getControllerInfo] for member [ci]. *)
Definition on_controller (ci : nat) (controller : value) (st : state) : state :=
  let name := default VUndef (get controller (js "Name")) in
  let drives := default VUndef (get controller (js "Drives")) in
  let st :=
    if truthy controller && truthy name && truthy drives then
      match drives with
      | VArr drives =>
          match map_drives ci 0 name drives st with
          | (st, None) => set_slot ci (settle (replicate (length drives) DWait)) st
          | (st, Some e) => set_slot ci (CDone None) (controller_failed e st)
          end
      | _ => set_slot ci (CDone None) (controller_failed TypeError st)
      end
    else
      set_slot ci (CDone None)
        (emit [ConsoleError (LStr (js "Controller name or drives not found"))] st)
  in check_join st.

(** The [then] of [getDriveInfo] for drive [di] of member [ci]. *)
Definition on_drive (ci di : nat) (controllerName drive : value) (st : state)
  : state :=
  let found := truthy drive && truthy (default VUndef (get drive (js "Name"))) in
  let st := if found then st
            else emit [ConsoleError (LStr (js "Drive name not found"))] st in
  let r := if found then Some (controllerName, drive) else None in
  match DellDrives.controllers st !! ci with
  | Some (CDrives drives) =>
      check_join (set_slot ci (settle (<[di := DDone r]> drives)) st)
  | _ => st
  end.

Definition get_status (st : state) : state := login st.

(** The host answers request [k]: it calls the callback it holds for it,
    once; the promise callbacks this enables run before the next answer
    is handled. *)
Definition deliver (st : state) (d : nat * http_reply) : state :=
  match pending st !! d.1 with
  | None => st
  | Some k =>
      let st := State (sessionToken st) (table st) (DellDrives.controllers st)
                      (joined st) (delete d.1 (pending st)) (requests st)
                      (trace st ++ [Callback d.1]) in
      match processResponse d.2 st with
      | (st, inl x) => emit [Uncaught x] st
      | (st, inr v) =>
          match k with
          | KLogin => getControllers st
          | KStorage => on_storage v st
          | KController ci => on_controller ci v st
          | KDrive ci di name => on_drive ci di name v st
          end
      end
  end.

Definition run (replies : list (nat * http_reply)) (st : state) : state :=
  foldl deliver st replies.
End DellDrives.
End DellDrives.

(** ** examples/http/esxi_services.js *)

Module EsxiServices.

(** The texts the script reads from a [service] element. *)
Record service := Service {
  key : jsstring;
  label : jsstring;
  required : jsstring;
  uninstallable : jsstring;
  running : jsstring;
  policy : jsstring
}.

Section EsxiServices.
(** [D.device.username()] and [D.device.password()] *)
Variables username password : jsstring.
(** What the selections on [D.htmlParse(soapResponse)] return:
    [$('returnval').find('key').first().text()], [$('returnval').text()],
    [$('returnval').find('ManagedObjectReference').first().text()], and the
    elements [$('propSet:has(name:contains("config.service")) val service')]
    with the texts found in each. *)
Variable returnval_key : jsstring → jsstring.
Variable returnval : jsstring → jsstring.
Variable returnval_reference : jsstring → jsstring.
Variable services : jsstring → list service.

Definition url : jsstring := js "/sdk".

Definition getSessionKey (soapResponse : jsstring) : jsstring :=
  returnval_key soapResponse.

Definition getContainerIdFromSoap (soapResponse : jsstring) : jsstring :=
  returnval soapResponse.

Definition getHostRefFromSoap (soapResponse : jsstring) : jsstring :=
  returnval_reference soapResponse.

(** The promises of the chain of [get_status], by the request that
    resolves them. *)
Inductive kont := KLogin | KContainer | KFetch | KProperties.

Record state := State {
  table : list record;
  pending : gmap nat kont;
  requests : nat;
  trace : list event
}.

Definition initial : state := State [] ∅ 0 [].

Definition emit (es : list event) (st : state) : state :=
  State (table st) (pending st) (requests st) (trace st ++ es).

Definition insertRecord (r : record) (st : state) : state :=
  State (table st ++ [r]) (pending st) (requests st)
        (trace st ++ [InsertRecord r]).

(** The double quote. *)
Definition q : jsstring := [34%N].

Definition createSoapPayload (soapBody : jsstring) : jsstring :=
  js "<?xml version=" ++ q ++ js "1.0" ++ q ++ js " encoding=" ++ q ++ js "UTF-8" ++ q ++ js "?><soapenv:Envelope xmlns:soapenv=" ++ q ++ js "http://schemas.xmlsoap.org/soap/envelope/" ++ q ++ js " xmlns:vim25=" ++ q ++ js "urn:vim25" ++ q ++ js "><soapenv:Body>"
  ++ soapBody ++ js "</soapenv:Body></soapenv:Envelope>".

(** [sendSoapRequest(body, extractData)], up to the callback. *)
Definition sendSoapRequest (body : jsstring) (k : kont) (st : state) : state :=
  State (table st) (<[requests st := k]> (pending st)) (S (requests st))
        (trace st ++ [HttpPost url body]).

Definition login (st : state) : state :=
  sendSoapRequest
    (createSoapPayload
       (js "<vim25:Login>"
        ++ js "   <_this type=" ++ q ++ js "SessionManager" ++ q ++ js ">ha-sessionmgr</_this>"
        ++ js "   <userName>" ++ username ++ js "</userName>"
        ++ js "   <password>" ++ password ++ js "</password>"
        ++ js "</vim25:Login>"))
    KLogin st.

Definition createAllHostContainer (st : state) : state :=
  sendSoapRequest
    (createSoapPayload
       (js "<CreateContainerView xmlns=" ++ q ++ js "urn:vim25" ++ q ++ js ">"
        ++ js "    <_this type=" ++ q ++ js "ViewManager" ++ q ++ js ">ViewManager</_this>"
        ++ js "    <container type=" ++ q ++ js "Folder" ++ q ++ js ">ha-folder-root</container>"
        ++ js "    <type>HostSystem</type>"
        ++ js "    <recursive>true</recursive>"
        ++ js "</CreateContainerView>"))
    KContainer st.

Definition fetchContainer (containerId : jsstring) (st : state) : state :=
  sendSoapRequest
    (createSoapPayload
       (js "<Fetch xmlns=" ++ q ++ js "urn:vim25" ++ q ++ js ">"
        ++ js "    <_this type=" ++ q ++ js "ContainerView" ++ q ++ js ">" ++ containerId ++ js "</_this>"
        ++ js "    <prop>view</prop>"
        ++ js "</Fetch>"))
    KFetch st.

Definition retrieveProprieties (hostRef : jsstring) (st : state) : state :=
  sendSoapRequest
    (createSoapPayload
       (js "<RetrieveProperties xmlns=" ++ q ++ js "urn:vim25" ++ q ++ js ">"
        ++ js "    <_this type=" ++ q ++ js "PropertyCollector" ++ q ++ js ">ha-property-collector</_this>"
        ++ js "    <specSet>"
        ++ js "        <propSet>"
        ++ js "            <type>HostSystem</type>"
        ++ js "            <pathSet>config.service</pathSet>"
        ++ js "        </propSet>"
        ++ js "        <objectSet>"
        ++ js "            <obj type=" ++ q ++ js "HostSystem" ++ q ++ js ">" ++ hostRef ++ js "</obj>"
        ++ js "        </objectSet>"
        ++ js "    </specSet>"
        ++ js "</RetrieveProperties>"))
    KProperties st.

(** [x || "N/A"] for a text [x] *)
Definition or_NA (x : jsstring) : value :=
  VStr (match x with [] => js "N/A" | _ => x end).

Definition populateTable (s : service) (st : state) : state :=
  insertRecord (key s, [or_NA (label s); or_NA (required s);
                        or_NA (uninstallable s); or_NA (running s);
                        or_NA (policy s)]) st.

(** [generateTabelOutput]; the table it returns is the module's. *)
Definition generateTabelOutput (soapResponse : jsstring) (st : state) : state :=
  foldl (λ st s, populateTable s st) st (services soapResponse).

(** The callback of [sendSoapRequest] for the promise [k], and the [then]
    that the promise resolves into. *)
Definition on_reply (k : kont) (r : http_reply) (st : state) : state :=
  match herror r with
  | Some e => emit [ConsoleError (LErr e); Failure (Some GENERIC_ERROR)] st
  | None =>
      match hresponse r with
      | None => emit [Failure (Some RESOURCE_UNAVAILABLE)] st
      | Some response =>
          if (statusCode response =? 400)%Z
          then emit [Failure (Some AUTHENTICATION_ERROR)] st
          else if negb (statusCode response =? 200)%Z
          then emit [Failure (Some GENERIC_ERROR)] st
          else
            match k with
            | KLogin =>
                let sessionKey := getSessionKey (hbody r) in
                createAllHostContainer st
            | KContainer => fetchContainer (getContainerIdFromSoap (hbody r)) st
            | KFetch => retrieveProprieties (getHostRefFromSoap (hbody r)) st
            | KProperties =>
                let st := generateTabelOutput (hbody r) st in
                emit [Success (Some (table st))] st
            end
      end
  end.

Definition get_status (st : state) : state := login st.

Definition deliver (st : state) (d : nat * http_reply) : state :=
  match pending st !! d.1 with
  | None => st
  | Some k =>
      on_reply k d.2
        (State (table st) (delete d.1 (pending st)) (requests st)
               (trace st ++ [Callback d.1]))
  end.

Definition run (replies : list (nat * http_reply)) (st : state) : state :=
  foldl deliver st replies.
End EsxiServices.
End EsxiServices.

(** ** examples/http/esxi_services.js: [validate] *)

Module EsxiValidate.
Section EsxiValidate.
Variables username password : jsstring.
Variable returnval_key : jsstring → jsstring.
Import EsxiServices.

(** The callback of [sendSoapRequest] for the login, and the [then] of
    [validate] that the promise resolves into.  The session key is a
    text, so that the [then] does not raise and the [catch] behind it is
    not entered. *)
Definition on_login (r : http_reply) (st : state) : state :=
  match herror r with
  | Some e => emit [ConsoleError (LErr e); Failure (Some GENERIC_ERROR)] st
  | None =>
      match hresponse r with
      | None => emit [Failure (Some RESOURCE_UNAVAILABLE)] st
      | Some response =>
          if (statusCode response =? 400)%Z
          then emit [Failure (Some AUTHENTICATION_ERROR)] st
          else if negb (statusCode response =? 200)%Z
          then emit [Failure (Some GENERIC_ERROR)] st
          else
            let sessionKey := getSessionKey returnval_key (hbody r) in
            if truthy (VStr sessionKey) && bool_decide (0 < length sessionKey)
            then emit [Success None] st
            else st
      end
  end.

Definition validate (st : state) : state := login username password st.

Definition deliver (st : state) (d : nat * http_reply) : state :=
  match pending st !! d.1 with
  | None => st
  | Some _ =>
      on_login d.2
        (State (table st) (delete d.1 (pending st)) (requests st)
               (trace st ++ [Callback d.1]))
  end.

Definition run (replies : list (nat * http_reply)) (st : state) : state :=
  foldl deliver st replies.
End EsxiValidate.
End EsxiValidate.

(** ** examples/http/dell_power_vault_san_drives.js: [validate] *)

Module DellValidate.
Section DellValidate.
Variable JSON_parse : jsstring → option value.
Variable lower_other : jsstring → jsstring.
Variable credentials : jsstring.
Import DellDrives.

(** The promises of [getControllers], [getControllerInfo] and
    [getDriveInfo] are those of [get_status]; what differs is the [then]
    that waits for [D.q.all].  [drives] keeps [joined] false, so that no
    [extractData] waits there, and [waiting] says that [D.q.all] holds
    the promises and the [then] of [validate] has not yet run. *)
Record state := State {
  drives : DellDrives.state;
  waiting : bool
}.

Definition initial : state := State DellDrives.initial false.

(** The [then] of [validate], on what [getControllers] resolves to: the
    array of [D.q.all], or [undefined]. *)
Definition validated (response : option (list controller_result))
    (st : DellDrives.state) : DellDrives.state :=
  match response with
  | Some (_ :: _) =>
      emit [ConsoleLog (LStr (js "Validation successful")); Success None] st
  | _ =>
      emit [ConsoleError (LStr (js "Validation failed"));
            Failure (Some PARSING_ERROR)] st
  end.

(** [D.q.all(promises)] resolves once every promise has; the [then] of
    [validate] follows. *)
Definition check_all (st : state) : state :=
  if waiting st then
    match mapM slot_result (controllers (drives st)) with
    | Some data => State (validated (Some data) (drives st)) false
    | None => st
    end
  else st.

(** The [then] of [getControllers], and what the chain of [validate]
    does with its outcome. *)
Definition on_storage (controllers : value) (st : DellDrives.state) : state :=
  if truthy controllers
     && truthy (default VUndef (get controllers (js "Members")))
  then
    match default VUndef (get controllers (js "Members")) with
    | VArr members =>
        let st := set_controllers (replicate (length members) CWait) false st in
        match map_members 0 members st with
        | (st, None) => check_all (State st true)
        | (st, Some e) => State (failed_chain e st) false
        end
    | _ => State (failed_chain TypeError st) false
    end
  else State (validated None st) false.

Definition validate (st : state) : state :=
  State (login credentials (drives st)) (waiting st).

Definition deliver (st : state) (d : nat * http_reply) : state :=
  match pending (drives st) !! d.1 with
  | None => st
  | Some k =>
      let st1 := drives st in
      let st1 := DellDrives.State (sessionToken st1) (table st1)
                   (controllers st1) (joined st1) (delete d.1 (pending st1))
                   (requests st1) (trace st1 ++ [Callback d.1]) in
      match processResponse JSON_parse d.2 st1 with
      | (st1, inl x) => State (emit [Uncaught x] st1) (waiting st)
      | (st1, inr v) =>
          match k with
          | KLogin => State (getControllers st1) (waiting st)
          | KStorage => on_storage v st1
          | KController ci =>
              check_all
                (State (on_controller lower_other ci v st1) (waiting st))
          | KDrive ci di name =>
              check_all
                (State (on_drive lower_other ci di name v st1) (waiting st))
          end
      end
  end.

Definition run (replies : list (nat * http_reply)) (st : state) : state :=
  foldl deliver st replies.
End DellValidate.
End DellValidate.

(** * Notions of the statements and of their proofs *)

(** ** Reading a trace *)

(** The commands sent over SSH, in order. *)
Definition sends (tr : list event) : list (option jsstring) :=
  omap (λ e, match e with SendSSH c => Some c | _ => None end) tr.

(** The tables [D.success] was called with, in order. *)
Definition successes (tr : list event) : list (option (list record)) :=
  omap (λ e, match e with Success t => Some t | _ => None end) tr.

(** The calls of [D.success] and [D.failure], in order. *)
Definition outcomes (tr : list event) : list event :=
  List.filter (λ e, match e with Success _ | Failure _ => true | _ => false end) tr.

(** An event of a run whose table held the records [t0] at its start:
    the table handed to [D.success] begins with them. *)
Definition carry (t0 : list record) (e : event) : event :=
  match e with Success (Some t) => Success (Some (t0 ++ t)) | _ => e end.

(** ** The order of the steps of a run *)

(** What has happened in a trace so far: a request was sent, the callback
    of the first request (the login, where there is one) was called, the
    callback of a later request was called, [D.success] was called. *)
Record seen := Seen {
  started : bool;
  authenticated : bool;
  fetched : bool;
  reported : bool
}.

(** The order of authenticate, fetch, parse, report, one event at a time;
    [None] when the event comes out of order.  With [login] the first
    request is the login and every other request needs its callback to
    have been called; rows are inserted only once the callback of a data
    request has been called, and not after [D.success]; [D.success] is
    called at most once, after the callback of a data request. *)
Definition follows (login : bool) (m : seen) (e : event) : option seen :=
  match e with
  | HttpPost _ _ | HttpGet _ _ | SendSSH _ =>
      if negb login || negb (started m) || authenticated m
      then Some (Seen true (authenticated m) (fetched m) (reported m))
      else None
  | Callback k =>
      if login && bool_decide (k = 0)
      then Some (Seen (started m) true (fetched m) (reported m))
      else Some (Seen (started m) (authenticated m) true (reported m))
  | InsertRecord _ =>
      if fetched m && negb (reported m) then Some m else None
  | Success _ =>
      if fetched m && negb (reported m)
      then Some (Seen (started m) (authenticated m) (fetched m) true)
      else None
  | _ => Some m
  end.

Fixpoint observe (login : bool) (m : seen) (tr : list event) : option seen :=
  match tr with
  | [] => Some m
  | e :: tr' => m' ← follows login m e; observe login m' tr'
  end.

(** A trace is in order. *)
Definition in_order (login : bool) (tr : list event) : Prop :=
  is_Some (observe login (Seen false false false false) tr).

(** A request to the device. *)
Definition is_request (e : event) : Prop :=
  match e with HttpPost _ _ | HttpGet _ _ | SendSSH _ => True | _ => False end.

(** Events that take no part in the order. *)
Definition silent (e : event) : Prop :=
  match e with
  | ConsoleError _ | ConsoleInfo _ | ConsoleLog _ | Failure _ | Uncaught _ => True
  | _ => False
  end.

(** ** The join of [execute_all] *)

Section JoinNotions.
Context {V : Type}.
Implicit Types (inv : list (nat * V)) (r : Join.run V).

(** What holds after any part of a run in which no function has passed a
    result twice. *)
Definition join_inv (n : nat) inv r : Prop :=
  Join.finished (Join.captured r) = length inv
  ∧ Join.length_ (Join.captured r) = n
  ∧ length (Join.results (Join.captured r)) = n
  ∧ (∀ i v, (i, v) ∈ inv → Join.results (Join.captured r) !! i = Some (Some v))
  ∧ Join.calls r =
      if decide (length inv = n) then [Join.results (Join.captured r)] else [].

End JoinNotions.

(** ** The routing table *)

Section RouteNotions.
Import FreebsdRoute.

(** The row the routing table holds for a line: the pieces of the line
    between its runs of white space, the first of them joined to the
    version; a piece the line does not have is [undefined]. *)
Definition row_of_line (version line : jsstring) : record :=
  let f0 := default [] (split_ws line !! 0) in
  (version ++ js ">" ++ f0,
   [VStr f0; of_field (split_ws line !! 1);
    of_field (split_ws line !! 2); of_field (split_ws line !! 3)]).



Definition laid_line : Type := jsstring * list (jsstring * jsstring).


Definition fields (l : laid_line) : list jsstring := l.1 :: l.2.*2.








Definition route_pending (st : state) : Prop :=
  ∀ k cb, pending st !! k = Some cb →
          ∃ cmd version index, cb = ExecCallback cmd (RouteLines version index).

(** What holds of a run of [get_status] at any time: its trace is in
    order so far, and unless every command has been answered,
    [D.success] has not been called and the answers counted and those
    awaited are two at most. *)
Definition freebsd_inv (st : state) : Prop :=
  ∃ m, observe false (Seen false false false false) (trace st) = Some m
     ∧ (pending st = ∅
        ∨ (reported m = false ∧ Join.length_ (join st) = 2
           ∧ Join.finished (join st) + size (pending st) ≤ 2
           ∧ route_pending st)).

End RouteNotions.

(** ** The latency table *)

Section LatencyNotions.
Variable sha256_hex : jsstring → jsstring.
Import WinLatency.

Definition digits ds : Prop := ds ≠ [] ∧ Forall (λ c, is_digit c = true) ds.

(** The output holds a match of [/Average = (\d+)ms/]. *)
Definition contains_latency s : Prop :=
  ∃ pre ds post, digits ds ∧ s = pre ++ js "Average = " ++ ds ++ js "ms" ++ post.

(** The output holds a match of
    [/Packets: Sent = \d+, Received = \d+, Lost = (\d+)/]. *)
Definition contains_loss s : Prop :=
  ∃ pre d1 d2 d3 post, digits d1 ∧ digits d2 ∧ digits d3 ∧
    s = pre ++ js "Packets: Sent = " ++ d1 ++ js ", Received = " ++ d2
            ++ js ", Lost = " ++ d3 ++ post.

(** A match of [/Average = (\d+)ms/] in [s]: it starts after [pre] and
    captures [ds]. *)
Definition latency_match (s pre ds : jsstring) : Prop :=
  digits ds ∧ ∃ post, s = pre ++ js "Average = " ++ ds ++ js "ms" ++ post.

(** No digit follows. *)
Definition ends_digits (post : jsstring) : Prop :=
  match post with c :: _ => is_digit c = false | [] => True end.

(** A match of [/Packets: Sent = \d+, Received = \d+, Lost = (\d+)/] in
    [s]: it starts after [pre] and captures [ds], every digit there is. *)
Definition loss_match (s pre ds : jsstring) : Prop :=
  digits ds ∧
  ∃ d1 d2 post, digits d1 ∧ digits d2 ∧ ends_digits post ∧
    s = pre ++ js "Packets: Sent = " ++ d1 ++ js ", Received = " ++ d2
            ++ js ", Lost = " ++ ds ++ post.

(** What the first of the matches captures: no match starts earlier. *)
Definition first_match (matches : jsstring → jsstring → Prop)
    (ds : jsstring) : Prop :=
  ∃ pre, matches pre ds
         ∧ ∀ pre' ds', matches pre' ds' → length pre ≤ length pre'.

(** The first [n] code units of [s], all of [s] when it has fewer. *)
Definition first_units (n : nat) (s front : jsstring) : Prop :=
  (∃ rest, s = front ++ rest) ∧ length front = n `min` length s.

(** A reply without error whose output holds both matches. *)
Definition good_reply (r : ssh_reply) : Prop :=
  err r = None ∧
  ∃ output, out r = Some output ∧ contains_latency output ∧ contains_loss output.

(** The record of [ipAddress] for an output. *)
Definition latency_record (ipAddress output : jsstring) : record :=
  (slice0 50 (sha256_hex ipAddress),
   [VStr ipAddress; VStr (default [] (exec latency_at output));
    VStr (default [] (exec loss_at output))]).

(** What holds after the replies [pre] of a run in which every reply is
    good and no request is answered twice. *)
Definition win_inv (pre : list (nat * ssh_reply)) (st : state) : Prop :=
  count st = length pre
  ∧ length (table st) = length pre
  ∧ (∀ k, pending st !! k =
          if decide (k ∈ pre.*1) then None
          else ResultCallback <$> ipAddresses !! k)
  ∧ successes (trace st)
    = (if decide (length pre = 5) then [Some (table st)] else [])
  ∧ (length pre = 5 → last (trace st) = Some (Success (Some (table st)))).

Definition result_pending (st : state) : Prop :=
  ∀ k cb, pending st !! k = Some cb → ∃ ip, cb = ResultCallback ip.

(** What holds of a run of [get_status] at any time: its trace is in
    order so far, and unless every command has been answered,
    [D.success] has not been called and the answers counted and those
    awaited are five at most. *)
Definition win_order_inv (st : state) : Prop :=
  ∃ m, observe false (Seen false false false false) (trace st) = Some m
     ∧ (pending st = ∅
        ∨ (reported m = false ∧ count st + size (pending st) ≤ 5
           ∧ result_pending st)).

(** Outputs of [ping -n 2] on Windows: two answers, and no answer. *)
Definition ping_answered : jsstring := js
"Pinging 8.8.8.8 with 32 bytes of data:
Reply from 8.8.8.8: bytes=32 time=12ms TTL=117
Reply from 8.8.8.8: bytes=32 time=11ms TTL=117

Ping statistics for 8.8.8.8:
    Packets: Sent = 2, Received = 2, Lost = 0 (0% loss),
Approximate round trip times in milli-seconds:
    Minimum = 11ms, Maximum = 12ms, Average = 11ms
".

Definition ping_timed_out : jsstring := js
"Pinging 192.168.0.3 with 32 bytes of data:
Request timed out.
Request timed out.

Ping statistics for 192.168.0.3:
    Packets: Sent = 2, Received = 0, Lost = 2 (100% loss),
".

Definition answered : ssh_reply := SshReply (Some ping_answered) None.

(** The SHA-256 of [8.8.8.8], in hexadecimal digits. *)
Definition sha256_of_8_8_8_8 : jsstring :=
  js "838c4c2573848f58e74332341a7ca6bc5cd86a8aec7d644137d53b4d597f10f5".

Definition timed_out : ssh_reply := SshReply (Some ping_timed_out) None.

Definition ssh_timeout : error := Error (Some (js "Timed out")) (Some 255%Z).

Definition ssh_failed : ssh_reply := SshReply None (Some ssh_timeout).

Definition ssh_failed_with_output : ssh_reply :=
  SshReply (Some (js "default 10.0.0.1 UGS em0")) (Some ssh_timeout).

End LatencyNotions.

(** ** The drive table *)

Section DriveNotions.
Variable lower_other : jsstring → jsstring.
Import DellDrives.
#[local] Abbreviation m0 := (Seen false false false false).

(** The upper-case letters below 256. *)
Definition is_upper (c : N) : bool :=
  ((65 <=? c) && (c <=? 90) || (192 <=? c) && (c <=? 222) && negb (c =? 215))%N.

(** What a code unit of a record id satisfies: it is no white space and
    no upper-case letter below 256. *)
Definition id_unit (c : N) : Prop := is_space c = false ∧ is_upper c = false.

Definition clear (s : jsstring) : Prop := Forall (λ c, is_space c = false) s.

(** The spelled-out part of the case table, checked entry by entry: the
    lower case holds no upper-case letter below 256, no white space
    unless the code unit is one, and one code unit unless it is the
    lower case of U+0130. *)
Definition lower_ok (c : N) : bool :=
  forallb (λ c', negb (is_upper c') && (is_space c || negb (is_space c')))
          (lower_unit c)
  && (bool_decide (c = 304%N) || bool_decide (length (lower_unit c) = 1)).

(** What is taken for granted of the part of [toLowerCase] that is not
    spelled out: the lower case of a string without white space has none,
    and no upper-case letter below 256; and U+0130 is the one code unit
    whose lower case is longer. *)
Definition keeps_clear (lower : jsstring → jsstring) : Prop :=
  ∀ s, clear s → Forall id_unit (lower s).

Definition keeps_length (lower : jsstring → jsstring) : Prop :=
  ∀ s, 304%N ∉ s → length (lower s) = length s.

(** A lowering of code units one at a time, by the spelled-out table. *)
Definition lower_by_units (s : jsstring) : jsstring :=
  concat (map lower_unit s).

Definition http_failed : http_reply :=
  HttpReply (Some ssh_timeout)
    (Some (Response (Some (Headers None None)) 500)) (js "{}").

(** A step that leaves the requests and the promises as they are and adds
    [es] to the trace. *)
Definition adds (st st' : state) (es : list event) : Prop :=
  trace st' = trace st ++ es
  ∧ pending st' = pending st ∧ requests st' = requests st
  ∧ joined st' = joined st ∧ controllers st' = controllers st.

(** A step that sends requests for data: it adds [HttpGet]s to the trace
    and pending requests under new numbers, none of them for the login or
    the list of controllers. *)
Definition is_get (e : event) : Prop :=
  match e with HttpGet _ _ => True | _ => False end.

Definition data_kont (c : kont) : Prop :=
  match c with KController _ | KDrive _ _ _ => True | _ => False end.

Definition fetches (st st' : state) (es : list event) : Prop :=
  trace st' = trace st ++ es ∧ Forall is_get es
  ∧ requests st ≤ requests st'
  ∧ joined st' = joined st ∧ controllers st' = controllers st
  ∧ (∀ k c, pending st' !! k = Some c →
            pending st !! k = Some c ∨ (requests st ≤ k ∧ data_kont c)).

(** Events of [extractData] before its [D.success]. *)
Definition is_row (e : event) : Prop :=
  match e with InsertRecord _ => True | _ => silent e end.

(** Events of the end of the chain: rows, then [D.success] or nothing. *)
Definition report (es : list event) : Prop :=
  ∃ rows last, es = rows ++ last ∧ Forall is_row rows
               ∧ (last = [] ∨ ∃ t, last = [Success t]).

Definition data_pending (st : state) : Prop :=
  ∀ k c, pending st !! k = Some c → 1 ≤ k ∧ data_kont c.

(** The run is past the list of controllers: the login and a data request
    have been answered, only data requests are pending, and while
    [D.q.all] waits [D.success] has not been called. *)
Definition live (st : state) (m : seen) : Prop :=
  observe true m0 (trace st) = Some m
  ∧ started m = true ∧ authenticated m = true ∧ fetched m = true
  ∧ 1 ≤ requests st ∧ data_pending st
  ∧ (joined st = true → reported m = false).

(** What holds of a run of [get_status] at any time: its trace is in
    order so far, and the run waits for the login as request 0, or for the
    list of controllers, or is past it, or waits for nothing. *)
Definition dell_inv (st : state) : Prop :=
  ∃ m, observe true m0 (trace st) = Some m
     ∧ (pending st = ∅
        ∨ (started m = true ∧ 1 ≤ requests st ∧ pending st = {[0 := KLogin]}
           ∧ joined st = false ∧ reported m = false)
        ∨ (started m = true ∧ 1 ≤ requests st ∧ authenticated m = true
           ∧ joined st = false ∧ reported m = false
           ∧ ∃ k, 1 ≤ k ∧ pending st = {[k := KStorage]})
        ∨ live st m).




End DriveNotions.

(** ** The services table *)

Section ServiceNotions.
Import EsxiServices.

Definition esxi_row (s : service) : record :=
  (key s, [or_NA (label s); or_NA (required s); or_NA (uninstallable s);
           or_NA (running s); or_NA (policy s)]).

(** What holds of a run of [get_status] at any time: its trace is in
    order so far, and at most one request is pending, the login as
    request 0 or a later one after the login was answered. *)
Definition esxi_inv (st : state) : Prop :=
  ∃ m, observe true (Seen false false false false) (trace st) = Some m
     ∧ started m = true ∧ 1 ≤ requests st
     ∧ (pending st = ∅
        ∨ (pending st = {[0 := KLogin]} ∧ reported m = false)
        ∨ (∃ k c, 1 ≤ k ∧ pending st = {[k := c]}
                  ∧ authenticated m = true ∧ reported m = false)).

End ServiceNotions.

(** ** Replies to the route driver *)

Section RouteReplies.
Import FreebsdRoute.

(** What [exec_command] writes for the error of a reply. *)
Definition reported_error (command : jsstring) (r : ssh_reply) : list event :=
  match err r with
  | Some e => [ConsoleError (LStr (js "error while executing command: " ++ command));
               ConsoleError (LErr e); Failure None]
  | None => []
  end.

(** The rows of the output of a reply. *)
Definition rows_of_reply (version : jsstring) (r : ssh_reply) : list record :=
  match out r with
  | Some o => row_of_line version <$> split_lines o
  | None => []
  end.

(** The events of the callback of [route(version, cmd)] up to the call of
    the function of [execute_all]. *)
Definition route_events (version command : jsstring) (r : ssh_reply)
  : list event :=
  reported_error command r
  ++ match out r with
     | Some _ => InsertRecord <$> rows_of_reply version r
     | None => [Uncaught TypeError]
     end.

Definition has_output (r : ssh_reply) : bool :=
  match out r with Some _ => true | None => false end.

End RouteReplies.

(** A cell of a routing row: [undefined], or a string without white
    space. *)
Definition route_cell (c : value) : Prop :=
  c = VUndef ∨ ∃ s, c = VStr s ∧ Forall (λ u, is_space u = false) s.

(** The newline characters of a string. *)
Definition newlines (s : jsstring) : nat :=
  length (List.filter (λ c, (c =? 10)%N) s).

(** ** Replies to the latency driver *)

Section LatencyReplies.
Variable sha256_hex : jsstring → jsstring.
Import WinLatency.

(** The calls of [D.failure] that [checkSshError] makes. *)
Definition ssh_failures (e : error) : list event :=
  (if decide (code e = Some 5%Z)
   then [Failure (Some AUTHENTICATION_ERROR)] else [])
  ++ [Failure (Some GENERIC_ERROR)].

(** A reply on which [resultCallback] returns: one with an error, or a
    good one. *)
Definition settled (r : ssh_reply) : Prop := is_Some (err r) ∨ good_reply r.

(** The row and the failures that the reply to command [d.1] brings. *)
Definition latency_rows (d : nat * ssh_reply) : list record :=
  match err d.2, ipAddresses !! d.1, out d.2 with
  | None, Some ip, Some o => [latency_record sha256_hex ip o]
  | _, _, _ => []
  end.

Definition latency_failures (d : nat * ssh_reply) : list event :=
  match err d.2 with Some e => ssh_failures e | None => [] end.

(** What holds after the replies [pre] of a run in which every callback
    returns and no request is answered twice. *)
Definition win_settled_inv (pre : list (nat * ssh_reply)) (st : state) : Prop :=
  count st = length pre
  ∧ table st = concat (latency_rows <$> pre)
  ∧ (∀ k, pending st !! k =
          if decide (k ∈ pre.*1) then None
          else ResultCallback <$> ipAddresses !! k)
  ∧ outcomes (trace st)
    = concat (latency_failures <$> pre)
      ++ (if decide (length pre = 5) then [Success (Some (table st))] else []).

(** An error-free reply on which [resultCallback] raises. *)
Definition unmatched (r : ssh_reply) : Prop :=
  err r = None
  ∧ (exec latency_at (subject (out r)) = None
     ∨ exec loss_at (subject (out r)) = None).

(** What holds while the callback of command [k] has not been called,
    and once it has raised. *)
Definition win_blocked_inv (k : option nat) (st : state) : Prop :=
  successes (trace st) = []
  ∧ result_pending st
  ∧ match k with
    | Some k => is_Some (pending st !! k) ∧ count st + size (pending st) ≤ 5
    | None => count st + size (pending st) ≤ 4
    end.

End LatencyReplies.

(** ** Replies to the drives driver *)

Section DriveReplies.
Variable JSON_parse : jsstring → option value.

(** A reply on which [processResponse] resolves its promise with [v]:
    it has a response with headers and a body that parses to [v]. *)
Definition resolves (r : http_reply) (v : value) : Prop :=
  ∃ resp h, hresponse r = Some resp ∧ rheaders resp = Some h
            ∧ JSON_parse (hbody r) = Some v.

End DriveReplies.

(** ** The table of the drives driver *)

Section DriveRows.
Variable lower_other : jsstring → jsstring.
Import DellDrives.

(** [row] is the record of the drive result [d]: its id is made of the
    controller name and the drive name, and it has four columns. *)
Definition drive_row_of (row : record) (d : drive_result) : Prop :=
  ∃ controllerName drive name,
    d = Some (controllerName, drive)
    ∧ get drive (js "Name") = Some name
    ∧ row.1 = sanitize lower_other
                (to_string controllerName ++ js " " ++ to_string name)
    ∧ length row.2 = 4.

(** A step of [extractData] before its [D.success]: it adds [rows] to the
    table and reports no success. *)
Definition inserts (st st' : state) (rows : list record) : Prop :=
  table st' = table st ++ rows
  ∧ successes (trace st') = successes (trace st).

(** The value [D.q.all] hands to [extractData] lacks a result: it is
    [undefined], or a controller or a drive in it is. *)
Definition incomplete (data : option (list controller_result)) : Prop :=
  match data with
  | None => True
  | Some cs => None ∈ cs ∨ ∃ drives, Some drives ∈ cs ∧ None ∈ drives
  end.

(** A drive as the Redfish service describes it, and its controller. *)
Definition sample_drive : value :=
  VObj [(js "Name", VStr (js "Disk 0.1"));
        (js "SerialNumber", VStr (js "ZL2K1ABC"));
        (js "PhysicalLocation",
         VObj [(js "Placement",
                VObj [(js "Rack", VNum (js "0")); (js "RackOffset", VNum (js "1"))])]);
        (js "Status",
         VObj [(js "State", VStr (js "Enabled"));
               (js "Health", VStr (js "OK"))])].

Definition sample_result : drive_result :=
  Some (VStr (js "controller_a"), sample_drive).

End DriveRows.

(** The code units [?], [*] and [%]. *)
Definition reserved_unit (c : N) : bool := ((c =? 63) || (c =? 42) || (c =? 37))%N.

Definition unreserved (s : jsstring) : Prop :=
  Forall (λ c, reserved_unit c = false) s.

(** The spelled-out part of the case table yields none of them. *)
Definition lower_unreserved (c : N) : bool :=
  reserved_unit c || forallb (λ c', negb (reserved_unit c')) (lower_unit c).

(** The same of the part that is not spelled out. *)
Definition keeps_unreserved (lower : jsstring → jsstring) : Prop :=
  ∀ s, unreserved s → unreserved (lower s).

(** ** Replies to the services driver *)

(** The error type [sendSoapRequest] reports for a reply, if any. *)
Definition soap_failure (r : http_reply) : option errorType :=
  match herror r with
  | Some _ => Some GENERIC_ERROR
  | None =>
      match hresponse r with
      | None => Some RESOURCE_UNAVAILABLE
      | Some response =>
          if (statusCode response =? 400)%Z then Some AUTHENTICATION_ERROR
          else if (statusCode response =? 200)%Z then None
          else Some GENERIC_ERROR
      end
  end.

(** A reply with status 200 and the body [body]. *)
Definition soap_ok (body : jsstring) : http_reply :=
  HttpReply None (Some (Response None 200)) body.

Section ServiceReplies.
Import EsxiServices.

(** What holds of a run of [get_status] at any time: while a request is
    pending nothing has been reported, at most one thing is reported at
    all, and the table is made of services. *)
Definition esxi_once_inv (st : state) : Prop :=
  (∃ ss, table st = esxi_row <$> ss)
  ∧ ((pending st = ∅ ∧ length (outcomes (trace st)) ≤ 1)
     ∨ (∃ k c, pending st = {[k := c]} ∧ outcomes (trace st) = []
               ∧ table st = [])).

(** The promise the chain waits for after [n] replies. *)
Definition kont_at (n : nat) : kont :=
  match n with
  | 0 => KLogin
  | 1 => KContainer
  | 2 => KFetch
  | _ => KProperties
  end.

(** A column that holds a text of one code unit at least. *)
Definition filled (c : value) : Prop := ∃ s, c = VStr s ∧ s ≠ [].

End ServiceReplies.

(** ** [validate] of the drives driver *)

Section DriveValidation.
Import DellDrives.

(** A step that leaves the table and [joined] as they are, reports no
    success and adds requests for data only. *)
Definition quiet (st st' : state) : Prop :=
  table st' = table st ∧ joined st' = joined st
  ∧ successes (trace st') = successes (trace st)
  ∧ (∀ k c, pending st' !! k = Some c →
            pending st !! k = Some c ∨ data_kont c).

(** What holds of a run of [validate] at any time: the table is empty;
    the run waits for the login, or for the list of controllers, both
    before anything is reported, or it is past them, and then
    [D.success()] was called once, after [D.q.all], or not at all. *)
Definition validate_inv (st : DellValidate.state) : Prop :=
  let d := DellValidate.drives st in
  table d = [] ∧ joined d = false
  ∧ ((∃ k c, pending d = {[k := c]} ∧ (c = KLogin ∨ c = KStorage)
             ∧ DellValidate.waiting st = false ∧ successes (trace d) = [])
     ∨ ((∀ k c, pending d !! k = Some c → data_kont c)
        ∧ (successes (trace d) = []
           ∨ (DellValidate.waiting st = false
              ∧ successes (trace d) = [None])))).

End DriveValidation.

(** ** The results [extractData] is given *)

Section DriveResults.
Import DellDrives.

(** The message of the check at the head of the inner loop of
    [extractData]. *)
Definition is_not_found (e : event) : bool :=
  match e with
  | ConsoleError (LStr s) =>
      bool_decide (s = js "Controller name or drive not found")
  | _ => false
  end.

Definition known (e : event) : Prop := is_not_found e = false.

(** A result of [getDriveInfo] that passes that check. *)
Definition result_sound (r : drive_result) : Prop :=
  match r with
  | Some (controllerName, drive) =>
      truthy controllerName = true ∧ truthy drive = true
  | None => True
  end.

Definition dslot_sound (d : dslot) : Prop :=
  match d with DDone r => result_sound r | DWait => True end.

Definition cslot_sound (c : cslot) : Prop :=
  match c with
  | CDrives ds => Forall dslot_sound ds
  | CDone (Some rs) => Forall result_sound rs
  | _ => True
  end.

(** What holds of a run of [get_status] at any time: every result so
    far passes the check, every drive is asked for under a controller
    name that does, and the message has not been logged. *)
Definition sound_inv (st : state) : Prop :=
  Forall cslot_sound (controllers st)
  ∧ (∀ k ci di name, pending st !! k = Some (KDrive ci di name) →
                     truthy name = true)
  ∧ Forall known (trace st).

End DriveResults.

(** ** A run on a table that holds records *)

(** The module's variables outlive a run of [get_status]: the table, and
    the command in the options of the SSH drivers.  Two states of a
    driver, the second with the records [t0] in front of its table and
    of every table it has handed to [D.success], and whatever command in
    its options. *)
Definition route_carried (t0 : list record)
    (st1 st2 : FreebsdRoute.state) : Prop :=
  FreebsdRoute.table st2 = t0 ++ FreebsdRoute.table st1
  ∧ FreebsdRoute.join st2 = FreebsdRoute.join st1
  ∧ FreebsdRoute.pending st2 = FreebsdRoute.pending st1
  ∧ FreebsdRoute.requests st2 = FreebsdRoute.requests st1
  ∧ FreebsdRoute.trace st2 = carry t0 <$> FreebsdRoute.trace st1.

Definition latency_carried (t0 : list record)
    (st1 st2 : WinLatency.state) : Prop :=
  WinLatency.table st2 = t0 ++ WinLatency.table st1
  ∧ WinLatency.count st2 = WinLatency.count st1
  ∧ WinLatency.pending st2 = WinLatency.pending st1
  ∧ WinLatency.requests st2 = WinLatency.requests st1
  ∧ WinLatency.trace st2 = carry t0 <$> WinLatency.trace st1.

Definition services_carried (t0 : list record)
    (st1 st2 : EsxiServices.state) : Prop :=
  EsxiServices.table st2 = t0 ++ EsxiServices.table st1
  ∧ EsxiServices.pending st2 = EsxiServices.pending st1
  ∧ EsxiServices.requests st2 = EsxiServices.requests st1
  ∧ EsxiServices.trace st2 = carry t0 <$> EsxiServices.trace st1.



(** * Properties *)

(** ** The join of [execute_all] *)

Section JoinFacts.
Context {V : Type}.
Implicit Types (inv : list (nat * V)) (r : Join.run V).

Lemma play_snoc inv i v r :
  Join.play (inv ++ [(i, v)]) r = Join.on_result i v (Join.play inv r).
Proof. unfold Join.play. by rewrite foldl_app. Qed.

Lemma array_set_lookup_eq (a : list (option V)) i v :
  array_set a i v !! i = Some (Some v).
Proof.
  unfold array_set. case_decide as Hi.
  - by apply list_lookup_insert_eq.
  - rewrite lookup_app_r by lia.
    rewrite lookup_app_r; rewrite length_replicate; [|lia].
    by replace (i - length a - (i - length a)) with 0 by lia.
Qed.

Lemma array_set_lookup_ne (a : list (option V)) i j v :
  i ≠ j → i < length a → array_set a i v !! j = a !! j.
Proof.
  intros Hne Hi. unfold array_set. rewrite decide_True by done.
  by apply list_lookup_insert_ne.
Qed.

Lemma array_set_length (a : list (option V)) i v :
  i < length a → length (array_set a i v) = length a.
Proof.
  intros Hi. unfold array_set. rewrite decide_True by done.
  apply length_insert.
Qed.

Lemma indices_bound n inv :
  NoDup inv.*1 → (∀ i, i ∈ inv.*1 → i < n) → length inv ≤ n.
Proof.
  intros Hnd Hlt.
  assert (inv.*1 ⊆+ seq 0 n) as Hsub.
  { apply NoDup_submseteq; [done|]. intros i Hi. apply elem_of_seq.
    specialize (Hlt i Hi). lia. }
  apply submseteq_length in Hsub.
  by rewrite length_fmap, length_seq in Hsub.
Qed.

Lemma execute_all_inv n inv :
  NoDup inv.*1 → (∀ i, i ∈ inv.*1 → i < n) →
  join_inv n inv (Join.execute_all n inv).
Proof.
  unfold Join.execute_all.
  induction inv as [|[i v] inv IH] using rev_ind; intros Hnd Hlt.
  - unfold join_inv, Join.enter, new_Array; simpl.
    rewrite length_replicate. repeat split; try done.
    + intros i v Hin. by apply elem_of_nil in Hin.
    + destruct n; simpl; [done|]. repeat case_decide; done || lia.
  - rewrite fmap_app in Hnd, Hlt. simpl in Hnd, Hlt.
    apply NoDup_app in Hnd as (Hnd & Hfresh & _).
    assert (i ∉ inv.*1) as Hi.
    { intros Hin. apply (Hfresh i Hin). by apply list_elem_of_singleton. }
    assert (i < n) as Hin by (apply Hlt, elem_of_app; right; by left).
    assert (length (inv ++ [(i, v)]) ≤ n) as Hlen.
    { apply indices_bound; rewrite fmap_app; simpl.
      - apply NoDup_app. split; [done|]. split; [done|]. apply NoDup_singleton.
      - done. }
    rewrite length_app in Hlen; simpl in Hlen.
    destruct IH as (Hfin & Hn & Hres & Hval & Hcalls); [done| |].
    { intros j Hj. apply Hlt, elem_of_app. by left. }
    rewrite play_snoc. unfold join_inv, Join.on_result, Join.store; simpl.
    rewrite Hfin, Hn, length_app; simpl.
    repeat split.
    + lia.
    + rewrite array_set_length; [done|]. by rewrite Hres.
    + intros j w [Hjw|Hjw]%elem_of_app.
      * rewrite array_set_lookup_ne; [by apply Hval| |by rewrite Hres].
        intros ->. apply Hi. apply (list_elem_of_fmap_2 fst) in Hjw. done.
      * apply list_elem_of_singleton in Hjw. injection Hjw as -> ->.
        apply array_set_lookup_eq.
    + rewrite Hcalls. rewrite (decide_False (P := length inv = n)) by lia.
      replace (length inv + 1) with (S (length inv)) by lia.
      case_bool_decide; destruct (decide (S (length inv) = n)); done || lia.
Qed.
End JoinFacts.

(** C1. For a non-empty [arrayFn] whose functions each pass one result,
    at some time and in any order, [execute_all] calls [callback] once, with
    a [results] array holding at every index the result that function
    passed, and it has not called it while a function was still to answer. *)
Theorem execute_all_joins {V : Type} (n : nat) (inv : list (nat * V)) :
  n ≠ 0 →
  inv.*1 ≡ₚ seq 0 n →
  ∃ results,
    Join.calls (Join.execute_all n inv) = [results]
    ∧ Join.finished (Join.captured (Join.execute_all n inv)) = n
    ∧ length results = n
    ∧ (∀ i v, (i, v) ∈ inv → results !! i = Some (Some v))
    ∧ (∀ pre post, inv = pre ++ post → post ≠ [] →
         Join.calls (Join.execute_all n pre) = []
         ∧ Join.finished (Join.captured (Join.execute_all n pre)) < n).
Proof.
  intros Hn Hperm.
  assert (NoDup inv.*1) as Hnd by (rewrite Hperm; apply NoDup_seq).
  assert (∀ i, i ∈ inv.*1 → i < n) as Hlt.
  { intros i Hi. rewrite Hperm in Hi. apply elem_of_seq in Hi. lia. }
  assert (length inv = n) as Hlen.
  { apply Permutation_length in Hperm.
    by rewrite length_fmap, length_seq in Hperm. }
  destruct (execute_all_inv n inv Hnd Hlt) as (Hfin & _ & Hres & Hval & Hcalls).
  exists (Join.results (Join.captured (Join.execute_all n inv))).
  rewrite decide_True in Hcalls by done.
  split; [done|]. split; [by rewrite Hfin|]. split; [done|]. split; [done|].
  intros pre post -> Hpost.
  rewrite fmap_app in Hnd, Hlt. apply NoDup_app in Hnd as (Hnd & _).
  destruct (execute_all_inv n pre Hnd) as (-> & _ & _ & _ & ->).
  { intros i Hi. apply Hlt, elem_of_app. by left. }
  rewrite length_app in Hlen. destruct post; [done|]. simpl in Hlen.
  rewrite decide_False by lia. split; [done|lia].
Qed.

Lemma execute_all_joins_witness :
  ∃ results,
    Join.calls (Join.execute_all 2 [(1, 7%Z); (0, 5%Z)]) = [results]
    ∧ Join.finished (Join.captured (Join.execute_all 2 [(1, 7%Z); (0, 5%Z)])) = 2
    ∧ length results = 2
    ∧ (∀ i v, (i, v) ∈ [(1, 7%Z); (0, 5%Z)] → results !! i = Some (Some v))
    ∧ (∀ pre post, [(1, 7%Z); (0, 5%Z)] = pre ++ post → post ≠ [] →
         Join.calls (Join.execute_all 2 pre) = []
         ∧ Join.finished (Join.captured (Join.execute_all 2 pre)) < 2).
Proof.
  apply (execute_all_joins 2 [(1, 7%Z); (0, 5%Z)]); [lia|].
  simpl. apply Permutation_swap.
Defined.

(** C8. On the empty array [execute_all] calls [callback] once, with the
    empty array: the branch for the empty array calls it, and with no
    function in [arrayFn] nothing is left that could call it again. *)
Theorem execute_all_empty {V : Type} :
  Join.calls (Join.execute_all (V := V) 0 []) = [[]].
Proof. reflexivity. Qed.

(** ** Reading a trace *)

Lemma sends_app tr1 tr2 : sends (tr1 ++ tr2) = sends tr1 ++ sends tr2.
Proof. apply omap_app. Qed.

Lemma sends_inserts (rs : list record) : sends (InsertRecord <$> rs) = [].
Proof. induction rs; simpl; done. Qed.

(** ** The FreeBSD routing table *)

Section FreebsdFacts.
Import FreebsdRoute.

Lemma split_ws_from_cons in_ws cur s :
  ∃ f fs, split_ws_from in_ws cur s = f :: fs.
Proof.
  revert in_ws cur. induction s as [|c s IH]; intros in_ws cur; simpl.
  - eauto.
  - destruct (is_space c); [destruct in_ws|]; eauto.
Qed.

Lemma route_record_row version line :
  route_record version line = row_of_line version line.
Proof.
  unfold route_record, row_of_line, split_ws.
  destruct (split_ws_from_cons false [] line) as (f & fs & ->); simpl.
  unfold concat_field; simpl. by rewrite <- app_assoc.
Qed.

Lemma insert_lines version lines st :
  foldl (λ st line, insertRecord (route_record version line) st) st lines
  = State (ssh_command st)
          (table st ++ (row_of_line version <$> lines))
          (join st) (pending st) (requests st)
          (trace st ++ (InsertRecord <$> (row_of_line version <$> lines))).
Proof.
  revert st. induction lines as [|l lines IH]; intros st; simpl.
  - rewrite !app_nil_r. by destruct st.
  - rewrite IH, route_record_row. unfold insertRecord; simpl.
    by rewrite <- !app_assoc.
Qed.


Lemma deliver_sends st d : sends (trace (deliver st d)) = sends (trace st).
Proof.
  unfold deliver. destruct (pending st !! d.1) as [[command cb]|]; [|done].
  unfold on_reply. destruct d as [k [o e]]; simpl.
  assert (∀ tr, sends
    (trace match e with
           | Some e0 => emit [ConsoleError (LStr (js "error while executing command: " ++ command));
                              ConsoleError (LErr e0); Failure None]
                             (State (ssh_command st) (table st) (join st)
                                (delete k (pending st)) (requests st) tr)
           | None => State (ssh_command st) (table st) (join st)
                       (delete k (pending st)) (requests st) tr
           end) = sends tr) as Herr.
  { intros tr. destruct e; simpl; [|done]. rewrite sends_app; simpl.
    by rewrite app_nil_r. }
  destruct o as [o|]; simpl.
  - destruct cb as [version index|]; simpl.
    + rewrite insert_lines. unfold join_result; simpl.
      case_bool_decide; simpl; rewrite ?sends_app, ?sends_inserts; simpl;
        rewrite ?app_nil_r, Herr, sends_app; simpl; by rewrite app_nil_r.
    + rewrite sends_app, Herr, sends_app; simpl. by rewrite !app_nil_r.
  - rewrite sends_app, Herr, sends_app; simpl. by rewrite !app_nil_r.
Qed.

Lemma run_sends replies st : sends (trace (run replies st)) = sends (trace st).
Proof.
  unfold run. revert st.
  induction replies as [|d replies IH]; intros st; simpl; [done|].
  by rewrite IH, deliver_sends.
Qed.
End FreebsdFacts.


Section RouteLayout.
Import FreebsdRoute.
Implicit Types (l : laid_line) (ls : list laid_line).











End RouteLayout.




(** ** The latency table *)

Section WinFacts.
Variable sha256_hex : jsstring → jsstring.
Import WinLatency.

#[local] Abbreviation run := (run sha256_hex).
#[local] Abbreviation deliver := (deliver sha256_hex).
#[local] Abbreviation resultCallback := (resultCallback sha256_hex).

Lemma win_count_reply_sends st :
  sends (trace (count_reply st)) = sends (trace st).
Proof.
  unfold count_reply. case_decide; simpl; [|done].
  rewrite sends_app; simpl. by rewrite app_nil_r.
Qed.

Lemma win_checkSshError_sends e st :
  sends (trace (checkSshError e st)) = sends (trace st).
Proof.
  unfold checkSshError.
  destruct (truthy_string (message e)), (decide (code e = Some 5%Z)); simpl;
    rewrite ?sends_app; simpl; by rewrite ?app_nil_r.
Qed.

Lemma win_deliver_sends st d :
  sends (trace (deliver st d)) = sends (trace st).
Proof.
  unfold deliver. destruct (pending st !! d.1) as [[ip|]|]; [| |done].
  - unfold resultCallback. destruct (err d.2) as [e|].
    + rewrite win_count_reply_sends, win_checkSshError_sends; simpl.
      rewrite sends_app; simpl. by rewrite app_nil_r.
    + destruct (exec latency_at (subject (out d.2))),
      (exec loss_at (subject (out d.2))); simpl;
        rewrite ?win_count_reply_sends; simpl;
        rewrite ?sends_app; simpl; rewrite ?sends_app; simpl;
        by rewrite ?app_nil_r.
  - unfold loginCallback. destruct (err d.2) as [e|].
    + rewrite win_checkSshError_sends; simpl. rewrite sends_app; simpl.
      by rewrite app_nil_r.
    + simpl. rewrite !sends_app; simpl. by rewrite !app_nil_r.
Qed.

Lemma win_run_sends replies st :
  sends (trace (run replies st)) = sends (trace st).
Proof.
  unfold WinLatency.run. revert st.
  induction replies as [|d replies IH]; intros st; simpl; [done|].
  by rewrite IH, win_deliver_sends.
Qed.
End WinFacts.

(** C5. The commands of the two SSH drivers do not depend on what the
    device answers: whatever replies arrive, in whatever order, the route
    driver's [get_status] has sent its two [netstat] commands and nothing
    else, its [validate] the one [netstat -r -n], and the latency driver's
    [get_status] one [ping -n 2] per address of [ipAddresses]. *)
Theorem ssh_commands_fixed (sha256_hex : jsstring → jsstring)
    (replies : list (nat * ssh_reply)) :
  sends (FreebsdRoute.trace
           (FreebsdRoute.run replies
              (FreebsdRoute.get_status FreebsdRoute.initial)))
    = [Some (js "netstat -4 -r -n | tail -n +5");
       Some (js "netstat -6 -r -n | tail -n +5")]
  ∧ sends (FreebsdRoute.trace
             (FreebsdRoute.run replies
                (FreebsdRoute.validate FreebsdRoute.initial)))
    = [Some (js "netstat -r -n")]
  ∧ sends (WinLatency.trace
             (WinLatency.run sha256_hex replies
                (WinLatency.get_status WinLatency.initial)))
    = (λ ip, Some (js "ping -n 2 " ++ ip)) <$> WinLatency.ipAddresses.
Proof.
  rewrite !run_sends, win_run_sends. by repeat split.
Qed.

(** ** The two expressions of the latency driver *)

Section RegexFacts.
Implicit Types (s lit ds rest pre post : jsstring).

Lemma match_lit_spec lit s rest :
  match_lit lit s = Some rest ↔ s = lit ++ rest.
Proof.
  revert s. induction lit as [|c lit IH]; intros s; simpl.
  - destruct s; split; congruence.
  - destruct s as [|d s]; [split; congruence|].
    destruct (N.eqb_spec c d) as [->|Hne].
    + rewrite IH. split; congruence.
    + split; [done|]. intros [=]. done.
Qed.

Lemma match_lit_app lit rest : match_lit lit (lit ++ rest) = Some rest.
Proof. by apply match_lit_spec. Qed.

Lemma span_digits_spec s :
  s = (span_digits s).1 ++ (span_digits s).2
  ∧ Forall (λ c, is_digit c = true) (span_digits s).1.
Proof.
  induction s as [|c s [IH1 IH2]]; simpl; [done|].
  destruct (is_digit c) eqn:Hc; [|done].
  destruct (span_digits s) as [ds rest]; simpl in *.
  split; [congruence|]. by constructor.
Qed.

Lemma span_digits_app ds rest :
  Forall (λ c, is_digit c = true) ds →
  span_digits (ds ++ rest) = (ds ++ (span_digits rest).1, (span_digits rest).2).
Proof.
  induction 1 as [|c ds Hc _ IH]; simpl.
  - by destruct (span_digits rest).
  - by rewrite Hc, IH.
Qed.

(** [\d+] followed by a literal that starts with no digit. *)
Lemma match_digits_app ds c rest :
  digits ds → is_digit c = false →
  match_digits (ds ++ c :: rest) = Some (ds, c :: rest).
Proof.
  intros [Hne Hds] Hc. unfold match_digits.
  rewrite span_digits_app by done. simpl. rewrite Hc; simpl.
  rewrite app_nil_r. by destruct ds.
Qed.

Lemma match_digits_is_Some ds rest :
  digits ds → ∃ ds' rest', match_digits (ds ++ rest) = Some (ds', rest').
Proof.
  intros [Hne Hds]. unfold match_digits. rewrite span_digits_app by done.
  destruct ds as [|c ds]; [done|]. simpl. eauto.
Qed.

Lemma match_digits_spec s ds rest :
  match_digits s = Some (ds, rest) → digits ds ∧ s = ds ++ rest.
Proof.
  unfold match_digits. destruct (span_digits_spec s) as [Hs Hds].
  destruct (span_digits s) as [[|c ds'] rest']; [done|].
  intros [= <- <-]. by repeat split.
Qed.

Lemma exec_suffix {A} (at_start : jsstring → option A) pre s :
  is_Some (at_start s) → is_Some (exec at_start (pre ++ s)).
Proof.
  intros Hs. induction pre as [|c pre IH]; simpl.
  - destruct s; simpl; destruct (at_start _); done.
  - destruct (at_start (c :: pre ++ s)); [done|]. apply IH.
Qed.

Lemma exec_spec {A} (at_start : jsstring → option A) s m :
  exec at_start s = Some m → ∃ pre s', s = pre ++ s' ∧ at_start s' = Some m.
Proof.
  induction s as [|c s IH]; simpl.
  - destruct (at_start []) eqn:H0; [|done]. intros [= ->]. by exists [], [].
  - destruct (at_start (c :: s)) eqn:H0.
    + intros [= ->]. by exists [], (c :: s).
    + intros (pre & s' & -> & Hm)%IH. by exists (c :: pre), s'.
Qed.

(** [exec] returns the match that starts first. *)
Lemma exec_first {A} (at_start : jsstring → option A) s m :
  exec at_start s = Some m →
  ∃ pre s', s = pre ++ s' ∧ at_start s' = Some m
            ∧ ∀ pre' s'', s = pre' ++ s'' → is_Some (at_start s'') →
                          length pre ≤ length pre'.
Proof.
  induction s as [|c s IH]; simpl.
  - destruct (at_start []) eqn:H0; [|done]. intros [= ->].
    exists [], []. split; [done|]. split; [done|]. intros; simpl; lia.
  - destruct (at_start (c :: s)) eqn:H0.
    + intros [= ->]. exists [], (c :: s). split; [done|]. split; [done|].
      intros; simpl; lia.
    + intros (pre & s' & -> & Hm & Hmin)%IH. exists (c :: pre), s'.
      split; [done|]. split; [done|]. intros pre' s'' Heq Hs''.
      destruct pre' as [|c' pre'].
      * simpl in Heq. subst s''. rewrite H0 in Hs''. by destruct Hs''.
      * injection Heq as <- Heq. simpl. apply le_n_S. by eapply Hmin.
Qed.

Lemma span_digits_rest s : ends_digits (span_digits s).2.
Proof.
  induction s as [|c s IH]; simpl; [done|].
  destruct (is_digit c) eqn:Hc; [|done].
  by destruct (span_digits s).
Qed.

Lemma match_digits_rest s ds rest :
  match_digits s = Some (ds, rest) → ends_digits rest.
Proof.
  unfold match_digits. pose proof (span_digits_rest s) as Hrest.
  destruct (span_digits s) as [[|c ds'] rest']; [done|].
  by intros [= <- <-].
Qed.

(** A run of digits that no digit follows is fixed by the text. *)
Lemma digits_run_unique (ds ds' post post' : jsstring) :
  Forall (λ c, is_digit c = true) ds → Forall (λ c, is_digit c = true) ds' →
  ends_digits post → ends_digits post' →
  ds ++ post = ds' ++ post' → ds = ds' ∧ post = post'.
Proof.
  intros Hds. revert ds'. induction Hds as [|c ds Hc _ IH]; intros ds' Hds'.
  - destruct Hds' as [|c' ds' Hc' _]; [done|]. simpl.
    intros Hpost _ ->. simpl in Hpost. congruence.
  - destruct Hds' as [|c' ds' Hc' Hds']; simpl.
    + intros _ Hpost <-. simpl in Hpost. congruence.
    + intros Hp Hp' [= <- Heq]. destruct (IH ds' Hds' Hp Hp' Heq) as [-> ->].
      done.
Qed.
End RegexFacts.

#[global] Arguments match_lit : simpl never.
#[global] Arguments match_digits : simpl never.
#[global] Arguments exec : simpl never.

Section LatencyRegex.
Import WinLatency.
Implicit Types (s ds post : jsstring).

Lemma latency_at_spec s ds :
  latency_at s = Some ds
  ↔ digits ds ∧ ∃ post, s = js "Average = " ++ ds ++ js "ms" ++ post.
Proof.
  unfold latency_at. split.
  - destruct (match_lit (js "Average = ") s) as [s1|] eqn:H1; [|done].
    apply match_lit_spec in H1 as ->. simpl.
    destruct (match_digits s1) as [[ds' s2]|] eqn:H2; [|done].
    apply match_digits_spec in H2 as [Hds ->]. simpl.
    destruct (match_lit (js "ms") s2) as [s3|] eqn:H3; [|done].
    apply match_lit_spec in H3 as ->. simpl. intros [= ->]. eauto.
  - intros [Hds [post ->]]. rewrite match_lit_app; simpl.
    change (js "ms" ++ post) with (109%N :: 115%N :: post).
    by rewrite match_digits_app by first [done | reflexivity].
Qed.

Lemma loss_at_spec s ds :
  loss_at s = Some ds
  → digits ds ∧ ∃ d1 d2 post, digits d1 ∧ digits d2 ∧
      s = js "Packets: Sent = " ++ d1 ++ js ", Received = " ++ d2
          ++ js ", Lost = " ++ ds ++ post.
Proof.
  unfold loss_at.
  destruct (match_lit (js "Packets: Sent = ") s) as [s1|] eqn:H1; [|done].
  apply match_lit_spec in H1 as ->. simpl.
  destruct (match_digits s1) as [[d1 s2]|] eqn:H2; [|done].
  apply match_digits_spec in H2 as [Hd1 ->]. simpl.
  destruct (match_lit (js ", Received = ") s2) as [s3|] eqn:H3; [|done].
  apply match_lit_spec in H3 as ->. simpl.
  destruct (match_digits s3) as [[d2 s4]|] eqn:H4; [|done].
  apply match_digits_spec in H4 as [Hd2 ->]. simpl.
  destruct (match_lit (js ", Lost = ") s4) as [s5|] eqn:H5; [|done].
  apply match_lit_spec in H5 as ->. simpl.
  destruct (match_digits s5) as [[d3 s6]|] eqn:H6; [|done].
  apply match_digits_spec in H6 as [Hd3 ->]. simpl.
  intros [= ->]. split; [done|]. by exists d1, d2, s6.
Qed.

Lemma loss_at_is_Some d1 d2 d3 post :
  digits d1 → digits d2 → digits d3 →
  is_Some (loss_at (js "Packets: Sent = " ++ d1 ++ js ", Received = " ++ d2
                    ++ js ", Lost = " ++ d3 ++ post)).
Proof.
  intros Hd1 Hd2 Hd3. unfold loss_at. rewrite match_lit_app; simpl.
  rewrite (match_digits_app d1 44%N) by first [done | reflexivity]. simpl.
  rewrite (match_digits_app d2) by first [done | reflexivity]. simpl.
  destruct (match_digits_is_Some d3 post Hd3) as (ds' & rest' & ->).
  simpl. eauto.
Qed.

Lemma exec_latency s :
  contains_latency s ↔ is_Some (exec latency_at s).
Proof.
  split.
  - intros (pre & ds & post & Hds & ->). apply exec_suffix.
    exists ds. apply latency_at_spec. eauto.
  - intros [ds (pre & s' & -> & [Hds [post ->]]%latency_at_spec)%exec_spec].
    by exists pre, ds, post.
Qed.

Lemma exec_loss s :
  contains_loss s ↔ is_Some (exec loss_at s).
Proof.
  split.
  - intros (pre & d1 & d2 & d3 & post & Hd1 & Hd2 & Hd3 & ->).
    apply exec_suffix. by apply loss_at_is_Some.
  - intros [ds (pre & s' & -> & Hs')%exec_spec].
    apply loss_at_spec in Hs' as (Hds & d1 & d2 & post & Hd1 & Hd2 & ->).
    by exists pre, d1, d2, ds, post.
Qed.

Lemma loss_at_ends s ds :
  loss_at s = Some ds
  → digits ds ∧ ∃ d1 d2 post, digits d1 ∧ digits d2 ∧ ends_digits post ∧
      s = js "Packets: Sent = " ++ d1 ++ js ", Received = " ++ d2
          ++ js ", Lost = " ++ ds ++ post.
Proof.
  unfold loss_at.
  destruct (match_lit (js "Packets: Sent = ") s) as [s1|] eqn:H1; [|done].
  apply match_lit_spec in H1 as ->. simpl.
  destruct (match_digits s1) as [[d1 s2]|] eqn:H2; [|done].
  apply match_digits_spec in H2 as [Hd1 ->]. simpl.
  destruct (match_lit (js ", Received = ") s2) as [s3|] eqn:H3; [|done].
  apply match_lit_spec in H3 as ->. simpl.
  destruct (match_digits s3) as [[d2 s4]|] eqn:H4; [|done].
  apply match_digits_spec in H4 as [Hd2 ->]. simpl.
  destruct (match_lit (js ", Lost = ") s4) as [s5|] eqn:H5; [|done].
  apply match_lit_spec in H5 as ->. simpl.
  destruct (match_digits s5) as [[d3 s6]|] eqn:H6; [|done].
  pose proof (match_digits_rest _ _ _ H6) as Hrest.
  apply match_digits_spec in H6 as [Hd3 ->]. simpl.
  intros [= ->]. split; [done|]. by exists d1, d2, s6.
Qed.

(** What [exec] returns for the two expressions is what their first
    match captures. *)
Lemma exec_first_latency s ds :
  exec latency_at s = Some ds → first_match (latency_match s) ds.
Proof.
  intros (pre & s' & -> & Hs' & Hmin)%exec_first.
  apply latency_at_spec in Hs' as [Hds [post ->]].
  exists pre. split; [split; [done|by exists post]|].
  intros pre' ds' [Hds' [post' Heq]]. apply (Hmin _ _ Heq).
  exists ds'. apply latency_at_spec. eauto.
Qed.

Lemma exec_first_loss s ds :
  exec loss_at s = Some ds → first_match (loss_match s) ds.
Proof.
  intros (pre & s' & -> & Hs' & Hmin)%exec_first.
  apply loss_at_ends in Hs' as (Hds & d1 & d2 & post & Hd1 & Hd2 & Hpost & ->).
  exists pre. split; [split; [done|by exists d1, d2, post]|].
  intros pre' ds' (Hds' & d1' & d2' & post' & Hd1' & Hd2' & _ & Heq).
  apply (Hmin _ _ Heq). by apply loss_at_is_Some.
Qed.

(** The first match captures one thing. *)
Lemma first_latency_unique s ds ds' :
  first_match (latency_match s) ds → first_match (latency_match s) ds' →
  ds = ds'.
Proof.
  intros (pre & [Hds [post Hs]] & Hmin) (pre' & [Hds' [post' Hs']] & Hmin').
  assert (length pre = length pre') as Hlen.
  { apply Nat.le_antisymm.
    - apply (Hmin pre' ds'). split; [done|by exists post'].
    - apply (Hmin' pre ds). split; [done|by exists post]. }
  rewrite Hs in Hs'. apply app_inj_1 in Hs' as [_ Heq]; [|done].
  apply app_inv_head in Heq.
  by destruct (digits_run_unique ds ds' (js "ms" ++ post) (js "ms" ++ post')
                 (proj2 Hds) (proj2 Hds') eq_refl eq_refl Heq).
Qed.

Lemma first_loss_unique s ds ds' :
  first_match (loss_match s) ds → first_match (loss_match s) ds' → ds = ds'.
Proof.
  intros (pre & (Hds & d1 & d2 & post & Hd1 & Hd2 & Hpost & Hs) & Hmin)
         (pre' & (Hds' & d1' & d2' & post' & Hd1' & Hd2' & Hpost' & Hs') & Hmin').
  assert (length pre = length pre') as Hlen.
  { apply Nat.le_antisymm.
    - apply (Hmin pre' ds'). split; [done|]. by exists d1', d2', post'.
    - apply (Hmin' pre ds). split; [done|]. by exists d1, d2, post. }
  rewrite Hs in Hs'. apply app_inj_1 in Hs' as [_ Heq]; [|done].
  apply app_inv_head in Heq.
  apply digits_run_unique in Heq as [_ Heq1];
    [|apply Hd1|apply Hd1'|reflexivity|reflexivity].
  apply app_inv_head in Heq1.
  apply digits_run_unique in Heq1 as [_ Heq2];
    [|apply Hd2|apply Hd2'|reflexivity|reflexivity].
  apply app_inv_head in Heq2.
  by destruct (digits_run_unique ds ds' post post' (proj2 Hds) (proj2 Hds')
                 Hpost Hpost' Heq2).
Qed.
End LatencyRegex.

(** ** The join of the latency driver *)

Lemma successes_app tr1 tr2 :
  successes (tr1 ++ tr2) = successes tr1 ++ successes tr2.
Proof. apply omap_app. Qed.

Section WinJoin.
Variable sha256_hex : jsstring → jsstring.
Import WinLatency.

#[local] Abbreviation run' := (run sha256_hex).
#[local] Abbreviation deliver' := (deliver sha256_hex).

Lemma resultCallback_good ipAddress output st :
  contains_latency output → contains_loss output →
  resultCallback sha256_hex ipAddress (SshReply (Some output) None) st
  = (count_reply (insertRecord (latency_record sha256_hex ipAddress output) st), None).
Proof.
  intros [lat Hlat]%exec_latency [loss Hloss]%exec_loss.
  unfold resultCallback, latency_record; simpl. by rewrite Hlat, Hloss.
Qed.

Lemma get_status_pending k :
  pending (get_status initial) !! k = ResultCallback <$> ipAddresses !! k.
Proof.
  do 5 (destruct k as [|k]; [reflexivity|]).
  unfold get_status; simpl. by rewrite !lookup_insert_ne by lia.
Qed.

Lemma deliver_good st k ipAddress r :
  pending st !! k = Some (ResultCallback ipAddress) → good_reply r →
  ∃ output, out r = Some output ∧
    deliver' st (k, r)
    = count_reply
        (insertRecord (latency_record sha256_hex ipAddress output)
           (State (ssh_command st) (table st) (count st)
                  (delete k (pending st)) (requests st)
                  (trace st ++ [Callback k]))).
Proof.
  intros Hk (Herr & output & Hout & Hlat & Hloss). exists output.
  split; [done|]. unfold WinLatency.deliver; simpl. rewrite Hk.
  destruct r as [o e]; simpl in *; subst.
  by rewrite resultCallback_good.
Qed.

Lemma win_run_inv pre :
  NoDup pre.*1 → (∀ k, k ∈ pre.*1 → k < 5) → Forall (λ d, good_reply d.2) pre →
  win_inv pre (run' pre (get_status initial)).
Proof.
  unfold WinLatency.run.
  induction pre as [|[k r] pre IH] using rev_ind; intros Hnd Hlt Hgood.
  - repeat split; try done. intros k. rewrite get_status_pending.
    rewrite decide_False; [done|]. apply not_elem_of_nil.
  - rewrite fmap_app in Hnd, Hlt. simpl in Hnd, Hlt.
    apply NoDup_app in Hnd as (Hnd & Hfresh & _).
    apply Forall_app in Hgood as [Hgood Hr].
    rewrite Forall_singleton in Hr. simpl in Hr.
    assert (k ∉ pre.*1) as Hk.
    { intros Hin. apply (Hfresh k Hin). by apply list_elem_of_singleton. }
    assert (k < 5) as Hk5 by (apply Hlt, elem_of_app; right; by left).
    assert (length (pre ++ [(k, r)]) ≤ 5) as Hlen.
    { apply indices_bound; rewrite fmap_app; simpl; [|done].
      apply NoDup_app. split; [done|]. split; [done|]. apply NoDup_singleton. }
    rewrite length_app in Hlen; simpl in Hlen.
    destruct IH as (Hcount & Htable & Hpending & Hsucc & _); [done| |done|].
    { intros j Hj. apply Hlt, elem_of_app. by left. }
    rewrite foldl_app; simpl.
    set (st := foldl deliver' (get_status initial) pre) in *.
    destruct (lookup_lt_is_Some_2 ipAddresses k) as [ip Hip]; [simpl; lia|].
    assert (pending st !! k = Some (ResultCallback ip)) as Hpk.
    { rewrite Hpending, decide_False by done. by rewrite Hip. }
    destruct (deliver_good st k ip r Hpk Hr) as (output & Hout & ->).
    rewrite decide_False in Hsucc by lia.
    unfold win_inv, count_reply, insertRecord; simpl.
    rewrite Hcount, !length_app; simpl.
    replace (length pre + 1) with (S (length pre)) by lia.
    destruct (decide (S (length pre) = 5)) as [H5|H5]; simpl.
    + repeat split; try lia.
      * rewrite length_app; simpl; lia.
      * intros j. rewrite fmap_app; simpl.
        destruct (decide (j = k)) as [->|Hjk].
        -- rewrite lookup_delete_eq, decide_True; [done|].
           apply elem_of_app. right. by left.
        -- rewrite lookup_delete_ne, Hpending by done.
           destruct (decide (j ∈ pre.*1)) as [Hj|Hj].
           ++ rewrite decide_True; [done|]. apply elem_of_app. by left.
           ++ rewrite decide_False; [done|].
              intros [?|?%list_elem_of_singleton]%elem_of_app; done.
      * rewrite !successes_app, Hsucc; simpl. done.
      * intros _. by rewrite last_snoc.
    + repeat split; try lia.
      * rewrite length_app; simpl; lia.
      * intros j. rewrite fmap_app; simpl.
        destruct (decide (j = k)) as [->|Hjk].
        -- rewrite lookup_delete_eq, decide_True; [done|].
           apply elem_of_app. right. by left.
        -- rewrite lookup_delete_ne, Hpending by done.
           destruct (decide (j ∈ pre.*1)) as [Hj|Hj].
           ++ rewrite decide_True; [done|]. apply elem_of_app. by left.
           ++ rewrite decide_False; [done|].
              intros [?|?%list_elem_of_singleton]%elem_of_app; done.
      * rewrite !successes_app, Hsucc; simpl. done.
Qed.
End WinJoin.

Lemma answered_good : good_reply answered.
Proof.
  split; [done|]. exists ping_answered. split; [done|]. split.
  - apply exec_latency. vm_compute. eauto.
  - apply exec_loss. vm_compute. eauto.
Defined.

(** C6, as stated, fails: five replies without error, the last of them the
    output of a ping that was not answered, and [D.success] is never
    called. *)
Lemma latency_join_needs_matches :
  [(0, answered); (1, answered); (2, answered); (3, answered); (4, timed_out)].*1
    ≡ₚ seq 0 5
  ∧ Forall (λ d : nat * ssh_reply, err d.2 = None)
      [(0, answered); (1, answered); (2, answered); (3, answered);
       (4, timed_out)]
  ∧ successes
      (WinLatency.trace
         (WinLatency.run (λ s, s)
            [(0, answered); (1, answered); (2, answered); (3, answered);
             (4, timed_out)]
            (WinLatency.get_status WinLatency.initial))) = [].
Proof.
  split; [done|]. split; [by repeat constructor|]. by vm_compute.
Qed.

(** C6, amended. When every one of the five commands is answered once,
    without error and with an output that holds both matches, [D.success]
    is called once, on the table, as the last thing of the run, and not
    before the fifth reply has been handled. *)
Theorem latency_join (sha256_hex : jsstring → jsstring)
    (replies : list (nat * ssh_reply)) :
  replies.*1 ≡ₚ seq 0 5 →
  Forall (λ d, good_reply d.2) replies →
  (∀ pre post, replies = pre ++ post →
     let st := WinLatency.run sha256_hex pre
                 (WinLatency.get_status WinLatency.initial) in
     successes (WinLatency.trace st)
     = if decide (post = []) then [Some (WinLatency.table st)] else [])
  ∧ (let st := WinLatency.run sha256_hex replies
                 (WinLatency.get_status WinLatency.initial) in
     last (WinLatency.trace st) = Some (Success (Some (WinLatency.table st)))).
Proof.
  intros Hperm Hgood.
  assert (NoDup replies.*1) as Hnd by (rewrite Hperm; apply NoDup_seq).
  assert (∀ k, k ∈ replies.*1 → k < 5) as Hlt.
  { intros k Hk. rewrite Hperm in Hk. apply elem_of_seq in Hk. lia. }
  assert (length replies = 5) as Hlen.
  { apply Permutation_length in Hperm.
    by rewrite length_fmap, length_seq in Hperm. }
  split.
  - intros pre post -> st.
    rewrite fmap_app in Hnd, Hlt. apply NoDup_app in Hnd as (Hnd & _).
    apply Forall_app in Hgood as [Hgood _].
    destruct (win_run_inv sha256_hex pre Hnd) as (_ & _ & _ & Hsucc & _);
      [|done|].
    { intros k Hk. apply Hlt, elem_of_app. by left. }
    unfold st. rewrite Hsucc. rewrite length_app in Hlen.
    destruct post as [|d post]; simpl in *.
    + rewrite decide_True by lia. done.
    + rewrite decide_False by lia. done.
  - destruct (win_run_inv sha256_hex replies Hnd Hlt Hgood)
      as (_ & _ & _ & _ & Hlast). by apply Hlast.
Qed.

Lemma latency_join_witness :
  (∀ pre post,
     [(3, answered); (0, answered); (4, answered); (1, answered);
      (2, answered)] = pre ++ post →
     let st := WinLatency.run (λ s, s) pre
                 (WinLatency.get_status WinLatency.initial) in
     successes (WinLatency.trace st)
     = if decide (post = []) then [Some (WinLatency.table st)] else [])
  ∧ (let st := WinLatency.run (λ s, s)
                 [(3, answered); (0, answered); (4, answered); (1, answered);
                  (2, answered)]
                 (WinLatency.get_status WinLatency.initial) in
     last (WinLatency.trace st) = Some (Success (Some (WinLatency.table st)))).
Proof.
  apply (latency_join (λ s, s)
           [(3, answered); (0, answered); (4, answered); (1, answered);
            (2, answered)]).
  - simpl.
    change [0; 1; 2; 3; 4] with ([0; 1; 2] ++ 3 :: [4]).
    apply Permutation_cons_app, Permutation_skip.
    change [1; 2; 4] with ([1; 2] ++ 4 :: []).
    apply Permutation_cons_app, Permutation_refl.
  - repeat constructor; apply answered_good.
Defined.

(** C10. [resultCallback], called without error on an output that holds a
    match of each of the two expressions, appends one record: its id the
    first fifty characters of the hash of the address, its columns the
    address and the digits that the first match of each expression
    captures, every digit of the run.  It ends without raising an
    exception exactly for such outputs. *)
Theorem latency_record_inserted (sha256_hex : jsstring → jsstring)
    (ipAddress output : jsstring) (st : WinLatency.state) :
  let res := WinLatency.resultCallback sha256_hex ipAddress
               (SshReply (Some output) None) st in
  (res.2 = None ↔ contains_latency output ∧ contains_loss output)
  ∧ (contains_latency output → contains_loss output →
     ∃ latency loss id,
       first_match (latency_match output) latency
       ∧ (∀ ds, first_match (latency_match output) ds → ds = latency)
       ∧ first_match (loss_match output) loss
       ∧ (∀ ds, first_match (loss_match output) ds → ds = loss)
       ∧ first_units 50 (sha256_hex ipAddress) id
       ∧ let r := (id, [VStr ipAddress; VStr latency; VStr loss]) in
         WinLatency.table res.1 = WinLatency.table st ++ [r]
         ∧ WinLatency.trace res.1
           = WinLatency.trace st ++ InsertRecord r
               :: (if decide (S (WinLatency.count st) = 5)
                   then [Success (Some (WinLatency.table st ++ [r]))]
                   else [])).
Proof.
  intros res. split.
  - unfold res, WinLatency.resultCallback; simpl.
    rewrite exec_latency, exec_loss.
    destruct (exec WinLatency.latency_at output) as [lat|];
      destruct (exec WinLatency.loss_at output) as [loss|]; simpl;
      split; try done; intros [[? ?] [? ?]]; done.
  - intros Hlat Hloss. unfold res.
    rewrite resultCallback_good by done.
    destruct (proj1 (exec_latency output) Hlat) as [latency Hl].
    destruct (proj1 (exec_loss output) Hloss) as [loss Hp].
    pose proof (exec_first_latency _ _ Hl) as Hfl.
    pose proof (exec_first_loss _ _ Hp) as Hfp.
    exists latency, loss, (slice0 50 (sha256_hex ipAddress)).
    split; [done|]. split.
    { intros ds Hds. by apply (first_latency_unique output). }
    split; [done|]. split.
    { intros ds Hds. by apply (first_loss_unique output). }
    split.
    { unfold first_units, slice0. split.
      - exists (drop 50 (sha256_hex ipAddress)). by rewrite take_drop.
      - by rewrite length_take. }
    unfold latency_record. rewrite Hl, Hp; simpl.
    unfold WinLatency.count_reply; simpl. split.
    + by case_decide.
    + case_decide; simpl; by rewrite <- ?app_assoc.
Qed.

Lemma latency_record_inserted_witness :
  ∃ latency loss id,
    first_match (latency_match ping_answered) latency
    ∧ first_match (loss_match ping_answered) loss
    ∧ first_units 50 sha256_of_8_8_8_8 id
    ∧ latency = js "11" ∧ loss = js "0"
    ∧ id = js "838c4c2573848f58e74332341a7ca6bc5cd86a8aec7d644137"
    ∧ WinLatency.table
        (WinLatency.resultCallback (λ _, sha256_of_8_8_8_8) (js "8.8.8.8")
           answered WinLatency.initial).1
      = [(id, [VStr (js "8.8.8.8"); VStr latency; VStr loss])].
Proof.
  destruct (latency_record_inserted (λ _, sha256_of_8_8_8_8) (js "8.8.8.8")
              ping_answered WinLatency.initial) as [_ H].
  destruct answered_good as (_ & o & [= <-] & Hlat & Hloss).
  destruct (H Hlat Hloss)
    as (latency & loss & id & Hl & Hl1 & Hp & Hp1 & Hid & Ht & _).
  exists latency, loss, id. split; [done|]. split; [done|]. split; [done|].
  assert (latency = js "11") as Hl11.
  { symmetry. apply Hl1. apply exec_first_latency. by vm_compute. }
  assert (loss = js "0") as Hp0.
  { symmetry. apply Hp1. apply exec_first_loss. by vm_compute. }
  assert (id = js "838c4c2573848f58e74332341a7ca6bc5cd86a8aec7d644137") as Hid50.
  { destruct Hid as [[rest Hrest] Hlen].
    change (length sha256_of_8_8_8_8) with 64 in Hlen. simpl in Hlen.
    assert (id = take 50 sha256_of_8_8_8_8) as ->; [|reflexivity].
    rewrite Hrest, take_app_length'; done. }
  split; [done|]. split; [done|]. split; [done|]. exact Ht.
Defined.

(** ** Record ids of the drive table *)

Section SanitizeFacts.
Variable lower_other : jsstring → jsstring.
Implicit Types (s : jsstring).

Lemma remove_words_Forall (P : N → Prop) words skip s :
  Forall P s → Forall P (remove_words words skip s).
Proof.
  intros Hs. revert skip. induction Hs as [|c s Hc Hs IH]; intros skip; simpl.
  - done.
  - destruct skip; [|done].
    destruct (list_find _ words) as [[? w]|]; [done|]. by constructor.
Qed.

Lemma replace_ws_length in_ws s : length (replace_ws in_ws s) ≤ length s.
Proof.
  revert in_ws. induction s as [|c s IH]; intros in_ws; simpl; [done|].
  pose proof (IH true). pose proof (IH false).
  destruct (is_space c); [destruct in_ws|]; simpl; lia.
Qed.

Lemma replace_ws_Forall (P : N → Prop) in_ws s :
  P 45%N → Forall P s → Forall P (replace_ws in_ws s).
Proof.
  intros H45 Hs. revert in_ws.
  induction Hs as [|c s Hc Hs IH]; intros in_ws; simpl; [done|].
  destruct (is_space c); [destruct in_ws|]; try done; by constructor.
Qed.

Lemma replace_ws_clear in_ws s : clear (replace_ws in_ws s).
Proof.
  unfold clear. revert in_ws. induction s as [|c s IH]; intros in_ws; simpl.
  - done.
  - destruct (is_space c) eqn:Hc; [destruct in_ws|]; try done;
      by constructor.
Qed.

Lemma lower_table :
  forallb lower_ok (304%N :: map N.of_nat (seq 0 256)) = true.
Proof. by vm_compute. Qed.

Lemma spelled_out_table c :
  spelled_out c = true → In c (304%N :: map N.of_nat (seq 0 256)).
Proof.
  unfold spelled_out. intros [Hc|Hc]%orb_true_iff.
  - right. apply in_map_iff. exists (N.to_nat c). split; [apply N2Nat.id|].
    apply in_seq. apply N.ltb_lt in Hc. lia.
  - left. symmetry. by apply N.eqb_eq.
Qed.

Lemma lower_unit_spec c :
  spelled_out c = true →
  (is_space c = false → Forall id_unit (lower_unit c))
  ∧ (c ≠ 304%N → length (lower_unit c) = 1).
Proof.
  intros Hc%spelled_out_table.
  apply (proj1 (forallb_forall _ _) lower_table) in Hc.
  unfold lower_ok in Hc. apply andb_prop in Hc as [Hall Hlen]. split.
  - intros Hsp. rewrite Hsp in Hall. apply Forall_forall. intros c' Hc'.
    apply list_elem_of_In in Hc'.
    apply (proj1 (forallb_forall _ _) Hall) in Hc'. simpl in Hc'.
    apply andb_prop in Hc' as [Hup Hs]. split.
    + by apply negb_true_iff.
    + by apply negb_true_iff.
  - intros Hne. apply orb_prop in Hlen as [H|H].
    + by apply bool_decide_eq_true in H.
    + by apply bool_decide_eq_true in H.
Qed.

Lemma lower_by_units_clear s : clear s → Forall id_unit (lower_by_units s).
Proof.
  unfold lower_by_units. induction 1 as [|c s Hc _ IH]; simpl; [done|].
  apply Forall_app. split; [|done].
  destruct (spelled_out c) eqn:Hsp.
  - by apply lower_unit_spec.
  - unfold spelled_out in Hsp. apply orb_false_iff in Hsp as [Hlt Hne].
    apply N.ltb_ge in Hlt. apply N.eqb_neq in Hne.
    assert (lower_unit c = [c]) as ->.
    { unfold lower_unit.
      replace ((65 <=? c) && (c <=? 90))%N with false
        by (symmetry; apply andb_false_iff; right; apply N.leb_gt; lia).
      replace (c <? 192)%N with false by (symmetry; apply N.ltb_ge; lia).
      replace ((c <=? 222) && negb (c =? 215))%N with false
        by (symmetry; apply andb_false_iff; left; apply N.leb_gt; lia).
      replace (c <? 256)%N with false by (symmetry; apply N.ltb_ge; lia).
      by replace (c =? 304)%N with false by (symmetry; by apply N.eqb_neq). }
    constructor; [|done]. split; [done|]. unfold is_upper.
    replace (c <=? 90)%N with false by (symmetry; apply N.leb_gt; lia).
    replace (c <=? 222)%N with false by (symmetry; apply N.leb_gt; lia).
    by rewrite !andb_false_r.
Qed.

Lemma lower_by_units_length s :
  304%N ∉ s → length (lower_by_units s) = length s.
Proof.
  unfold lower_by_units. induction s as [|c s IH]; simpl; [done|].
  intros [Hc Hs]%not_elem_of_cons. rewrite length_app, IH by done.
  destruct (spelled_out c) eqn:Hsp.
  - by rewrite (proj2 (lower_unit_spec c Hsp)).
  - unfold spelled_out in Hsp. apply orb_false_iff in Hsp as [Hlt Hne].
    apply N.ltb_ge in Hlt. unfold lower_unit.
    replace ((65 <=? c) && (c <=? 90))%N with false
      by (symmetry; apply andb_false_iff; right; apply N.leb_gt; lia).
    replace (c <? 192)%N with false by (symmetry; apply N.ltb_ge; lia).
    replace ((c <=? 222) && negb (c =? 215))%N with false
      by (symmetry; apply andb_false_iff; left; apply N.leb_gt; lia).
    replace (c <? 256)%N with false by (symmetry; apply N.ltb_ge; lia).
    by rewrite Hne.
Qed.

Lemma toLowerCase_clear s :
  keeps_clear lower_other → clear s → Forall id_unit (toLowerCase lower_other s).
Proof.
  intros Hother Hs. unfold toLowerCase.
  destruct (forallb spelled_out s) eqn:Hall; [|by apply Hother].
  apply Forall_concat, Forall_forall. intros l Hl.
  apply list_elem_of_In, in_map_iff in Hl as (c & <- & Hc).
  apply lower_unit_spec.
  - by apply (proj1 (forallb_forall _ _) Hall).
  - unfold clear in Hs. rewrite Forall_forall in Hs. apply Hs.
    by apply list_elem_of_In.
Qed.

Lemma toLowerCase_length s :
  keeps_length lower_other → 304%N ∉ s →
  length (toLowerCase lower_other s) = length s.
Proof.
  intros Hother Hs. unfold toLowerCase.
  destruct (forallb spelled_out s) eqn:Hall; [|by apply Hother].
  induction s as [|c s IH]; simpl; [done|].
  apply not_elem_of_cons in Hs as [Hc Hs].
  simpl in Hall. apply andb_prop in Hall as [Hsp Hall].
  rewrite length_app, IH by done.
  by rewrite (proj2 (lower_unit_spec c Hsp)).
Qed.

Lemma remove_words_dotted s :
  remove_words DellDrives.recordIdReservedWords 0 (304%N :: s)
  = 304%N :: remove_words DellDrives.recordIdReservedWords 0 s.
Proof. reflexivity. Qed.
End SanitizeFacts.

(** C9. The cap of [slice(0, 50)] does not hold for what [sanitize]
    returns, since [toLowerCase] comes after it and the lower case of
    U+0130 is two code units: of [n] of them [sanitize] makes twice as
    many code units as [slice] leaves, one hundred from fifty on,
    whatever the rest of the case table is. *)
Theorem sanitize_exceeds_cap (lower_other : jsstring → jsstring) (n : nat) :
  length (DellDrives.sanitize lower_other (replicate n 304%N))
  = 2 * (n `min` 50).
Proof.
  unfold DellDrives.sanitize.
  assert (remove_words DellDrives.recordIdReservedWords 0 (replicate n 304%N)
          = replicate n 304%N) as ->.
  { induction n as [|n IH]; [done|]. simpl replicate.
    by rewrite remove_words_dotted, IH. }
  unfold slice0. rewrite take_replicate.
  replace (50 `min` n) with (n `min` 50) by lia.
  generalize (n `min` 50). clear n. intros m.
  assert (replace_ws false (replicate m 304%N) = replicate m 304%N) as ->.
  { induction m as [|m IH]; [done|]. simpl. by rewrite IH. }
  unfold toLowerCase.
  assert (forallb spelled_out (replicate m 304%N) = true) as ->.
  { induction m as [|m IH]; [done|]. simpl. by rewrite IH. }
  induction m as [|m IH]; [done|]. simpl. rewrite IH. lia.
Qed.

(** Fifty U+0130 give a record id of one hundred code units. *)
Lemma sanitize_longer_than_50 :
  length (DellDrives.sanitize (λ s, s) (replicate 50 304%N)) = 100.
Proof. by vm_compute. Qed.

(** ** After [D.failure] *)

(** C2 against the code.  In the latency driver an error on the reply
    that completes the count is followed by [D.success]; [exec_command] of
    the route driver goes on to its callback, which inserts the lines of
    the output and can reach [D.success]; [processResponse] of the Dell
    driver goes on to resolve the promise.  Only [sendSoapRequest] of the
    ESXi driver stops at the failure. *)
Theorem failure_is_not_final :
  outcomes
    (WinLatency.trace
       (WinLatency.run (λ s, s)
          [(0, answered); (1, answered); (2, answered); (3, answered);
           (4, ssh_failed)]
          (WinLatency.get_status WinLatency.initial)))
  = [Failure (Some GENERIC_ERROR);
     Success (Some ((λ ip, (ip, [VStr ip; VStr (js "11"); VStr (js "0")]))
                      <$> take 4 WinLatency.ipAddresses))]
  ∧ List.filter (λ e, match e with
                      | Success _ | Failure _ | InsertRecord _ => true
                      | _ => false
                      end)
      (FreebsdRoute.trace
         (FreebsdRoute.run [(0, ssh_failed_with_output);
                            (1, ssh_failed_with_output)]
            (FreebsdRoute.get_status FreebsdRoute.initial)))
    = (let r4 := row_of_line (js "ip_v4") (js "default 10.0.0.1 UGS em0") in
       let r6 := row_of_line (js "ip_v6") (js "default 10.0.0.1 UGS em0") in
       [Failure None; InsertRecord r4; Failure None; InsertRecord r6;
        Success (Some [r4; r6])])
  ∧ (let '(st, r) := DellDrives.processResponse (λ _, Some VNull) http_failed
                       DellDrives.initial in
     outcomes (DellDrives.trace st)
       = [Failure (Some GENERIC_ERROR); Failure (Some GENERIC_ERROR)]
     ∧ r = inr VNull)
  ∧ EsxiServices.trace
      (EsxiServices.on_reply (λ s, s) (λ s, s) (λ s, s) (λ _, [])
         EsxiServices.KLogin
         http_failed EsxiServices.initial)
    = [ConsoleError (LErr ssh_timeout); Failure (Some GENERIC_ERROR)].
Proof. by vm_compute. Qed.

(** ** The order of the steps of a run *)

(** A data request before the login is answered, a row before any answer
    and a row after [D.success] are out of order. *)
Example request_before_login_answered :
  ¬ in_order true [HttpPost (js "/login") []; HttpGet VUndef None].
Proof. by intros [m [=]]. Qed.

Example row_before_answer : ¬ in_order false [SendSSH None; InsertRecord ([], [])].
Proof. by intros [m [=]]. Qed.

Example row_after_success :
  ¬ in_order false
      [SendSSH None; Callback 0; Success None; InsertRecord ([], [])].
Proof. by intros [m [=]]. Qed.

Lemma observe_app login m tr1 tr2 :
  observe login m (tr1 ++ tr2) = m' ← observe login m tr1; observe login m' tr2.
Proof.
  revert m. induction tr1 as [|e tr1 IH]; intros m; simpl; [done|].
  destruct (follows login m e) as [m'|]; simpl; [apply IH|done].
Qed.

(** What [in_order] says, event by event. *)
Lemma observe_cons_inv login m e tr m' :
  observe login m (e :: tr) = Some m' →
  ∃ m1, follows login m e = Some m1 ∧ observe login m1 tr = Some m'.
Proof.
  simpl. destruct (follows login m e) as [m1|]; [|done]. by exists m1.
Qed.

Lemma follows_flags login m e m1 :
  follows login m e = Some m1 →
  (started m1 = true → started m = true ∨ is_request e)
  ∧ (authenticated m1 = true →
     authenticated m = true ∨ (login = true ∧ e = Callback 0))
  ∧ (fetched m1 = true →
     fetched m = true ∨ (∃ k, e = Callback k ∧ (login = true → k ≠ 0)))
  ∧ (reported m = true → reported m1 = true)
  ∧ (reported m = true → ∀ r t, e ≠ InsertRecord r ∧ e ≠ Success t)
  ∧ (reported m1 = false → ∀ t, e ≠ Success t).
Proof.
  destruct m as [s a f r], login; destruct e as [| | | | | | | | |k|];
    try destruct k; simpl; try destruct s; try destruct a; try destruct f;
    try destruct r; simpl; intros [= <-]; simpl;
    repeat split; try done; eauto; intros; try done; right; eauto.
Qed.

Lemma observe_reported login tr : ∀ m m',
  observe login m tr = Some m' → reported m = true → reported m' = true.
Proof.
  induction tr as [|e tr IH]; intros m m'.
  - by intros [= <-].
  - intros (m1 & H1 & Htr)%observe_cons_inv Hr. apply (IH _ _ Htr).
    by apply (follows_flags _ _ _ _ H1).
Qed.

Lemma observe_flags login tr : ∀ m m',
  observe login m tr = Some m' →
  (started m' = true → started m = true ∨ (∃ e, e ∈ tr ∧ is_request e))
  ∧ (authenticated m' = true →
     authenticated m = true ∨ (login = true ∧ Callback 0 ∈ tr))
  ∧ (fetched m' = true →
     fetched m = true ∨ (∃ k, Callback k ∈ tr ∧ (login = true → k ≠ 0)))
  ∧ (reported m = true → ∀ r t, (InsertRecord r ∉ tr) ∧ (Success t ∉ tr))
  ∧ (reported m' = false → ∀ t, Success t ∉ tr).
Proof.
  induction tr as [|e tr IH]; intros m m'.
  - intros [= <-]. repeat split; intros; first [by left | apply not_elem_of_nil].
  - intros (m1 & H1 & Htr)%observe_cons_inv.
    destruct (follows_flags _ _ _ _ H1) as (Fs & Fa & Ff & Fr & Fn & Fp).
    destruct (IH _ _ Htr) as (Is & Ia & If & Ir & Ip).
    split; [|split; [|split; [|split]]].
    + intros [H|(e' & He' & Hq)]%Is.
      * destruct (Fs H) as [?|?]; [by left|]. right. exists e.
        split; [by left|done].
      * right. exists e'. split; [by right|done].
    + intros [H|[Hl H]]%Ia.
      * destruct (Fa H) as [?|[? ->]]; [by left|]. right. split; [done|by left].
      * right. split; [done|by right].
    + intros [H|(k & Hk & Hl)]%If.
      * destruct (Ff H) as [?|(k & -> & Hl)]; [by left|]. right. exists k.
        split; [by left|done].
      * right. exists k. split; [by right|done].
    + intros Hr r t. destruct (Fn Hr r t) as [Hi Hs].
      destruct (Ir (Fr Hr) r t) as [Hi' Hs'].
      split; intros [?|?]%elem_of_cons; done.
    + intros Hr t.
      assert (reported m1 = false) as Hr1.
      { destruct (reported m1) eqn:E; [|done].
        by rewrite (observe_reported _ _ _ _ Htr E) in Hr. }
      intros [?|?]%elem_of_cons; [by apply (Fp Hr1 t)|by apply (Ip Hr t)].
Qed.

(** With a login, a request is the first of the run or comes after the
    callback of request 0. *)
Lemma in_order_request pre e post :
  in_order true (pre ++ e :: post) → is_request e →
  (∀ e', e' ∈ pre → ¬ is_request e') ∨ Callback 0 ∈ pre.
Proof.
  intros [m Hm] He. rewrite observe_app in Hm.
  destruct (observe true _ pre) as [m1|] eqn:Hpre; [|done]. simpl in Hm.
  apply observe_cons_inv in Hm as (m2 & H2 & _).
  destruct (observe_flags _ _ _ _ Hpre) as (Hs & Ha & _).
  destruct (started m1) eqn:Es.
  - right. destruct (authenticated m1) eqn:Ea.
    + destruct (Ha eq_refl) as [?|[_ ?]]; done.
    + destruct e; try done; simpl in H2; by rewrite Es, Ea in H2.
  - left. intros e' He' Hq.
    assert (started m1 = true) as Hst; [|congruence].
    clear -Hpre He' Hq.
    revert Hpre He'. generalize (Seen false false false false).
    induction pre as [|e0 pre IH]; intros m Hpre He'.
    + by apply elem_of_nil in He'.
    + apply observe_cons_inv in Hpre as (m2 & H2 & Hpre).
      apply elem_of_cons in He' as [->|He']; [|by eapply IH].
      assert (started m2 = true) as Hs2.
      { destruct e0; try done; simpl in H2;
          (destruct (_ || _); [by injection H2 as <-|done]). }
      clear -Hpre Hs2. revert m2 Hpre Hs2.
      induction pre as [|e pre IH]; intros m2; simpl.
      * by intros [= <-].
      * destruct (follows true m2 e) as [m3|] eqn:H3; [|done]. simpl.
        intros Hpre Hs2. apply (IH _ Hpre).
        destruct e; simpl in H3;
          repeat match type of H3 with
                 | context [if ?b then _ else _] => destruct b
                 end; first [done | by injection H3 as <-].
Qed.

(** A row is inserted after the callback of a data request, and not after
    [D.success]. *)
Lemma in_order_row login pre r post :
  in_order login (pre ++ InsertRecord r :: post) →
  (∃ k, Callback k ∈ pre ∧ (login = true → k ≠ 0)) ∧ ∀ t, Success t ∉ pre.
Proof.
  intros [m Hm]. rewrite observe_app in Hm.
  destruct (observe login _ pre) as [m1|] eqn:Hpre; [|done]. simpl in Hm.
  destruct (fetched m1) eqn:Ef; [|done].
  destruct (reported m1) eqn:Er; [done|].
  destruct (observe_flags _ _ _ _ Hpre) as (_ & _ & Hf & _ & Hp).
  split; [|by apply Hp]. by destruct (Hf Ef).
Qed.

(** [D.success] is called once, and no row is inserted after it. *)
Lemma in_order_success login pre t post :
  in_order login (pre ++ Success t :: post) →
  (∀ t', Success t' ∉ pre)
  ∧ (∀ r' t', (InsertRecord r' ∉ post) ∧ (Success t' ∉ post)).
Proof.
  intros [m Hm]. rewrite observe_app in Hm.
  destruct (observe login _ pre) as [m1|] eqn:Hpre; [|done]. simpl in Hm.
  destruct (fetched m1) eqn:Ef; [|done].
  destruct (reported m1) eqn:Er; [done|]. simpl in Hm.
  destruct (observe_flags _ _ _ _ Hpre) as (_ & _ & _ & _ & Hp).
  split; [by apply Hp|].
  destruct (observe_flags _ _ _ _ Hm) as (_ & _ & _ & Hr & _).
  by apply Hr.
Qed.

Lemma observe_silent login m tr :
  Forall silent tr → observe login m tr = Some m.
Proof.
  induction 1 as [|e tr He _ IH]; simpl; [done|].
  destruct e; try done; simpl; apply IH.
Qed.

Lemma observe_inserts login m (rs : list record) :
  fetched m = true → reported m = false →
  observe login m (InsertRecord <$> rs) = Some m.
Proof.
  intros Hf Hr. induction rs as [|r rs IH]; simpl; [done|].
  by rewrite Hf, Hr.
Qed.

Section EsxiOrder.
Variables returnval_key returnval returnval_reference : jsstring → jsstring.
Variable services : jsstring → list EsxiServices.service.
Import EsxiServices.

#[local] Abbreviation on_reply' :=
  (on_reply returnval_key returnval returnval_reference services).
#[local] Abbreviation deliver' :=
  (deliver returnval_key returnval returnval_reference services).

Lemma populate_all (ss : list service) st :
  foldl (λ st s, populateTable s st) st ss
  = State (table st ++ (esxi_row <$> ss)) (pending st) (requests st)
          (trace st ++ (InsertRecord <$> (esxi_row <$> ss))).
Proof.
  revert st. induction ss as [|s ss IH]; intros st; simpl.
  - rewrite !app_nil_r. by destruct st.
  - rewrite IH. unfold populateTable, insertRecord; simpl.
    by rewrite <- !app_assoc.
Qed.

Lemma esxi_request_inv st m body c :
  observe true (Seen false false false false) (trace st) = Some m →
  started m = true → authenticated m = true → reported m = false →
  1 ≤ requests st → pending st = ∅ →
  esxi_inv (sendSoapRequest body c st).
Proof.
  intros Hm Hs Ha Hr Hn Hp. unfold esxi_inv, sendSoapRequest; simpl.
  exists (Seen true (authenticated m) (fetched m) (reported m)).
  rewrite observe_app, Hm; simpl. rewrite Ha, Hs; simpl.
  repeat split; [lia|]. right. right. exists (requests st), c.
  rewrite Hp. by repeat split.
Qed.

Lemma esxi_stop_inv st m es :
  observe true (Seen false false false false) (trace st) = Some m →
  started m = true → 1 ≤ requests st → pending st = ∅ → Forall silent es →
  esxi_inv (emit es st).
Proof.
  intros Hm Hs Hn Hp Hes. exists m. unfold emit; simpl.
  rewrite observe_app, Hm; simpl. rewrite observe_silent by done.
  repeat split; try done. by left.
Qed.

Lemma esxi_on_reply_inv st m c r :
  observe true (Seen false false false false) (trace st) = Some m →
  started m = true → authenticated m = true → reported m = false →
  (c = KProperties → fetched m = true) →
  1 ≤ requests st → pending st = ∅ →
  esxi_inv (on_reply' c r st).
Proof.
  intros Hm Hs Ha Hr Hf Hn Hp. unfold EsxiServices.on_reply.
  destruct (herror r) as [e|].
  { apply (esxi_stop_inv st m); try done. repeat constructor. }
  destruct (hresponse r) as [resp|].
  2:{ apply (esxi_stop_inv st m); try done. repeat constructor. }
  destruct (statusCode resp =? 400)%Z.
  { apply (esxi_stop_inv st m); try done. repeat constructor. }
  destruct (negb (statusCode resp =? 200)%Z).
  { apply (esxi_stop_inv st m); try done. repeat constructor. }
  destruct c; try by apply (esxi_request_inv st m).
  unfold generateTabelOutput. rewrite populate_all.
  exists (Seen (started m) (authenticated m) (fetched m) true).
  unfold emit; simpl. rewrite !observe_app, Hm; simpl.
  rewrite observe_inserts by auto; simpl. rewrite Hf, Hr by done; simpl.
  repeat split; try done. by left.
Qed.

Lemma esxi_deliver_inv st d : esxi_inv st → esxi_inv (deliver' st d).
Proof.
  intros (m & Hm & Hs & Hn & Hp). unfold EsxiServices.deliver.
  destruct (pending st !! d.1) as [c|] eqn:Hd; [|by exists m].
  set (st' := State (table st) (delete d.1 (pending st)) (requests st)
                    (trace st ++ [Callback d.1])).
  destruct Hp as [Hp|[[Hp Hr]|(k & c' & Hk & Hp & Ha & Hr)]].
  - rewrite Hp in Hd. by rewrite lookup_empty in Hd.
  - rewrite Hp in Hd. apply lookup_singleton_Some in Hd as [Hk0 <-].
    apply (esxi_on_reply_inv st' (Seen (started m) true (fetched m) (reported m)));
      try done.
    + unfold st'; simpl. rewrite observe_app, Hm; simpl. by rewrite <- Hk0.
    + unfold st'; simpl. rewrite Hp, <- Hk0. apply delete_singleton_eq.
  - rewrite Hp in Hd. apply lookup_singleton_Some in Hd as [Hkd <-].
    apply (esxi_on_reply_inv st'
             (Seen (started m) (authenticated m) true (reported m))); try done.
    + unfold st'; simpl. rewrite observe_app, Hm; simpl.
      rewrite bool_decide_eq_false_2 by lia. done.
    + unfold st'; simpl. rewrite Hp, <- Hkd. apply delete_singleton_eq.
Qed.

Lemma esxi_run_in_order username password replies :
  in_order true
    (trace (run returnval_key returnval returnval_reference services replies
              (get_status username password initial))).
Proof.
  assert (esxi_inv (get_status username password initial)) as Hinit.
  { exists (Seen true false false false). repeat split; try done.
    right. left. done. }
  unfold EsxiServices.run.
  revert Hinit. generalize (get_status username password initial).
  induction replies as [|d replies IH]; intros st Hst; simpl.
  - destruct Hst as (m & Hm & _). unfold in_order. by rewrite Hm.
  - apply IH. by apply esxi_deliver_inv.
Qed.
End EsxiOrder.

Section FreebsdOrder.
Import FreebsdRoute.

Lemma freebsd_initial_inv : freebsd_inv (get_status initial).
Proof.
  exists (Seen true false false false). split; [reflexivity|]. right.
  repeat split; try done.
  intros k cb. unfold get_status, execute_all; simpl.
  unfold route, exec_command, sendSSHCommand; simpl.
    intros [[_ <-]|[_ [[_ <-]|[_ H]]%lookup_insert_Some]]%lookup_insert_Some;
      eauto.
    by rewrite lookup_empty in H.
Qed.

Lemma freebsd_deliver_inv st d : freebsd_inv st → freebsd_inv (deliver st d).
Proof.
  intros (m & Hm & Hp). unfold deliver.
  destruct (pending st !! d.1) as [cb|] eqn:Hd; [|by exists m].
  destruct Hp as [Hp|(Hr & Hlen & Hfin & Hroute)].
  { rewrite Hp in Hd. by rewrite lookup_empty in Hd. }
  destruct (Hroute _ _ Hd) as (cmd & version & index & ->).
  assert (size (delete d.1 (pending st)) = pred (size (pending st))) as Hsize
    by (by apply map_size_delete_Some).
  assert (size (pending st) ≠ 0) as Hne.
  { intros Hz%map_size_empty_inv. rewrite Hz in Hd.
    by rewrite lookup_empty in Hd. }
  assert (∀ st', pending st' = delete d.1 (pending st) → route_pending st')
    as Hroute'.
  { intros st' Hst' k cb. rewrite Hst'.
    intros [_ Hk]%lookup_delete_Some. by apply Hroute in Hk. }
  set (m1 := Seen (started m) (authenticated m) true (reported m)).
  unfold on_reply.
  set (st1 := match err d.2 with Some e => _ | None => _ end).
  assert (∃ es, Forall silent es ∧
            st1 = State (ssh_command st) (table st) (join st)
                        (delete d.1 (pending st)) (requests st)
                        (trace st ++ Callback d.1 :: es)) as (es & Hes & Hst1).
  { unfold st1. destruct (err d.2) as [e|].
    - eexists. split; [|unfold emit; simpl; by rewrite <- app_assoc].
      repeat constructor.
    - by exists []. }
  clearbody st1. subst st1.
  assert (observe false (Seen false false false false)
            (trace st ++ Callback d.1 :: es) = Some m1) as Hm1.
  { rewrite !observe_app, Hm; simpl. by rewrite observe_silent. }
  destruct (out d.2) as [o|]; simpl.
  - rewrite insert_lines; simpl. unfold join_result, Join.store; simpl.
    rewrite Hlen. case_bool_decide as Hfire; simpl.
    + exists (Seen (started m) (authenticated m) true true).
      unfold status_done, emit; simpl.
      do 2 rewrite observe_app. rewrite Hm1; simpl.
      rewrite observe_inserts by done; simpl. rewrite Hr. split; [done|].
      left. apply map_size_empty_inv. lia.
    + exists m1. simpl. rewrite observe_app, Hm1; simpl.
      rewrite observe_inserts by done. split; [done|]. right.
      repeat split; simpl; try done; [lia|]. by apply Hroute'.
  - exists m1. simpl. rewrite observe_app, Hm1; simpl. split; [done|]. right.
    repeat split; simpl; try done; [lia|]. by apply Hroute'.
Qed.

Lemma freebsd_run_in_order replies :
  in_order false (trace (run replies (get_status initial))).
Proof.
  unfold FreebsdRoute.run. generalize freebsd_initial_inv.
  generalize (get_status initial).
  induction replies as [|d replies IH]; intros st Hst; simpl.
  - destruct Hst as (m & Hm & _). unfold in_order. by rewrite Hm.
  - apply IH. by apply freebsd_deliver_inv.
Qed.
End FreebsdOrder.

Section WinOrder.
Variable sha256_hex : jsstring → jsstring.
Import WinLatency.

Lemma win_initial_inv : win_order_inv (get_status initial).
Proof.
  exists (Seen true false false false). split; [reflexivity|]. right.
  repeat split; try done.
  intros k cb. rewrite get_status_pending.
  destruct (ipAddresses !! k) as [ip|]; simpl; [|done].
  intros [= <-]. by exists ip.
Qed.

Lemma checkSshError_silent e st :
  ∃ es, Forall silent es ∧ checkSshError e st = emit es st.
Proof.
  unfold checkSshError.
  destruct (truthy_string (message e)), (decide (code e = Some 5%Z));
    eexists; (split; [|unfold emit; simpl; rewrite <- ?app_assoc; reflexivity]);
    repeat constructor.
Qed.

Lemma win_count_reply_inv st m :
  observe false (Seen false false false false) (trace st) = Some m →
  fetched m = true → reported m = false →
  S (count st) + size (pending st) ≤ 5 → result_pending st →
  win_order_inv (count_reply st).
Proof.
  intros Hm Hf Hr Hc Hp. unfold count_reply; simpl. case_decide as H5.
  - exists (Seen (started m) (authenticated m) (fetched m) true).
    unfold emit; simpl. rewrite observe_app, Hm; simpl. rewrite Hf, Hr.
    split; [done|]. left. apply map_size_empty_inv. simpl in H5. lia.
  - exists m. split; [done|]. right. by repeat split.
Qed.

Lemma win_deliver_inv st d :
  win_order_inv st → win_order_inv (deliver sha256_hex st d).
Proof.
  intros (m & Hm & Hp). unfold WinLatency.deliver.
  destruct (pending st !! d.1) as [cb|] eqn:Hd; [|by exists m].
  destruct Hp as [Hp|(Hr & Hcount & Hres)].
  { rewrite Hp in Hd. by rewrite lookup_empty in Hd. }
  destruct (Hres _ _ Hd) as [ip ->].
  assert (size (delete d.1 (pending st)) = pred (size (pending st))) as Hsize
    by (by apply map_size_delete_Some).
  assert (size (pending st) ≠ 0) as Hne.
  { intros Hz%map_size_empty_inv. rewrite Hz in Hd.
    by rewrite lookup_empty in Hd. }
  assert (∀ st', pending st' = delete d.1 (pending st) → result_pending st')
    as Hres'.
  { intros st' Hst' k cb. rewrite Hst'.
    intros [_ Hk]%lookup_delete_Some. by apply Hres in Hk. }
  set (m1 := Seen (started m) (authenticated m) true (reported m)).
  set (st1 := State (ssh_command st) (table st) (count st)
                    (delete d.1 (pending st)) (requests st)
                    (trace st ++ [Callback d.1])).
  assert (observe false (Seen false false false false) (trace st1) = Some m1)
    as Hm1 by (unfold st1; simpl; by rewrite observe_app, Hm).
  assert (count st1 = count st) as Hc1 by done.
  assert (pending st1 = delete d.1 (pending st)) as Hp1 by done.
  clearbody st1.
  unfold resultCallback. destruct (err d.2) as [e|].
  - destruct (checkSshError_silent e st1) as (es & Hes & ->).
    apply (win_count_reply_inv _ m1); try done; simpl.
    + rewrite observe_app, Hm1; simpl. by apply observe_silent.
    + rewrite Hc1, Hp1. lia.
    + by apply Hres'.
  - destruct (exec latency_at (subject (out d.2))) as [lat|].
    2:{ exists m1. simpl. rewrite observe_app, Hm1. split; [done|]. right.
        rewrite Hc1, Hp1. repeat split; simpl; try done; [lia|].
        by apply Hres'. }
    destruct (exec loss_at (subject (out d.2))) as [loss|].
    2:{ exists m1. simpl. rewrite observe_app, Hm1. split; [done|]. right.
        rewrite Hc1, Hp1. repeat split; simpl; try done; [lia|].
        by apply Hres'. }
    apply (win_count_reply_inv _ m1); try done;
      unfold insertRecord; cbn [trace count pending].
    + rewrite observe_app, Hm1. cbn. by rewrite Hr.
    + rewrite Hc1, Hp1. lia.
    + by apply Hres'.
Qed.

Lemma win_run_in_order replies :
  in_order false (trace (run sha256_hex replies (get_status initial))).
Proof.
  unfold WinLatency.run. generalize win_initial_inv.
  generalize (get_status initial).
  induction replies as [|d replies IH]; intros st Hst; simpl.
  - destruct Hst as (m & Hm & _). unfold in_order. by rewrite Hm.
  - apply IH. by apply win_deliver_inv.
Qed.
End WinOrder.

Section DellFrames.
Variable JSON_parse : jsstring → option value.
Variable lower_other : jsstring → jsstring.
Import DellDrives.

#[local] Abbreviation processResponse' := (processResponse JSON_parse).
#[local] Abbreviation extract_drive' := (extract_drive lower_other).
#[local] Abbreviation extractData' := (extractData lower_other).
#[local] Abbreviation extract_or_catch' := (extract_or_catch lower_other).
#[local] Abbreviation check_join' := (check_join lower_other).

Lemma adds_refl st : adds st st [].
Proof. unfold adds. by rewrite app_nil_r. Qed.

Lemma adds_trans st1 st2 st3 es1 es2 :
  adds st1 st2 es1 → adds st2 st3 es2 → adds st1 st3 (es1 ++ es2).
Proof.
  intros (Ht1 & Hp1 & Hr1 & Hj1 & Hc1) (Ht2 & Hp2 & Hr2 & Hj2 & Hc2).
  unfold adds. rewrite Ht2, Ht1, app_assoc. repeat split; congruence.
Qed.

Lemma adds_emit es st : adds st (emit es st) es.
Proof. by unfold adds. Qed.

Lemma processResponse_adds r st :
  ∃ es, Forall silent es ∧ adds st (processResponse' r st).1 es.
Proof.
  unfold DellDrives.processResponse.
  set (st1 := match herror r with Some e => _ | None => st end).
  assert (∃ es, Forall silent es ∧ adds st st1 es) as (es1 & Hes1 & H1).
  { unfold st1. destruct (herror r).
    - eexists. split; [|apply adds_emit]. repeat constructor.
    - exists []. split; [done|apply adds_refl]. }
  clearbody st1.
  destruct (hresponse r) as [resp|]; [|by exists es1].
  destruct (rheaders resp) as [h|]; [|by exists es1].
  set (st2 := if truthy_header (x_auth_token h) then _ else _).
  assert (∃ es, Forall silent es ∧ adds st1 st2 es) as (es2 & Hes2 & H2).
  { unfold st2. destruct (truthy_header (x_auth_token h)).
    { exists []. split; [done|]. unfold adds, set_token; simpl.
      by rewrite app_nil_r. }
    destruct (header_includes _ _).
    { eexists. split; [|apply adds_emit]. repeat constructor. }
    destruct (header_includes _ _).
    { eexists. split; [|apply adds_emit]. repeat constructor. }
    destruct (negb _).
    { eexists. split; [|apply adds_emit]. repeat constructor. }
    exists []. split; [done|apply adds_refl]. }
  clearbody st2. exists (es1 ++ es2).
  split; [by apply Forall_app|].
  destruct (JSON_parse (hbody r)); simpl; by apply (adds_trans st st1).
Qed.

Lemma fetches_refl st : fetches st st [].
Proof. unfold fetches. rewrite app_nil_r. repeat split; auto. Qed.

Lemma fetches_httpGet url c st :
  data_kont c → fetches st (httpGet url c st) [HttpGet url (sessionToken st)].
Proof.
  intros Hc. unfold fetches, httpGet, request; simpl.
  repeat split; [by repeat constructor|lia|].
  intros k c' [[<- <-]|[_ H]]%lookup_insert_Some; auto.
Qed.

Lemma fetches_trans st1 st2 st3 es1 es2 :
  fetches st1 st2 es1 → fetches st2 st3 es2 → fetches st1 st3 (es1 ++ es2).
Proof.
  intros (Ht1 & He1 & Hr1 & Hj1 & Hc1 & Hp1) (Ht2 & He2 & Hr2 & Hj2 & Hc2 & Hp2).
  unfold fetches. rewrite Ht2, Ht1, app_assoc.
  repeat split; [by apply Forall_app|lia|congruence|congruence|].
  intros k c [H|[Hk Hd]]%Hp2; [by apply Hp1|]. right. split; [lia|done].
Qed.

Lemma map_members_fetches members ci st :
  ∃ es, fetches st (map_members ci members st).1 es.
Proof.
  revert ci st. induction members as [|member members IH]; intros ci st; simpl.
  - exists []. apply fetches_refl.
  - destruct (get member (js "@odata.id")) as [url|]; simpl.
    + destruct (IH (S ci) (httpGet url (KController ci) st)) as [es Hes].
      eexists. eapply fetches_trans; [|apply Hes].
      by apply fetches_httpGet.
    + exists []. apply fetches_refl.
Qed.

Lemma map_drives_fetches drives ci di name st :
  ∃ es, fetches st (map_drives ci di name drives st).1 es.
Proof.
  revert di st. induction drives as [|drive drives IH]; intros di st; simpl.
  - exists []. apply fetches_refl.
  - destruct (get drive (js "@odata.id")) as [url|]; simpl.
    + destruct (IH (S di) (httpGet url (KDrive ci di name) st)) as [es Hes].
      eexists. eapply fetches_trans; [|apply Hes].
      by apply fetches_httpGet.
    + exists []. apply fetches_refl.
Qed.
End DellFrames.

Section DellReport.
Variable lower_other : jsstring → jsstring.
Import DellDrives.

Lemma observe_rows login m es :
  Forall is_row es → fetched m = true → reported m = false →
  observe login m es = Some m.
Proof.
  intros Hes Hf Hr. induction Hes as [|e es He _ IH]; simpl; [done|].
  destruct e; try done; simpl; try apply IH. by rewrite Hf, Hr.
Qed.

Lemma observe_report login m es :
  report es → fetched m = true → reported m = false →
  ∃ r, observe login m es
       = Some (Seen (started m) (authenticated m) (fetched m) r).
Proof.
  intros (rows & last & -> & Hrows & Hlast) Hf Hr.
  rewrite observe_app, observe_rows by done. simpl.
  destruct Hlast as [->|[t ->]]; simpl.
  - exists (reported m). by destruct m.
  - rewrite Hf, Hr. simpl. by exists true.
Qed.

Lemma extract_drive_adds d st :
  ∃ es, Forall is_row es ∧ adds st (extract_drive lower_other d st).1 es.
Proof.
  unfold DellDrives.extract_drive. destruct d as [[cn drive]|].
  2:{ exists []. split; [done|apply adds_refl]. }
  set (st1 := if negb (truthy cn) || negb (truthy drive) then _ else st).
  assert (∃ es, Forall is_row es ∧ adds st st1 es) as (es1 & Hes1 & H1).
  { unfold st1. destruct (negb (truthy cn) || negb (truthy drive)).
    - eexists. split; [|apply adds_emit]. repeat constructor.
    - exists []. split; [done|apply adds_refl]. }
  clearbody st1.
  destruct (get drive (js "Name")) as [name|]; [|by exists es1].
  match goal with
  | |- context [mbind ?f ?x] => destruct (mbind f x) as [cols|]
  end; [|by exists es1].
  simpl. eexists (es1 ++ [InsertRecord _]). split.
  - apply Forall_app. split; [done|]. by repeat constructor.
  - eapply adds_trans; [apply H1|]. by unfold adds.
Qed.

Lemma for_each_adds {A} (f : A → state → state * option exn) xs st :
  (∀ x st, ∃ es, Forall is_row es ∧ adds st (f x st).1 es) →
  ∃ es, Forall is_row es ∧ adds st (for_each f xs st).1 es.
Proof.
  intros Hf. revert st. induction xs as [|x xs IH]; intros st; simpl.
  - exists []. split; [done|apply adds_refl].
  - destruct (Hf x st) as (es1 & Hes1 & H1).
    destruct (f x st) as [st1 [e|]]; simpl in *; [by exists es1|].
    destruct (IH st1) as (es2 & Hes2 & H2).
    exists (es1 ++ es2). split; [by apply Forall_app|].
    by apply (adds_trans st st1).
Qed.

Lemma extract_or_catch_adds data st :
  ∃ es, report es ∧ adds st (extract_or_catch lower_other data st) es.
Proof.
  unfold DellDrives.extract_or_catch, DellDrives.extractData.
  destruct data as [data|].
  2:{ eexists. split; [|apply adds_emit].
      eexists _, []. rewrite app_nil_r. split; [done|].
      split; [|by left]. repeat constructor. }
  match goal with
  | |- context [for_each ?f data st] =>
      destruct (for_each_adds f data st) as (es & Hes & Hadds);
      [|destruct (for_each f data st) as [st1 [e|]]]
  end.
  - intros [driveData|] st0.
    + apply for_each_adds, extract_drive_adds.
    + exists []. split; [done|apply adds_refl].
  - simpl in *. eexists. split.
    2:{ eapply adds_trans; [apply Hadds|apply adds_emit]. }
    eexists _, []. rewrite app_nil_r. split; [done|]. split; [|by left].
    apply Forall_app. split; [done|]. repeat constructor.
  - simpl in *. eexists. split.
    2:{ eapply adds_trans; [apply Hadds|apply adds_emit]. }
    eexists es, _. split; [done|]. split; [done|]. right. eauto.
Qed.

(** [check_join] does nothing, or it ends the chain. *)
Lemma check_join_cases st :
  check_join lower_other st = st
  ∨ (joined st = true ∧ joined (check_join lower_other st) = false
     ∧ ∃ es, report es
             ∧ trace (check_join lower_other st) = trace st ++ es
             ∧ pending (check_join lower_other st) = pending st
             ∧ requests (check_join lower_other st) = requests st).
Proof.
  unfold DellDrives.check_join. destruct (joined st) eqn:Hj; [|by left].
  destruct (mapM slot_result (controllers st)) as [data|]; [|by left].
  right. split; [done|].
  destruct (extract_or_catch_adds (Some data)
              (set_controllers (controllers st) false st))
    as (es & Hes & Ht & Hp & Hr & Hj' & Hc).
  split; [by rewrite Hj'|]. exists es. by repeat split.
Qed.
End DellReport.

Section DellOrder.
Variable JSON_parse : jsstring → option value.
Variable lower_other : jsstring → jsstring.
Import DellDrives.

#[local] Abbreviation m0 := (Seen false false false false).
#[local] Abbreviation check_join' := (check_join lower_other).

Lemma observe_gets m es :
  started m = true → authenticated m = true → Forall is_get es →
  observe true m es = Some m.
Proof.
  intros Hs Ha Hes. destruct m as [s a f r]. simpl in *. subst.
  induction Hes as [|e es He _ IH]; simpl; [done|].
  by destruct e.
Qed.

Lemma live_fetches st st' m es :
  live st m → fetches st st' es → live st' m.
Proof.
  intros (Hm & Hs & Ha & Hf & Hn & Hp & Hj) (Ht & Hes & Hr & Hj' & _ & Hp').
  assert (data_pending st') as Hd'.
  { intros k c [H|[Hk Hd]]%Hp'; [by apply Hp|]. split; [lia|done]. }
  unfold live. rewrite Ht, observe_app, Hm; simpl.
  rewrite observe_gets by done. rewrite Hj'.
  split; [done|]. do 3 (split; [done|]). split; [lia|]. by split.
Qed.

Lemma live_adds st st' m es :
  live st m → adds st st' es → Forall silent es → live st' m.
Proof.
  intros (Hm & Hs & Ha & Hf & Hn & Hp & Hj) (Ht & Hp' & Hr & Hj' & _) Hes.
  unfold live, data_pending. rewrite Ht, observe_app, Hm, Hp', Hr, Hj'; simpl.
  by rewrite observe_silent.
Qed.

Lemma live_set_controllers st m cs j :
  live st m → (j = true → reported m = false) → live (set_controllers cs j st) m.
Proof.
  intros (Hm & Hs & Ha & Hf & Hn & Hp & Hj) Hj'. unfold live.
  do 5 (split; [done|]). split; [exact Hp|exact Hj'].
Qed.

Lemma live_check_join st m : live st m → ∃ m', live (check_join' st) m'.
Proof.
  intros Hl. destruct (check_join_cases lower_other st)
    as [->|(Hj & Hj' & es & Hes & Ht & Hp & Hr)]; [by exists m|].
  destruct Hl as (Hm & Hs & Ha & Hf & Hn & Hd & Hrep).
  destruct (observe_report true m es Hes Hf (Hrep Hj)) as [r Hobs].
  exists (Seen (started m) (authenticated m) (fetched m) r).
  unfold live, data_pending.
  rewrite Ht, observe_app, Hm, Hp, Hr, Hj'; simpl. rewrite Hobs.
  do 5 (split; [done|]). split; [exact Hd|done].
Qed.

Lemma live_report st st' m es :
  live st m → reported m = false → joined st = false →
  report es → adds st st' es → ∃ m', live st' m'.
Proof.
  intros (Hm & Hs & Ha & Hf & Hn & Hp & _) Hr Hj Hes (Ht & Hp' & Hr' & Hj' & _).
  destruct (observe_report true m es Hes Hf Hr) as [r Hobs].
  exists (Seen (started m) (authenticated m) (fetched m) r).
  unfold live, data_pending.
  rewrite Ht, observe_app, Hm, Hp', Hr', Hj', Hj; simpl. rewrite Hobs.
  do 5 (split; [done|]). split; [exact Hp|done].
Qed.

Lemma live_on_storage st m v :
  live st m → reported m = false → joined st = false →
  ∃ m', live (on_storage lower_other v st) m'.
Proof.
  intros Hl Hr Hj. unfold DellDrives.on_storage.
  assert (∀ e, ∃ m', live (failed_chain e st) m') as Hfail.
  { intros e. exists m. eapply live_adds; [done|apply adds_emit|].
    repeat constructor. }
  destruct (truthy v && truthy _).
  2:{ destruct (extract_or_catch_adds lower_other None st) as (es & Hes & Hadds).
      by eapply live_report. }
  destruct (default VUndef (get v (js "Members"))); try apply Hfail.
  set (st1 := set_controllers _ false st).
  assert (live st1 m) as Hl1 by (by apply live_set_controllers).
  destruct (map_members_fetches items 0 st1) as [es Hes].
  pose proof (live_fetches _ _ _ _ Hl1 Hes) as Hl2.
  destruct (map_members 0 items st1) as [st2 [e|]]; simpl in *.
  - exists m. eapply live_adds; [done|apply adds_emit|]. repeat constructor.
  - apply (live_check_join _ m). by apply live_set_controllers.
Qed.

Lemma live_set_slot st m ci c : live st m → live (set_slot ci c st) m.
Proof.
  intros Hl. unfold set_slot. apply live_set_controllers; [done|].
  by destruct Hl as (_ & _ & _ & _ & _ & _ & Hj).
Qed.

Lemma live_on_controller st m ci v :
  live st m → ∃ m', live (on_controller lower_other ci v st) m'.
Proof.
  intros Hl. unfold DellDrives.on_controller.
  apply (live_check_join _ m).
  assert (∀ e, live (set_slot ci (CDone None) (controller_failed e st)) m)
    as Hfail.
  { intros e. apply live_set_slot.
    eapply live_adds; [done|apply adds_emit|]. repeat constructor. }
  destruct (truthy v && truthy _ && truthy _).
  2:{ apply live_set_slot. eapply live_adds; [done|apply adds_emit|].
      repeat constructor. }
  destruct (default VUndef (get v (js "Drives"))); try apply Hfail.
  match goal with
  | |- context [map_drives ci 0 ?name items st] =>
      destruct (map_drives_fetches items ci 0 name st) as [es Hes];
      pose proof (live_fetches _ _ _ _ Hl Hes) as Hl2;
      destruct (map_drives ci 0 name items st) as [st2 [e|]]
  end; simpl in *.
  - apply live_set_slot. eapply live_adds; [done|apply adds_emit|].
    repeat constructor.
  - by apply live_set_slot.
Qed.

Lemma live_on_drive st m ci di name v :
  live st m → ∃ m', live (on_drive lower_other ci di name v st) m'.
Proof.
  intros Hl. unfold DellDrives.on_drive.
  set (found := truthy v && truthy _).
  set (st1 := if found then st else _).
  assert (live st1 m) as Hl1.
  { unfold st1. destruct found; [done|].
    eapply live_adds; [done|apply adds_emit|]. repeat constructor. }
  clearbody st1.
  destruct (controllers st1 !! ci) as [[|drives|]|]; try by exists m.
  apply (live_check_join _ m). by apply live_set_slot.
Qed.
End DellOrder.

Section DellRun.
Variable JSON_parse : jsstring → option value.
Variable lower_other : jsstring → jsstring.
Import DellDrives.

#[local] Abbreviation m0 := (Seen false false false false).

Lemma live_inv st m : live st m → dell_inv st.
Proof. intros Hl. exists m. split; [apply Hl|]. by do 3 right. Qed.

Lemma live_processResponse st m r :
  live st m → live (processResponse JSON_parse r st).1 m.
Proof.
  intros Hl. destruct (processResponse_adds JSON_parse r st) as (es & Hes & Ha).
  by eapply live_adds.
Qed.

Lemma live_uncaught st m x : live st m → live (emit [Uncaught x] st) m.
Proof.
  intros Hl. eapply live_adds; [done|apply adds_emit|]. repeat constructor.
Qed.

Lemma dell_deliver_inv st d :
  dell_inv st → dell_inv (deliver JSON_parse lower_other st d).
Proof.
  intros (m & Hm & Hphase). unfold DellDrives.deliver.
  destruct (pending st !! d.1) as [c|] eqn:Hd; [|by exists m].
  set (st1 := State (sessionToken st) (table st) (controllers st) (joined st)
                    (delete d.1 (pending st)) (requests st)
                    (trace st ++ [Callback d.1])).
  destruct (processResponse_adds JSON_parse d.2 st1)
    as (es & Hes & Ht & Hp & Hr & Hj & Hc).
  destruct Hphase as [Hp0|[(Hs & Hn & Hp0 & Hj0 & Hr0)
    |[(Hs & Hn & Ha & Hj0 & Hr0 & k & Hk & Hp0)|Hl]]].
  - rewrite Hp0 in Hd. by rewrite lookup_empty in Hd.
  - rewrite Hp0 in Hd. apply lookup_singleton_Some in Hd as [Hk0 <-].
    assert (observe true m0 (trace (processResponse JSON_parse d.2 st1).1)
            = Some (Seen (started m) true (fetched m) (reported m))) as Hobs.
    { rewrite Ht. unfold st1; simpl. rewrite !observe_app, Hm; simpl.
      rewrite <- Hk0; simpl. by apply observe_silent. }
    assert (pending (processResponse JSON_parse d.2 st1).1 = ∅) as Hempty.
    { rewrite Hp. unfold st1; simpl. rewrite Hp0, <- Hk0.
      apply delete_singleton_eq. }
    destruct (processResponse JSON_parse d.2 st1) as [st2 [x|v]]; simpl in *.
    + eexists. unfold emit; simpl. rewrite observe_app, Hobs; simpl.
      split; [done|]. by left.
    + eexists. unfold httpGet, request; simpl.
      rewrite observe_app, Hobs; simpl. rewrite Hs; simpl.
      split; [done|]. right. right. left.
      simpl. split; [done|]. split; [lia|]. split; [done|].
      split; [congruence|]. split; [done|].
      exists (requests st2). rewrite Hempty. split; [lia|done].
  - rewrite Hp0 in Hd. apply lookup_singleton_Some in Hd as [Hkd <-].
    assert (live (processResponse JSON_parse d.2 st1).1
                 (Seen (started m) (authenticated m) true (reported m))) as Hl.
    { unfold live, data_pending. rewrite Ht, Hp, Hr, Hj. unfold st1; simpl.
      rewrite !observe_app, Hm; simpl.
      rewrite bool_decide_eq_false_2 by lia. simpl.
      rewrite observe_silent by done.
      do 5 (split; [done|]). split; [|done].
      intros k' c'. rewrite Hp0, <- Hkd, delete_singleton_eq.
      by rewrite lookup_empty. }
    assert (joined (processResponse JSON_parse d.2 st1).1 = false) as Hj2
      by (by rewrite Hj).
    destruct (processResponse JSON_parse d.2 st1) as [st2 [x|v]]; simpl in *.
    + eapply live_inv, live_uncaught, Hl.
    + destruct (live_on_storage lower_other st2 _ v Hl) as [m' Hm']; try done.
      by eapply live_inv.
  - destruct Hl as (_ & Hs & Ha & Hf & Hn & Hdata & Hjr).
    destruct (Hdata _ _ Hd) as [Hk Hdc].
    destruct m as [s a f r]. simpl in Hs, Ha, Hf, Hjr. subst s a f.
    set (m := Seen true true true r) in *.
    assert (live (processResponse JSON_parse d.2 st1).1 m) as Hl.
    { unfold live, data_pending. rewrite Ht, Hp, Hr, Hj. unfold st1; simpl.
      rewrite !observe_app, Hm; simpl.
      rewrite bool_decide_eq_false_2 by lia. simpl.
      rewrite observe_silent by done.
      do 5 (split; [done|]). split; [|done].
      intros k' c' [_ H]%lookup_delete_Some. by apply Hdata. }
    destruct (processResponse JSON_parse d.2 st1) as [st2 [x|v]]; simpl in *.
    + eapply live_inv, live_uncaught, Hl.
    + destruct c as [| |ci|ci di name]; try done.
      * destruct (live_on_controller lower_other st2 m ci v Hl) as [m' Hm'].
        by eapply live_inv.
      * destruct (live_on_drive lower_other st2 m ci di name v Hl) as [m' Hm'].
        by eapply live_inv.
Qed.

Lemma dell_run_in_order credentials replies :
  in_order true
    (trace (run JSON_parse lower_other replies (get_status credentials initial))).
Proof.
  assert (dell_inv (get_status credentials initial)) as Hinit.
  { exists (Seen true false false false). split; [done|]. right. left.
    by repeat split. }
  unfold DellDrives.run. revert Hinit.
  generalize (get_status credentials initial).
  induction replies as [|d replies IH]; intros st Hst; simpl.
  - destruct Hst as (m & Hm & _). unfold in_order. by rewrite Hm.
  - apply IH. by apply dell_deliver_inv.
Qed.
End DellRun.

(** C3. In every run of a driver's [get_status] the steps come in the
    order authenticate, fetch, parse, report.  In the two drivers that log
    in, the first request is the login and no other request is sent before
    its callback has been called; in all four, rows are inserted only
    after the callback of a data request has been called, and [D.success]
    is called at most once, after such a callback, and no row is inserted
    after it. *)
Theorem get_status_in_order
    (JSON_parse : jsstring → option value) (lower_other : jsstring → jsstring)
    (credentials username password : jsstring)
    (returnval_key returnval returnval_reference : jsstring → jsstring)
    (services : jsstring → list EsxiServices.service)
    (sha256_hex : jsstring → jsstring)
    (http_replies : list (nat * http_reply))
    (ssh_replies : list (nat * ssh_reply)) :
  in_order true
    (DellDrives.trace
       (DellDrives.run JSON_parse lower_other http_replies
          (DellDrives.get_status credentials DellDrives.initial)))
  ∧ in_order true
      (EsxiServices.trace
         (EsxiServices.run returnval_key returnval returnval_reference services
            http_replies
            (EsxiServices.get_status username password EsxiServices.initial)))
  ∧ in_order false
      (FreebsdRoute.trace
         (FreebsdRoute.run ssh_replies
            (FreebsdRoute.get_status FreebsdRoute.initial)))
  ∧ in_order false
      (WinLatency.trace
         (WinLatency.run sha256_hex ssh_replies
            (WinLatency.get_status WinLatency.initial))).
Proof.
  split; [apply dell_run_in_order|].
  split; [apply esxi_run_in_order|].
  split; [apply freebsd_run_in_order|apply win_run_in_order].
Qed.

(** ** What a run takes over from the module *)


Section RouteCarried.
Variable t0 : list record.
Import FreebsdRoute.

Ltac carried_fields :=
  match goal with
  | H : route_carried _ ?a ?b |- _ =>
      destruct a, b; destruct H as (? & ? & ? & ? & ?); simpl in *; subst
  end.



Lemma route_carried_exec_command command cb st1 st2 :
  route_carried t0 st1 st2 →
  route_carried t0 (exec_command command cb st1) (exec_command command cb st2).
Proof.
  intros H. carried_fields. unfold route_carried; simpl. by rewrite fmap_app.
Qed.







End RouteCarried.

Section LatencyCarried.
Variable sha256_hex : jsstring → jsstring.
Variable t0 : list record.
Import WinLatency.

Ltac carried_fields :=
  match goal with
  | H : latency_carried _ ?a ?b |- _ =>
      destruct a, b; destruct H as (? & ? & ? & ? & ?); simpl in *; subst
  end.









End LatencyCarried.

Section ServicesCarried.
Variables username password : jsstring.
Variables returnval_key returnval returnval_reference : jsstring → jsstring.
Variable services : jsstring → list EsxiServices.service.
Variable t0 : list record.
Import EsxiServices.

Ltac carried_fields :=
  match goal with
  | H : services_carried _ ?a ?b |- _ =>
      destruct a, b; destruct H as (? & ? & ? & ?); simpl in *; subst
  end.







End ServicesCarried.

Section DellToken.
Variable JSON_parse : jsstring → option value.
Variable lower_other : jsstring → jsstring.
Variable t0 : list record.
Import DellDrives.























End DellToken.



(** * Further properties *)

(** ** [execute_all] counts invocations *)

Section JoinCount.
Context {V : Type}.
Implicit Types (inv : list (nat * V)).

Lemma play_counts n inv :
  Join.finished (Join.captured (Join.execute_all n inv)) = length inv
  ∧ Join.length_ (Join.captured (Join.execute_all n inv)) = n.
Proof.
  unfold Join.execute_all.
  induction inv as [|[i v] inv [IH1 IH2]] using rev_ind; [done|].
  rewrite play_snoc, length_app. unfold Join.on_result, Join.store; simpl.
  rewrite IH1, IH2. split; [lia|done].
Qed.
End JoinCount.

(** X1. [execute_all] counts the calls of the function it hands out, not
    the functions that made them: [callback] is called once, at the call
    that brings the count to [arrayFn.length], whoever makes the calls and
    however many follow. *)
Theorem execute_all_fires_at_count {V : Type} (n : nat) (inv : list (nat * V)) :
  length (Join.calls (Join.execute_all n inv))
  = if decide (n ≤ length inv) then 1 else 0.
Proof.
  induction inv as [|[i v] inv IH] using rev_ind.
  - simpl. by destruct n.
  - unfold Join.execute_all in *. rewrite play_snoc.
    destruct (play_counts n inv) as [Hfin Hlen].
    unfold Join.execute_all in Hfin, Hlen.
    unfold Join.on_result, Join.store; simpl. rewrite Hfin, Hlen.
    rewrite length_app; simpl.
    case_bool_decide; simpl; rewrite ?length_app, IH; simpl;
      repeat case_decide; lia.
Qed.

(** ** The route driver on any reply *)

Section RouteAny.
Import FreebsdRoute.

Lemma deliver_route_any st k cmd version index r :
  pending st !! k = Some (ExecCallback cmd (RouteLines version index)) →
  deliver st (k, r)
  = let st' := State (ssh_command st) (table st ++ rows_of_reply version r)
                     (join st) (delete k (pending st)) (requests st)
                     (trace st ++ Callback k :: route_events version cmd r) in
    if has_output r then join_result index st' else st'.
Proof.
  intros Hk. unfold deliver; simpl. rewrite Hk.
  unfold on_reply, route_events, rows_of_reply, reported_error, has_output.
  destruct r as [[o|] [e|]]; simpl; rewrite ?insert_lines; simpl;
    unfold emit; simpl; rewrite <- ?app_assoc; simpl; rewrite ?app_nil_r;
    try done.
  all: unfold join_result; simpl; by case_bool_decide.
Qed.
End RouteAny.

(** X2. [get_status] of the route driver, both commands answered in
    either order, with or without error: it inserts the rows of every
    reply that has an output, reports every error with [D.failure()], and
    calls [D.success(table)], last, exactly when both replies have an
    output; a reply without output leaves an uncaught [TypeError]. *)
Theorem freebsd_get_status_any (r4 r6 : ssh_reply) (v4_first : bool) :
  let st := FreebsdRoute.run
              (if v4_first then [(0, r4); (1, r6)] else [(1, r6); (0, r4)])
              (FreebsdRoute.get_status FreebsdRoute.initial) in
  let e4 := route_events (js "ip_v4") FreebsdRoute.route_v4_cmd r4 in
  let e6 := route_events (js "ip_v6") FreebsdRoute.route_v6_cmd r6 in
  let rows4 := rows_of_reply (js "ip_v4") r4 in
  let rows6 := rows_of_reply (js "ip_v6") r6 in
  FreebsdRoute.table st = (if v4_first then rows4 ++ rows6 else rows6 ++ rows4)
  ∧ FreebsdRoute.trace st =
      [SendSSH (Some FreebsdRoute.route_v4_cmd);
       SendSSH (Some FreebsdRoute.route_v6_cmd)]
      ++ (if v4_first then Callback 0 :: e4 ++ Callback 1 :: e6
          else Callback 1 :: e6 ++ Callback 0 :: e4)
      ++ (if has_output r4 && has_output r6
          then [Success (Some (FreebsdRoute.table st))] else []).
Proof.
  intros st e4 e6 rows4 rows6.
  unfold st, e4, e6, rows4, rows6, FreebsdRoute.run, route_events, rows_of_reply.
  destruct r4 as [[o4|] err4], r6 as [[o6|] err6], v4_first; cbn [foldl];
    repeat
      (first [rewrite (deliver_route_any _ 0 FreebsdRoute.route_v4_cmd
                         (js "ip_v4") 0) by reflexivity
             |rewrite (deliver_route_any _ 1 FreebsdRoute.route_v6_cmd
                         (js "ip_v6") 1) by reflexivity];
       unfold route_events, rows_of_reply, has_output; cbn [out];
       cbv zeta; cbn [FreebsdRoute.join_result];
       unfold FreebsdRoute.join_result, Join.store; simpl);
    unfold FreebsdRoute.status_done, FreebsdRoute.emit; simpl;
    rewrite <- ?app_assoc; simpl; rewrite ?app_nil_r;
    rewrite <- ?app_assoc; simpl; done.
Qed.

Section RouteRows.
Import FreebsdRoute.

Lemma run_nothing_pending replies st :
  pending st = ∅ → run replies st = st.
Proof.
  intros Hp. unfold run. induction replies as [|d replies IH]; simpl; [done|].
  unfold deliver at 2. by rewrite Hp, lookup_empty.
Qed.

Lemma split_ws_from_pieces in_ws cur s :
  Forall (λ u, is_space u = false) cur →
  Forall (Forall (λ u, is_space u = false)) (split_ws_from in_ws cur s).
Proof.
  revert in_ws cur. induction s as [|c s IH]; intros in_ws cur Hcur; simpl.
  - constructor; [|done]. by apply Forall_reverse.
  - destruct (is_space c) eqn:Hc.
    + destruct in_ws; [by apply IH|].
      constructor; [by apply Forall_reverse|by apply IH].
    + apply IH. by constructor.
Qed.

Lemma split_char_length sep cur s :
  length (split_char sep cur s)
  = S (length (List.filter (λ c, (c =? sep)%N) s)).
Proof.
  revert cur. induction s as [|c s IH]; intros cur; simpl; [done|].
  destruct (c =? sep)%N; simpl; by rewrite IH.
Qed.
End RouteRows.

(** X3. [validate] of the route driver sends [netstat -r -n]; the first
    reply decides the outcome and later replies change nothing: an error
    is reported with [D.failure()], and [D.success()] is called exactly
    when the reply has an output, also after an error; without an output
    the callback ends in an uncaught [TypeError]. *)
Theorem freebsd_validate_outcome (r : ssh_reply)
    (more : list (nat * ssh_reply)) :
  FreebsdRoute.trace
    (FreebsdRoute.run ((0, r) :: more)
       (FreebsdRoute.validate FreebsdRoute.initial))
  = [SendSSH (Some (js "netstat -r -n")); Callback 0]
    ++ reported_error (js "netstat -r -n") r
    ++ (if has_output r then [Success None] else [Uncaught TypeError]).
Proof.
  change (FreebsdRoute.run ((0, r) :: more) ?s)
    with (FreebsdRoute.run more (FreebsdRoute.deliver s (0, r))).
  rewrite run_nothing_pending.
  - unfold FreebsdRoute.deliver; simpl.
    destruct r as [[o|] [e|]]; reflexivity.
  - unfold FreebsdRoute.deliver; simpl.
    destruct r as [[o|] [e|]]; reflexivity.
Qed.

(** X4. A record of the routing table has four cells, the first a
    string, each of them [undefined] or a string without white space, and
    its id is the version, [>] and the first cell. *)
Theorem route_record_shape (version line : jsstring) :
  let r := FreebsdRoute.route_record version line in
  length r.2 = 4
  ∧ Forall route_cell r.2
  ∧ ∃ f0, r.2 !! 0 = Some (VStr f0) ∧ r.1 = version ++ js ">" ++ f0.
Proof.
  rewrite route_record_row. unfold row_of_line; simpl.
  pose proof (split_ws_from_pieces false [] line (Forall_nil_2 _)) as Hp.
  fold (split_ws line) in Hp.
  assert (∀ i, route_cell (of_field (split_ws line !! i))) as Hcell.
  { intros i. destruct (split_ws line !! i) as [s|] eqn:Hi; simpl.
    - right. exists s. split; [done|].
      by apply (Forall_lookup_1 _ _ _ _ Hp Hi).
    - by left. }
  split; [done|]. split.
  - apply Forall_cons. split.
    + unfold split_ws in *.
      destruct (split_ws_from_cons false [] line) as (f & fs & Hf).
      right. exists (default [] (split_ws_from false [] line !! 0)).
      split; [done|]. rewrite Hf; simpl. rewrite Hf in Hp.
      by apply Forall_cons in Hp as [? _].
    + repeat (apply Forall_cons; split; [apply Hcell|]). apply Forall_nil_2.
  - by eexists.
Qed.

(** X5. The callback of [route] inserts one record more than the output
    has newline characters: the piece after the last newline counts, and
    an empty output still gives a record, with the bare version as id. *)
Theorem route_inserts_per_newline (version : jsstring) (index : nat)
    (o : jsstring) (st : FreebsdRoute.state) :
  let inserted (o : jsstring) :=
    FreebsdRoute.table
      (FreebsdRoute.on_lines (FreebsdRoute.RouteLines version index)
         (split_lines o) st) in
  length (inserted o) = length (FreebsdRoute.table st) + S (newlines o)
  ∧ inserted []
    = FreebsdRoute.table st
      ++ [(version ++ js ">", [VStr []; VUndef; VUndef; VUndef])].
Proof.
  intros inserted.
  assert (∀ o, inserted o
               = FreebsdRoute.table st
                 ++ (row_of_line version <$> split_lines o)) as Hins.
  { intros o'. unfold inserted; simpl. rewrite insert_lines.
    unfold FreebsdRoute.join_result; simpl. by case_bool_decide. }
  rewrite !Hins. split; [|done].
  rewrite length_app, length_fmap. unfold split_lines.
  by rewrite split_char_length.
Qed.

(** ** The latency driver on any reply *)

Lemma outcomes_app tr1 tr2 : outcomes (tr1 ++ tr2) = outcomes tr1 ++ outcomes tr2.
Proof. unfold outcomes. apply List.filter_app. Qed.

Section WinAny.
Variable sha256_hex : jsstring → jsstring.
Import WinLatency.

Lemma checkSshError_outcomes e st :
  outcomes (trace (checkSshError e st)) = outcomes (trace st) ++ ssh_failures e
  ∧ successes (trace (checkSshError e st)) = successes (trace st)
  ∧ table (checkSshError e st) = table st
  ∧ count (checkSshError e st) = count st
  ∧ pending (checkSshError e st) = pending st.
Proof.
  unfold checkSshError, ssh_failures.
  destruct (truthy_string (message e)), (decide (code e = Some 5%Z)); simpl;
    rewrite ?outcomes_app, ?successes_app; simpl; rewrite ?app_nil_r;
    rewrite <- ?app_assoc; done.
Qed.

Lemma win_run_nothing_pending replies st :
  pending st = ∅ → run sha256_hex replies st = st.
Proof.
  intros Hp. unfold run. induction replies as [|d replies IH]; simpl; [done|].
  unfold deliver at 2. by rewrite Hp, lookup_empty.
Qed.
End WinAny.

(** X6. [validate] of the latency driver sends [dir]; the first reply
    decides: without error [D.success()] is called, with an error it is
    not, and the failures end with [GENERIC_ERROR], after
    [AUTHENTICATION_ERROR] when the code is 5. *)
Theorem win_validate_outcome (sha256_hex : jsstring → jsstring)
    (r : ssh_reply) (more : list (nat * ssh_reply)) :
  let st := WinLatency.run sha256_hex ((0, r) :: more)
              (WinLatency.validate WinLatency.initial) in
  sends (WinLatency.trace st) = [Some (js "dir")]
  ∧ outcomes (WinLatency.trace st)
    = match err r with
      | None => [Success None]
      | Some e => ssh_failures e
      end.
Proof.
  intros st. unfold st.
  change (WinLatency.run sha256_hex ((0, r) :: more) ?s)
    with (WinLatency.run sha256_hex more (WinLatency.deliver sha256_hex s (0, r))).
  assert (∃ st0, WinLatency.deliver sha256_hex
                   (WinLatency.validate WinLatency.initial) (0, r)
                 = WinLatency.loginCallback r st0
                 ∧ WinLatency.pending st0 = ∅
                 ∧ outcomes (WinLatency.trace st0) = [])
    as (st0 & Hd & Hp & Ho) by (eexists; split; [reflexivity|split; reflexivity]).
  assert (WinLatency.pending (WinLatency.loginCallback r st0) = ∅
          ∧ outcomes (WinLatency.trace (WinLatency.loginCallback r st0))
            = match err r with
              | None => [Success None]
              | Some e => ssh_failures e
              end) as [Hp' Ho'].
  { unfold WinLatency.loginCallback. destruct (err r) as [e|].
    - destruct (checkSshError_outcomes e st0) as (-> & _ & _ & _ & ->).
      by rewrite Ho.
    - simpl. by rewrite outcomes_app, Ho. }
  rewrite win_run_nothing_pending by (by rewrite Hd).
  rewrite win_deliver_sends. split; [done|]. by rewrite Hd.
Qed.

Section WinSettled.
Variable sha256_hex : jsstring → jsstring.
Import WinLatency.
#[local] Abbreviation deliver' := (deliver sha256_hex).
#[local] Abbreviation run' := (run sha256_hex).

Lemma count_reply_effect st :
  count (count_reply st) = S (count st)
  ∧ table (count_reply st) = table st
  ∧ pending (count_reply st) = pending st
  ∧ outcomes (trace (count_reply st))
    = outcomes (trace st)
      ++ (if decide (S (count st) = 5) then [Success (Some (table st))] else []).
Proof.
  unfold count_reply; simpl.
  destruct (decide (S (count st) = 5)); simpl; rewrite ?outcomes_app; simpl;
    by rewrite ?app_nil_r.
Qed.

Lemma deliver_settled st k ip r :
  pending st !! k = Some (ResultCallback ip) → settled r →
  count (deliver' st (k, r)) = S (count st)
  ∧ table (deliver' st (k, r))
    = table st ++ match err r, out r with
                  | None, Some o => [latency_record sha256_hex ip o]
                  | _, _ => []
                  end
  ∧ pending (deliver' st (k, r)) = delete k (pending st)
  ∧ outcomes (trace (deliver' st (k, r)))
    = outcomes (trace st) ++ latency_failures (k, r)
      ++ (if decide (S (count st) = 5)
          then [Success (Some (table (deliver' st (k, r))))] else []).
Proof.
  intros Hk [[e He]|Hgood].
  - unfold deliver, resultCallback, latency_failures; simpl. rewrite Hk, He.
    set (st1 := State _ _ _ _ _ _).
    destruct (count_reply_effect (checkSshError e st1)) as (-> & -> & -> & ->).
    destruct (checkSshError_outcomes e st1) as (-> & _ & -> & -> & ->).
    unfold st1; simpl. rewrite outcomes_app; simpl.
    by rewrite !app_nil_r, <- app_assoc.
  - destruct (deliver_good sha256_hex st k ip r Hk Hgood) as (o & Ho & ->).
    destruct Hgood as [He _]. unfold latency_failures; simpl. rewrite He, Ho.
    set (st1 := insertRecord _ _).
    destruct (count_reply_effect st1) as (-> & -> & -> & ->).
    unfold st1; simpl. rewrite !outcomes_app; simpl. by rewrite !app_nil_r.
Qed.

Lemma win_settled_run pre :
  NoDup pre.*1 → (∀ k, k ∈ pre.*1 → k < 5) → Forall (λ d, settled d.2) pre →
  win_settled_inv sha256_hex pre (run' pre (get_status initial)).
Proof.
  unfold run.
  induction pre as [|[k r] pre IH] using rev_ind; intros Hnd Hlt Hgood.
  - repeat split; try done. intros k. rewrite get_status_pending.
    rewrite decide_False; [done|]. apply not_elem_of_nil.
  - rewrite fmap_app in Hnd, Hlt. simpl in Hnd, Hlt.
    apply NoDup_app in Hnd as (Hnd & Hfresh & _).
    apply Forall_app in Hgood as [Hgood Hr].
    rewrite Forall_singleton in Hr. simpl in Hr.
    assert (k ∉ pre.*1) as Hk.
    { intros Hin. apply (Hfresh k Hin). by apply list_elem_of_singleton. }
    assert (k < 5) as Hk5 by (apply Hlt, elem_of_app; right; by left).
    assert (length (pre ++ [(k, r)]) ≤ 5) as Hlen.
    { apply indices_bound; rewrite fmap_app; simpl; [|done].
      apply NoDup_app. split; [done|]. split; [done|]. apply NoDup_singleton. }
    rewrite length_app in Hlen; simpl in Hlen.
    destruct IH as (Hcount & Htable & Hpending & Hout); [done| |done|].
    { intros j Hj. apply Hlt, elem_of_app. by left. }
    rewrite foldl_app; simpl.
    set (st := foldl deliver' (get_status initial) pre) in *.
    destruct (lookup_lt_is_Some_2 ipAddresses k) as [ip Hip]; [simpl; lia|].
    assert (pending st !! k = Some (ResultCallback ip)) as Hpk.
    { rewrite Hpending, decide_False by done. by rewrite Hip. }
    destruct (deliver_settled st k ip r Hpk Hr) as (Hc & Ht & Hp & Ho).
    rewrite decide_False in Hout by lia. rewrite app_nil_r in Hout.
    assert (latency_rows sha256_hex (k, r)
            = match err r, out r with
              | None, Some o => [latency_record sha256_hex ip o]
              | _, _ => []
              end) as Hrow.
    { unfold latency_rows; simpl. rewrite Hip. by destruct (err r), (out r). }
    rewrite <- Hrow in Ht.
    assert (table (deliver' st (k, r))
            = concat (latency_rows sha256_hex <$> pre ++ [(k, r)])) as Ht'.
    { rewrite Ht, Htable, fmap_app, concat_app; simpl. by rewrite app_nil_r. }
    unfold win_settled_inv. rewrite length_app; simpl.
    split; [lia|]. split; [done|]. split.
    + intros j. rewrite Hp, fmap_app; simpl.
      destruct (decide (j = k)) as [->|Hjk].
      * rewrite lookup_delete_eq, decide_True; [done|].
        apply elem_of_app. right. by left.
      * rewrite lookup_delete_ne, Hpending by done.
        destruct (decide (j ∈ pre.*1)) as [Hj|Hj].
        -- rewrite decide_True; [done|]. apply elem_of_app. by left.
        -- rewrite decide_False; [done|].
           intros [?|?%list_elem_of_singleton]%elem_of_app; done.
    + rewrite Ho, Hout, Hcount, fmap_app, concat_app; simpl.
      rewrite app_nil_r, <- app_assoc. do 2 f_equal.
      destruct (decide (S (length pre) = 5)), (decide (length pre + 1 = 5));
        done || lia.
Qed.
End WinSettled.

(** X7. When every one of the five commands is answered once and each
    reply has an error or holds both matches, the table holds the rows
    of the replies without error, in the order of their arrival, each
    reply with an error is reported by [D.failure], and [D.success] is
    called once, on the table, after the fifth reply. *)
Theorem latency_join_with_errors (sha256_hex : jsstring → jsstring)
    (replies : list (nat * ssh_reply)) :
  replies.*1 ≡ₚ seq 0 5 →
  Forall (λ d, settled d.2) replies →
  let st := WinLatency.run sha256_hex replies
              (WinLatency.get_status WinLatency.initial) in
  WinLatency.table st = concat (latency_rows sha256_hex <$> replies)
  ∧ outcomes (WinLatency.trace st)
    = concat (latency_failures <$> replies)
      ++ [Success (Some (WinLatency.table st))].
Proof.
  intros Hperm Hall st.
  destruct (win_settled_run sha256_hex replies) as (_ & Ht & _ & Ho); [| |done|].
  - rewrite Hperm. apply NoDup_seq.
  - intros k. rewrite Hperm, elem_of_seq. lia.
  - assert (length replies = 5) as Hlen.
    { rewrite <- (length_fmap fst), Hperm. done. }
    rewrite decide_True in Ho by done. done.
Qed.

Lemma latency_join_with_errors_witness :
  let replies := [(1, answered); (0, ssh_failed); (4, answered);
                  (2, ssh_failed_with_output); (3, answered)] in
  let st := WinLatency.run (λ s, s) replies
              (WinLatency.get_status WinLatency.initial) in
  WinLatency.table st = concat (latency_rows (λ s, s) <$> replies)
  ∧ outcomes (WinLatency.trace st)
    = concat (latency_failures <$> replies)
      ++ [Success (Some (WinLatency.table st))].
Proof.
  apply (latency_join_with_errors (λ s, s)).
  - simpl.
    change [0; 1; 2; 3; 4] with ([0] ++ 1 :: [2; 3; 4]).
    apply Permutation_cons_app, Permutation_skip.
    change [2; 3; 4] with ([2; 3] ++ 4 :: []).
    apply Permutation_cons_app, Permutation_refl.
  - repeat (apply Forall_cons; split); simpl;
      first [apply Forall_nil_2 | left; eexists; reflexivity
            | right; apply answered_good].
Defined.

Lemma size_delete_Some {A} (m : gmap nat A) (k : nat) (x : A) :
  m !! k = Some x → S (size (delete k m)) = size m.
Proof.
  intros Hk. rewrite map_size_delete, Hk; simpl.
  destruct (size m) eqn:Hsize; [|done].
  apply map_size_empty_inv in Hsize. by rewrite Hsize in Hk.
Qed.

Section WinBlocked.
Variable sha256_hex : jsstring → jsstring.
Import WinLatency.
#[local] Abbreviation deliver' := (deliver sha256_hex).
#[local] Abbreviation run' := (run sha256_hex).

Lemma count_reply_successes st :
  successes (trace (count_reply st))
  = successes (trace st)
    ++ (if decide (S (count st) = 5) then [Some (table st)] else []).
Proof.
  unfold count_reply; simpl.
  destruct (decide (S (count st) = 5)); simpl; rewrite ?successes_app; simpl;
    by rewrite ?app_nil_r.
Qed.

(** The callback of a command either raises, and nothing is counted, or
    counts one more answer and calls [D.success] only at the fifth. *)
Lemma deliver_result_cases st d ip :
  pending st !! d.1 = Some (ResultCallback ip) →
  pending (deliver' st d) = delete d.1 (pending st)
  ∧ ((count (deliver' st d) = count st
      ∧ successes (trace (deliver' st d)) = successes (trace st))
     ∨ (¬ unmatched d.2
        ∧ count (deliver' st d) = S (count st)
        ∧ (count st < 4 →
           successes (trace (deliver' st d)) = successes (trace st)))).
Proof.
  intros Hk. unfold deliver, resultCallback. rewrite Hk.
  set (st1 := State _ _ _ _ _ _).
  assert (pending st1 = delete d.1 (pending st)
          ∧ count st1 = count st
          ∧ successes (trace st1) = successes (trace st)) as (Hp & Hc & Hs).
  { unfold st1; simpl. rewrite successes_app; simpl. by rewrite app_nil_r. }
  clearbody st1. unfold unmatched.
  destruct (err d.2) as [e|] eqn:He.
  - destruct (count_reply_effect (checkSshError e st1)) as (Hc' & _ & Hp' & _).
    destruct (checkSshError_outcomes e st1) as (_ & Hs1 & _ & Hc1 & Hp1).
    split; [congruence|]. right. split; [by intros [? _]|].
    split; [congruence|]. intros Hlt.
    rewrite count_reply_successes, Hc1, Hc, decide_False by lia.
    rewrite app_nil_r. congruence.
  - destruct (exec latency_at (subject (out d.2))) as [lat|] eqn:Hlat.
    2:{ simpl. rewrite successes_app; simpl. rewrite app_nil_r. by auto. }
    destruct (exec loss_at (subject (out d.2))) as [loss|] eqn:Hloss.
    2:{ simpl. rewrite successes_app; simpl. rewrite app_nil_r. by auto. }
    set (st2 := insertRecord _ st1).
    destruct (count_reply_effect st2) as (Hc' & _ & Hp' & _).
    split; [by rewrite Hp'|]. right.
    split; [by intros [_ [?|?]]|].
    split; [rewrite Hc'; unfold st2; simpl; congruence|]. intros Hlt.
    rewrite count_reply_successes. unfold st2; simpl.
    rewrite decide_False by lia.
    rewrite successes_app; simpl. by rewrite !app_nil_r.
Qed.

Lemma win_blocked_initial k :
  k < 5 → win_blocked_inv (Some k) (get_status initial).
Proof.
  intros Hk. split; [done|]. split; [|split; [|done]].
  - intros j cb. rewrite get_status_pending.
    destruct (ipAddresses !! j); [|done]. intros [= <-]. eauto.
  - rewrite get_status_pending.
    destruct (lookup_lt_is_Some_2 ipAddresses k) as [ip ->]; [simpl; lia|]. eauto.
Qed.

Lemma result_pending_delete st st' k :
  result_pending st → pending st' = delete k (pending st) → result_pending st'.
Proof.
  intros Hres Hp j cb. rewrite Hp. intros [_ Hj]%lookup_delete_Some. eauto.
Qed.

Lemma win_blocked_waiting k st d :
  d.1 ≠ k → win_blocked_inv (Some k) st →
  win_blocked_inv (Some k) (deliver' st d).
Proof.
  intros Hd (Hs & Hres & Hk & Hsize).
  destruct (pending st !! d.1) as [cb|] eqn:Hcb.
  2:{ unfold deliver. rewrite Hcb. done. }
  destruct (Hres _ _ Hcb) as [ip ->].
  destruct (deliver_result_cases st d ip Hcb) as [Hp Hcases].
  pose proof (size_delete_Some (pending st) d.1 (ResultCallback ip) Hcb)
    as Hdel.
  assert (is_Some (pending (deliver' st d) !! k)) as Hk'.
  { rewrite Hp, lookup_delete_ne by done. done. }
  assert (0 < size (pending (deliver' st d))) as Hpos.
  { destruct Hk' as [cb Hk']. rewrite Hp in Hk' |- *.
    destruct (decide (size (delete d.1 (pending st)) = 0)) as [H0|]; [|lia].
    apply map_size_empty_inv in H0. rewrite H0 in Hk'. done. }
  rewrite Hp in Hpos.
  split; [|split; [by eapply result_pending_delete|split; [done|]]].
  - destruct Hcases as [[_ Hs']|(_ & _ & Hs')];
      [by rewrite Hs'|rewrite Hs'; [done|lia]].
  - rewrite Hp. destruct Hcases as [[-> _]|(_ & -> & _)]; lia.
Qed.

Lemma win_blocked_raise k st r :
  unmatched r → win_blocked_inv (Some k) st →
  win_blocked_inv None (deliver' st (k, r)).
Proof.
  intros Hr (Hs & Hres & [cb Hcb] & Hsize).
  destruct (Hres _ _ Hcb) as [ip ->].
  destruct (deliver_result_cases st (k, r) ip Hcb) as [Hp Hcases].
  pose proof (size_delete_Some (pending st) k (ResultCallback ip) Hcb)
    as Hdel.
  destruct Hcases as [[Hc Hs']|[Hno _]]; [|done].
  split; [congruence|]. split; [by eapply result_pending_delete|].
  rewrite Hc, Hp. simpl in *. lia.
Qed.

Lemma win_blocked_after st d :
  win_blocked_inv None st → win_blocked_inv None (deliver' st d).
Proof.
  intros (Hs & Hres & Hsize).
  destruct (pending st !! d.1) as [cb|] eqn:Hcb.
  2:{ unfold deliver. rewrite Hcb. done. }
  destruct (Hres _ _ Hcb) as [ip ->].
  destruct (deliver_result_cases st d ip Hcb) as [Hp Hcases].
  pose proof (size_delete_Some (pending st) d.1 (ResultCallback ip) Hcb)
    as Hdel.
  split; [|split; [by eapply result_pending_delete|]].
  - destruct Hcases as [[_ Hs']|(_ & _ & Hs')];
      [by rewrite Hs'|rewrite Hs'; [done|lia]].
  - rewrite Hp. destruct Hcases as [[-> _]|(_ & -> & _)]; lia.
Qed.
End WinBlocked.

(** X8. One reply without error whose output lacks a match is enough to
    keep [get_status] of the latency driver from ever calling
    [D.success]: its callback raises before the answer is counted,
    whatever the replies before and after it are. *)
Theorem latency_unmatched_blocks (sha256_hex : jsstring → jsstring)
    (pre post : list (nat * ssh_reply)) (k : nat) (r : ssh_reply) :
  k < 5 → k ∉ pre.*1 → unmatched r →
  successes
    (WinLatency.trace
       (WinLatency.run sha256_hex (pre ++ (k, r) :: post)
          (WinLatency.get_status WinLatency.initial))) = [].
Proof.
  intros Hk Hpre Hr. unfold WinLatency.run. rewrite foldl_app; simpl.
  assert (win_blocked_inv (Some k)
            (foldl (WinLatency.deliver sha256_hex)
               (WinLatency.get_status WinLatency.initial) pre)) as Hinv.
  { clear Hr. induction pre as [|d pre IH] using rev_ind.
    - by apply win_blocked_initial.
    - rewrite fmap_app, not_elem_of_app in Hpre. destruct Hpre as [Hpre Hd].
      rewrite foldl_app; simpl. apply win_blocked_waiting; [|by apply IH].
      intros <-. apply Hd. by left. }
  apply (win_blocked_raise sha256_hex k _ r Hr) in Hinv.
  revert Hinv. generalize (WinLatency.deliver sha256_hex
    (foldl (WinLatency.deliver sha256_hex)
       (WinLatency.get_status WinLatency.initial) pre) (k, r)).
  induction post as [|d post IH]; intros st Hinv; simpl.
  - by destruct Hinv.
  - by apply IH, win_blocked_after.
Qed.

Lemma latency_unmatched_blocks_witness :
  successes
    (WinLatency.trace
       (WinLatency.run (λ s, s)
          ([(0, answered); (3, ssh_failed)] ++ (2, timed_out)
             :: [(1, answered); (4, answered); (2, answered)])
          (WinLatency.get_status WinLatency.initial))) = [].
Proof.
  apply (latency_unmatched_blocks (λ s, s)).
  - lia.
  - simpl. intros [? | [? | ?%elem_of_nil]%elem_of_cons]%elem_of_cons; done.
  - split; [done|]. left. by vm_compute.
Defined.

(** ** The drives driver at the list of controllers *)

Lemma successes_silent es : Forall silent es → successes es = [].
Proof.
  induction 1 as [|e es He _ IH]; [done|]. by destruct e.
Qed.

Section DellStorage.
Variable JSON_parse : jsstring → option value.
Variable lower_other : jsstring → jsstring.
Variable credentials : jsstring.
Import DellDrives.
#[local] Abbreviation processResponse' := (processResponse JSON_parse).
#[local] Abbreviation deliver' := (deliver JSON_parse lower_other).
#[local] Abbreviation run' := (run JSON_parse lower_other).

(** [processResponse] changes the token and the trace only. *)
Lemma processResponse_frame r st :
  ∃ es tok, Forall silent es
    ∧ (processResponse' r st).1
      = State tok (table st) (controllers st) (joined st) (pending st)
              (requests st) (trace st ++ es).
Proof.
  unfold DellDrives.processResponse.
  set (st1 := match herror r with Some e => _ | None => st end).
  assert (∃ es, Forall silent es
            ∧ st1 = State (sessionToken st) (table st) (controllers st)
                      (joined st) (pending st) (requests st) (trace st ++ es))
    as (es1 & Hes1 & ->).
  { unfold st1. destruct (herror r).
    - eexists. split; [|reflexivity]. repeat constructor.
    - exists []. split; [done|]. rewrite app_nil_r. by destruct st. }
  destruct (hresponse r) as [resp|]; [|by eauto].
  destruct (rheaders resp) as [h|]; [|by eauto].
  set (st2 := if truthy_header (x_auth_token h) then _ else _).
  assert (∃ es tok, Forall silent es
            ∧ st2 = State tok (table st) (controllers st)
                      (joined st) (pending st) (requests st) (trace st ++ es))
    as (es2 & tok & Hes2 & ->).
  { unfold st2. destruct (truthy_header (x_auth_token h)); [by eauto|].
    destruct (header_includes _ _).
    { exists (es1 ++ [ConsoleError
                 (LStr (js "Session token not found in response headers"));
               Failure (Some AUTHENTICATION_ERROR)]).
      eexists. split; [|unfold emit; simpl; by rewrite app_assoc].
      apply Forall_app. split; [done|]. by repeat constructor. }
    destruct (header_includes _ _).
    { exists (es1 ++ [ConsoleError (LStr (js "Invalid URL"));
                      Failure (Some RESOURCE_UNAVAILABLE)]).
      eexists. split; [|unfold emit; simpl; by rewrite app_assoc].
      apply Forall_app. split; [done|]. by repeat constructor. }
    destruct (negb _); [|by eauto].
    exists (es1 ++ [Failure (Some GENERIC_ERROR)]).
    eexists. split; [|unfold emit; simpl; by rewrite app_assoc].
    apply Forall_app. split; [done|]. by repeat constructor. }
  destruct (JSON_parse (hbody r)); simpl; eauto.
Qed.

Lemma processResponse_resolves r v st :
  resolves JSON_parse r v → (processResponse' r st).2 = inr v.
Proof.
  intros (resp & h & Hresp & Hh & Hv). unfold DellDrives.processResponse.
  by rewrite Hresp, Hh, Hv.
Qed.

Lemma dell_run_nothing_pending replies st :
  pending st = ∅ → run' replies st = st.
Proof.
  intros Hp. unfold run. induction replies as [|d replies IH]; simpl; [done|].
  unfold deliver at 2. by rewrite Hp, lookup_empty.
Qed.

(** The run up to the [then] of [getControllers]. *)
Lemma dell_at_storage r0 r1 v0 v1 :
  resolves JSON_parse r0 v0 → resolves JSON_parse r1 v1 →
  ∃ es tok,
    successes es = []
    ∧ deliver' (deliver' (get_status credentials initial) (0, r0)) (1, r1)
      = on_storage lower_other v1 (State tok [] [] false ∅ 2 es).
Proof.
  intros H0 H1. unfold get_status, login, request, deliver at 2; simpl.
  rewrite lookup_insert_eq.
  set (st0 := State _ _ _ _ _ _ _).
  destruct (processResponse_frame r0 st0) as (es0 & tok0 & Hes0 & Hst0).
  pose proof (processResponse_resolves r0 v0 st0 H0) as Hv0.
  destruct (processResponse' r0 st0) as [st0' x0]. simpl in Hst0, Hv0.
  subst st0' x0. unfold st0; simpl.
  rewrite delete_insert_eq, delete_empty.
  unfold getControllers, httpGet, request, deliver; simpl.
  rewrite lookup_insert_eq.
  set (st1 := State _ _ _ _ _ _ _).
  destruct (processResponse_frame r1 st1) as (es1 & tok1 & Hes1 & Hst1).
  pose proof (processResponse_resolves r1 v1 st1 H1) as Hv1.
  destruct (processResponse' r1 st1) as [st1' x1]. simpl in Hst1, Hv1.
  subst st1' x1. unfold st1; simpl.
  rewrite delete_insert_eq, delete_empty.
  eexists _, tok1. split; [|reflexivity].
  match goal with
  | |- successes (?a :: ?b :: ?l) = [] => change (successes ([a; b] ++ l) = [])
  end.
  rewrite !successes_app, (successes_silent es0), (successes_silent es1) by done.
  done.
Qed.
End DellStorage.

(** X9. When the list of controllers, read from a reply that resolves,
    has no array [Members], [get_status] of the drives driver ends in
    the [catch] of its chain: [D.failure(GENERIC_ERROR)] is the last
    call, [D.success] is never called, no further request is sent and
    nothing that arrives later has an effect. *)
Theorem dell_without_members (JSON_parse : jsstring → option value)
    (lower_other : jsstring → jsstring) (credentials : jsstring)
    (r0 r1 : http_reply) (v0 v1 : value) (more : list (nat * http_reply)) :
  resolves JSON_parse r0 v0 → resolves JSON_parse r1 v1 →
  (∀ members, get v1 (js "Members") ≠ Some (VArr members)) →
  let st := DellDrives.run JSON_parse lower_other ((0, r0) :: (1, r1) :: more)
              (DellDrives.get_status credentials DellDrives.initial) in
  successes (DellDrives.trace st) = []
  ∧ last (DellDrives.trace st) = Some (Failure (Some GENERIC_ERROR))
  ∧ DellDrives.table st = []
  ∧ DellDrives.requests st = 2.
Proof.
  intros H0 H1 Hm st. unfold st.
  change (DellDrives.run JSON_parse lower_other ((0, r0) :: (1, r1) :: more) ?s)
    with (DellDrives.run JSON_parse lower_other more
            (DellDrives.deliver JSON_parse lower_other
               (DellDrives.deliver JSON_parse lower_other s (0, r0)) (1, r1))).
  destruct (dell_at_storage JSON_parse lower_other credentials r0 r1 v0 v1 H0 H1)
    as (es & tok & Hes & ->).
  assert (DellDrives.on_storage lower_other v1
            (DellDrives.State tok [] [] false ∅ 2 es)
          = DellDrives.State tok [] [] false ∅ 2
              (es ++ [ConsoleError (LExn TypeError);
                      Failure (Some GENERIC_ERROR)])) as ->.
  { unfold DellDrives.on_storage.
    destruct (truthy v1 && truthy (default VUndef (get v1 (js "Members"))))
      eqn:Ht; [|done].
    destruct (get v1 (js "Members")) as [[]|] eqn:Hg; try done.
    by destruct (Hm items). }
  rewrite dell_run_nothing_pending by done. simpl.
  rewrite successes_app, Hes, last_app. done.
Qed.

Lemma dell_without_members_witness :
  let st := DellDrives.run (λ _, Some (VObj [])) (λ s, s)
              [(0, http_failed); (1, http_failed); (2, http_failed)]
              (DellDrives.get_status (js "{}") DellDrives.initial) in
  successes (DellDrives.trace st) = []
  ∧ last (DellDrives.trace st) = Some (Failure (Some GENERIC_ERROR))
  ∧ DellDrives.table st = []
  ∧ DellDrives.requests st = 2.
Proof.
  apply (dell_without_members (λ _, Some (VObj [])) (λ s, s) (js "{}")
           http_failed http_failed (VObj []) (VObj [])).
  - by eexists _, _.
  - by eexists _, _.
  - done.
Defined.

(** X10. When the list of controllers has an empty array [Members],
    [get_status] of the drives driver calls [D.success] on the empty
    table, as its last call, without a further request. *)
Theorem dell_empty_members (JSON_parse : jsstring → option value)
    (lower_other : jsstring → jsstring) (credentials : jsstring)
    (r0 r1 : http_reply) (v0 v1 : value) (more : list (nat * http_reply)) :
  resolves JSON_parse r0 v0 → resolves JSON_parse r1 v1 →
  get v1 (js "Members") = Some (VArr []) →
  let st := DellDrives.run JSON_parse lower_other ((0, r0) :: (1, r1) :: more)
              (DellDrives.get_status credentials DellDrives.initial) in
  successes (DellDrives.trace st) = [Some []]
  ∧ last (DellDrives.trace st) = Some (Success (Some []))
  ∧ DellDrives.requests st = 2.
Proof.
  intros H0 H1 Hm st. unfold st.
  change (DellDrives.run JSON_parse lower_other ((0, r0) :: (1, r1) :: more) ?s)
    with (DellDrives.run JSON_parse lower_other more
            (DellDrives.deliver JSON_parse lower_other
               (DellDrives.deliver JSON_parse lower_other s (0, r0)) (1, r1))).
  destruct (dell_at_storage JSON_parse lower_other credentials r0 r1 v0 v1 H0 H1)
    as (es & tok & Hes & ->).
  assert (DellDrives.on_storage lower_other v1
            (DellDrives.State tok [] [] false ∅ 2 es)
          = DellDrives.State tok [] [] false ∅ 2
              (es ++ [Success (Some [])])) as ->.
  { unfold DellDrives.on_storage. rewrite Hm.
    destruct v1; try done. }
  rewrite dell_run_nothing_pending by done. simpl.
  rewrite successes_app, Hes, last_app. done.
Qed.

Lemma dell_empty_members_witness :
  let st := DellDrives.run (λ _, Some (VObj [(js "Members", VArr [])]))
              (λ s, s) [(0, http_failed); (1, http_failed)]
              (DellDrives.get_status (js "{}") DellDrives.initial) in
  successes (DellDrives.trace st) = [Some []]
  ∧ last (DellDrives.trace st) = Some (Success (Some []))
  ∧ DellDrives.requests st = 2.
Proof.
  apply (dell_empty_members (λ _, Some (VObj [(js "Members", VArr [])]))
           (λ s, s) (js "{}") http_failed http_failed
           (VObj [(js "Members", VArr [])]) (VObj [(js "Members", VArr [])])).
  - by eexists _, _.
  - by eexists _, _.
  - done.
Defined.

(** ** The table [extractData] builds *)

Section DellRows.
Variable lower_other : jsstring → jsstring.
Import DellDrives.
#[local] Abbreviation extract_drive' := (extract_drive lower_other).
#[local] Abbreviation extractData' := (extractData lower_other).

Lemma inserts_refl st : inserts st st [].
Proof. unfold inserts. by rewrite app_nil_r. Qed.

Lemma inserts_trans st1 st2 st3 rows1 rows2 :
  inserts st1 st2 rows1 → inserts st2 st3 rows2 →
  inserts st1 st3 (rows1 ++ rows2).
Proof.
  intros [Ht1 Hs1] [Ht2 Hs2]. split; [|congruence].
  by rewrite Ht2, Ht1, app_assoc.
Qed.

(** [extract_drive] raises on a missing result and before it inserts
    anything. *)
Lemma extract_drive_cases d st :
  (∃ row, drive_row_of lower_other row d
          ∧ (extract_drive' d st).2 = None
          ∧ inserts st (extract_drive' d st).1 [row])
  ∨ ((extract_drive' d st).2 = Some TypeError
     ∧ inserts st (extract_drive' d st).1 []).
Proof.
  unfold DellDrives.extract_drive. destruct d as [[cn drive]|].
  2:{ right. split; [done|apply inserts_refl]. }
  set (st1 := if negb (truthy cn) || negb (truthy drive) then _ else st).
  assert (inserts st st1 []) as H1.
  { unfold st1. destruct (negb (truthy cn) || negb (truthy drive)).
    - split; simpl; [by rewrite app_nil_r|].
      rewrite successes_app; simpl. by rewrite app_nil_r.
    - apply inserts_refl. }
  clearbody st1.
  destruct (get drive (js "Name")) as [name|] eqn:Hname; [|by right].
  match goal with
  | |- context [mbind ?f ?x] => destruct (mbind f x) as [cols|] eqn:Hcols
  end; [|by right].
  left. eexists (_, cols). split; [|split; [done|]].
  - exists cn, drive, name. split; [done|]. split; [done|]. split; [done|].
    simpl. simpl in Hcols.
    repeat match type of Hcols with
           | mbind _ ?x = Some _ => destruct x; simpl in Hcols; [|done]
           end.
    by injection Hcols as <-.
  - destruct H1 as [Ht Hs]. split; simpl.
    + by rewrite Ht, app_nil_r.
    + rewrite successes_app, Hs; simpl. by rewrite app_nil_r.
Qed.

Lemma for_each_drives drives st :
  let res := for_each extract_drive' drives st in
  (∃ rows, Forall2 (drive_row_of lower_other) rows drives
           ∧ res.2 = None ∧ inserts st res.1 rows)
  ∨ (res.2 = Some TypeError ∧ ∃ rows, inserts st res.1 rows).
Proof.
  revert st. induction drives as [|d drives IH]; intros st; simpl.
  - left. exists []. split; [done|]. split; [done|apply inserts_refl].
  - destruct (extract_drive_cases d st) as [(row & Hrow & Hx & Hi)|[Hx Hi]];
      destruct (extract_drive' d st) as [st1 x]; simpl in Hx, Hi; subst x.
    2:{ right. eauto. }
    destruct (IH st1) as [(rows & Hrows & Hx & Hi')|(Hx & rows & Hi')].
    + left. exists (row :: rows). split; [by constructor|]. split; [done|].
      by apply (inserts_trans st st1 _ [row] rows).
    + right. split; [done|]. exists (row :: rows).
      by apply (inserts_trans st st1 _ [row] rows).
Qed.

Lemma for_each_controllers (cs : list controller_result) st :
  let res := for_each (λ driveData st,
                         match driveData with
                         | None => (st, Some TypeError)
                         | Some driveData => for_each extract_drive' driveData st
                         end) cs st in
  (∃ ds rows, cs = Some <$> ds
              ∧ Forall2 (drive_row_of lower_other) rows (concat ds)
              ∧ res.2 = None ∧ inserts st res.1 rows)
  ∨ (res.2 = Some TypeError ∧ ∃ rows, inserts st res.1 rows).
Proof.
  revert st. induction cs as [|c cs IH]; intros st; simpl.
  - left. exists [], []. split; [done|]. split; [done|].
    split; [done|apply inserts_refl].
  - destruct c as [drives|].
    2:{ right. split; [done|]. exists []. apply inserts_refl. }
    destruct (for_each_drives drives st)
      as [(rows1 & Hrows1 & Hx & Hi)|(Hx & rows1 & Hi)];
      destruct (for_each extract_drive' drives st) as [st1 x];
      simpl in Hx, Hi; subst x.
    2:{ right. eauto. }
    destruct (IH st1) as [(ds & rows & -> & Hrows & Hx & Hi')|(Hx & rows & Hi')].
    + left. exists (drives :: ds), (rows1 ++ rows). split; [done|].
      split; [by apply Forall2_app|]. split; [done|].
      by apply (inserts_trans st st1).
    + right. split; [done|]. exists (rows1 ++ rows).
      by apply (inserts_trans st st1).
Qed.

Lemma extractData_cases data st :
  let res := extractData' data st in
  (∃ ds rows, data = Some (Some <$> ds)
              ∧ Forall2 (drive_row_of lower_other) rows (concat ds)
              ∧ res.2 = None
              ∧ table res.1 = table st ++ rows
              ∧ trace res.1 ≠ []
              ∧ last (trace res.1) = Some (Success (Some (table res.1)))
              ∧ successes (trace res.1)
                = successes (trace st) ++ [Some (table res.1)])
  ∨ (res.2 = Some TypeError ∧ ∃ rows, inserts st res.1 rows).
Proof.
  unfold DellDrives.extractData. destruct data as [cs|].
  2:{ right. split; [done|]. exists []. apply inserts_refl. }
  destruct (for_each_controllers cs st)
    as [(ds & rows & -> & Hrows & Hx & Ht & Hs)|(Hx & rows & Hi)].
  - left. exists ds, rows. split; [done|]. split; [done|].
    match goal with
    | |- context [for_each ?f (Some <$> ds) st] =>
        destruct (for_each f (Some <$> ds) st) as [st1 x]
    end; simpl in *; subst x.
    simpl. split; [done|]. split; [done|].
    split; [by destruct (trace st1)|]. split; [by rewrite last_snoc|].
    rewrite successes_app, Hs. done.
  - right.
    match goal with
    | |- context [for_each ?f cs st] => destruct (for_each f cs st) as [st1 x]
    end; simpl in *; subst x.
    split; [done|]. by exists rows.
Qed.

Lemma for_each_raises {A} (f : A → state → state * option exn) xs x st :
  x ∈ xs → (∀ st, (f x st).2 ≠ None) → (for_each f xs st).2 ≠ None.
Proof.
  intros Hx Hf. revert st. induction xs as [|y xs IH]; intros st; simpl.
  - by apply elem_of_nil in Hx.
  - apply elem_of_cons in Hx as [<-|Hx].
    + specialize (Hf st). by destruct (f x st) as [st1 [e|]].
    + destruct (f y st) as [st1 [e|]]; [done|]. by apply IH.
Qed.

Lemma extractData_incomplete data st :
  incomplete data → (extractData' data st).2 ≠ None.
Proof.
  unfold DellDrives.extractData. destruct data as [cs|]; [|done].
  intros Hinc.
  match goal with
  | |- context [for_each ?f cs st] =>
      assert ((for_each f cs st).2 ≠ None) as Hx;
      [|by destruct (for_each f cs st) as [st1 [e|]]]
  end.
  destruct Hinc as [Hc|(drives & Hc & Hd)].
  - by apply (for_each_raises _ cs None).
  - apply (for_each_raises _ cs (Some drives)); [done|]. intros st0.
    by apply (for_each_raises _ drives None).
Qed.
End DellRows.

(** X11. When [extractData] returns, what it was given is complete; it
    has added one record for each drive, in the order of the controllers
    and of their drives, each with four columns and the id made of the
    controller name and the drive name; and its last call is
    [D.success], once, on the table. *)
Theorem extractData_rows (lower_other : jsstring → jsstring)
    (data : option (list DellDrives.controller_result))
    (st : DellDrives.state) :
  let res := DellDrives.extractData lower_other data st in
  res.2 = None →
  ∃ ds rows,
    data = Some (Some <$> ds)
    ∧ Forall2 (drive_row_of lower_other) rows (concat ds)
    ∧ DellDrives.table res.1 = DellDrives.table st ++ rows
    ∧ last (DellDrives.trace res.1)
      = Some (Success (Some (DellDrives.table res.1)))
    ∧ successes (DellDrives.trace res.1)
      = successes (DellDrives.trace st) ++ [Some (DellDrives.table res.1)].
Proof.
  intros res Hres.
  destruct (extractData_cases lower_other data st)
    as [(ds & rows & Hd & Hrows & _ & Ht & _ & Hl & Hs)|[Hx _]].
  - by exists ds, rows.
  - fold res in Hx. congruence.
Qed.

Lemma extractData_rows_witness :
  let data := Some [Some [sample_result; sample_result]; Some [];
                    Some [sample_result]] in
  let res := DellDrives.extractData (λ s, s) data DellDrives.initial in
  ∃ ds rows,
    data = Some (Some <$> ds)
    ∧ Forall2 (drive_row_of (λ s, s)) rows (concat ds)
    ∧ DellDrives.table res.1 = DellDrives.table DellDrives.initial ++ rows
    ∧ last (DellDrives.trace res.1)
      = Some (Success (Some (DellDrives.table res.1)))
    ∧ successes (DellDrives.trace res.1)
      = successes (DellDrives.trace DellDrives.initial)
        ++ [Some (DellDrives.table res.1)].
Proof.
  apply (extractData_rows (λ s, s)). by vm_compute.
Defined.

(** X12. When what [D.q.all] hands over lacks a result, for a controller
    or for one drive, the end of the chain of [get_status] calls
    [D.failure(GENERIC_ERROR)] as its last call and never [D.success],
    and the records of the drives before the gap stay in the table. *)
Theorem extract_or_catch_incomplete (lower_other : jsstring → jsstring)
    (data : option (list DellDrives.controller_result))
    (st : DellDrives.state) :
  incomplete data →
  let st' := DellDrives.extract_or_catch lower_other data st in
  successes (DellDrives.trace st') = successes (DellDrives.trace st)
  ∧ last (DellDrives.trace st') = Some (Failure (Some GENERIC_ERROR))
  ∧ ∃ rows, DellDrives.table st' = DellDrives.table st ++ rows.
Proof.
  intros Hinc st'. unfold st', DellDrives.extract_or_catch.
  pose proof (extractData_incomplete lower_other data st Hinc) as Hx.
  destruct (extractData_cases lower_other data st)
    as [(_ & _ & _ & _ & Hnone & _)|(_ & rows & Ht & Hs)]; [done|].
  destruct (DellDrives.extractData lower_other data st) as [st1 [e|]]; [|done].
  simpl in *. rewrite successes_app, Hs; simpl. rewrite app_nil_r.
  split; [done|]. split; [|by exists rows].
  change (last (DellDrives.trace st1 ++ [ConsoleError (LExn e)]
                  ++ [Failure (Some GENERIC_ERROR)]) = Some (Failure (Some GENERIC_ERROR))).
  by rewrite app_assoc, last_snoc.
Qed.

Lemma extract_or_catch_incomplete_witness :
  let st' := DellDrives.extract_or_catch (λ s, s)
               (Some [Some [sample_result; None; sample_result]])
               DellDrives.initial in
  successes (DellDrives.trace st') = successes (DellDrives.trace DellDrives.initial)
  ∧ last (DellDrives.trace st') = Some (Failure (Some GENERIC_ERROR))
  ∧ ∃ rows, DellDrives.table st'
            = DellDrives.table DellDrives.initial ++ rows.
Proof.
  apply (extract_or_catch_incomplete (λ s, s)).
  right. exists [sample_result; None; sample_result]. split.
  - by left.
  - right. by left.
Defined.

(** ** The bounds of [sanitize] *)

(** X25. Whatever its input, [sanitize] returns a string without white
    space and without an upper-case letter below 256; and the string has
    fifty code units at most unless the input holds U+0130.  The part of
    [toLowerCase] that is not spelled out is taken to bring in no white
    space and no such letter, and to keep the length of a string without
    U+0130. *)
Theorem sanitize_bounds (lower_other : jsstring → jsstring)
    (input : jsstring) :
  keeps_clear lower_other → keeps_length lower_other →
  Forall id_unit (DellDrives.sanitize lower_other input)
  ∧ (304%N ∉ input →
     length (DellDrives.sanitize lower_other input) ≤ 50).
Proof.
  intros Hclear Hlength. unfold DellDrives.sanitize.
  set (s1 := remove_words _ 0 input). split.
  - apply toLowerCase_clear; [done|]. apply replace_ws_clear.
  - intros Hin. rewrite toLowerCase_length; [|done|].
    + etrans; [apply replace_ws_length|]. unfold slice0.
      rewrite length_take. lia.
    + intros Hbad.
      assert (Forall (λ c, c ≠ 304%N) (replace_ws false (slice0 50 s1))) as Hall.
      { apply replace_ws_Forall; [done|]. apply Forall_take.
        apply remove_words_Forall. apply Forall_forall. by intros c Hc ->. }
      rewrite Forall_forall in Hall. by apply (Hall _ Hbad).
Qed.

Lemma sanitize_bounds_witness :
  Forall id_unit (DellDrives.sanitize lower_by_units
                    (js "Controller A  Disk 0.1"))
  ∧ length (DellDrives.sanitize lower_by_units
              (js "Controller A  Disk 0.1")) ≤ 50.
Proof.
  destruct (sanitize_bounds lower_by_units (js "Controller A  Disk 0.1"))
    as [Hunits Hlen].
  - intros s. apply lower_by_units_clear.
  - intros s. apply lower_by_units_length.
  - split; [exact Hunits|]. apply Hlen. intros Hin. vm_compute in Hin.
    repeat (apply elem_of_cons in Hin as [Hin|Hin]; [done|]).
    by apply elem_of_nil in Hin.
Defined.

(** ** What [sanitize] removes *)

Section SanitizeReserved.
Variable lower_other : jsstring → jsstring.
Import DellDrives.

Lemma remove_words_drops words (c0 : N) skip s :
  [c0] ∈ words → Forall (λ c, c ≠ c0) (remove_words words skip s).
Proof.
  intros Hin. revert skip. induction s as [|c s IH]; intros skip; simpl; [done|].
  destruct skip; [|apply IH].
  match goal with
  | |- context [list_find ?P ?l] =>
      destruct (list_find P l) as [[i w]|] eqn:Hfind
  end; [apply IH|].
  constructor; [|apply IH]. intros ->.
  apply list_find_None in Hfind. rewrite Forall_forall in Hfind.
  apply (Hfind [c0] Hin). exists s. by apply (match_lit_app [c0]).
Qed.

Lemma remove_words_unreserved skip s :
  unreserved (remove_words recordIdReservedWords skip s).
Proof.
  pose proof (remove_words_drops recordIdReservedWords 63%N skip s) as H1.
  pose proof (remove_words_drops recordIdReservedWords 42%N skip s) as H2.
  pose proof (remove_words_drops recordIdReservedWords 37%N skip s) as H3.
  unfold unreserved. rewrite Forall_forall in *. intros c Hc.
  unfold reserved_unit.
  repeat (apply orb_false_iff; split); apply N.eqb_neq.
  - apply H1; [|done]. by left.
  - apply H2; [|done]. right. by left.
  - apply H3; [|done]. right. right. by left.
Qed.

Lemma replace_ws_unreserved in_ws s :
  unreserved s → unreserved (replace_ws in_ws s).
Proof.
  unfold unreserved. intros Hs. revert in_ws.
  induction Hs as [|c s Hc Hs IH]; intros in_ws; simpl; [done|].
  destruct (is_space c); [destruct in_ws|]; try done; by constructor.
Qed.

Lemma lower_unreserved_table :
  forallb lower_unreserved (304%N :: map N.of_nat (seq 0 256)) = true.
Proof. by vm_compute. Qed.

Lemma lower_unit_unreserved c :
  spelled_out c = true → reserved_unit c = false → unreserved (lower_unit c).
Proof.
  intros Hc%spelled_out_table Hres.
  apply (proj1 (forallb_forall _ _) lower_unreserved_table) in Hc.
  unfold lower_unreserved in Hc. rewrite Hres in Hc. simpl in Hc.
  apply Forall_forall. intros c' Hc'. apply list_elem_of_In in Hc'.
  apply (proj1 (forallb_forall _ _) Hc), negb_true_iff in Hc'. done.
Qed.

Lemma toLowerCase_unreserved s :
  keeps_unreserved lower_other →
  unreserved s → unreserved (toLowerCase lower_other s).
Proof.
  intros Hother Hs. unfold toLowerCase.
  destruct (forallb spelled_out s) eqn:Hall; [|by apply Hother].
  unfold unreserved. apply Forall_concat.
  apply Forall_forall. intros l Hl. apply list_elem_of_In in Hl.
  apply in_map_iff in Hl as [c [<- Hc]].
  apply lower_unit_unreserved.
  - by apply (proj1 (forallb_forall _ _) Hall).
  - unfold unreserved in Hs. rewrite Forall_forall in Hs. apply Hs.
    by apply list_elem_of_In.
Qed.

Lemma lower_by_units_unreserved s :
  unreserved s → unreserved (lower_by_units s).
Proof.
  unfold lower_by_units, unreserved.
  induction 1 as [|c s Hc _ IH]; simpl; [done|].
  apply Forall_app. split; [|done].
  destruct (spelled_out c) eqn:Hsp; [by apply lower_unit_unreserved|].
  unfold spelled_out in Hsp. apply orb_false_iff in Hsp as [Hlt Hne].
  apply N.ltb_ge in Hlt. unfold lower_unit.
  replace ((65 <=? c) && (c <=? 90))%N with false
    by (symmetry; apply andb_false_iff; right; apply N.leb_gt; lia).
  replace (c <? 192)%N with false by (symmetry; apply N.ltb_ge; lia).
  replace ((c <=? 222) && negb (c =? 215))%N with false
    by (symmetry; apply andb_false_iff; left; apply N.leb_gt; lia).
  replace (c <? 256)%N with false by (symmetry; apply N.ltb_ge; lia).
  rewrite Hne. by constructor.
Qed.
End SanitizeReserved.

(** X13. Whatever its input, [sanitize] returns a string without [?],
    [*] and [%]: the replacement removes each of them, and [slice], the
    replacement of white space and [toLowerCase] bring none back.  The
    part of [toLowerCase] that is not spelled out is taken to bring in
    none. *)
Theorem sanitize_drops_reserved (lower_other : jsstring → jsstring)
    (input : jsstring) :
  keeps_unreserved lower_other →
  unreserved (DellDrives.sanitize lower_other input).
Proof.
  intros Hother. unfold DellDrives.sanitize.
  apply toLowerCase_unreserved; [done|]. apply replace_ws_unreserved.
  unfold slice0, unreserved. apply Forall_take. apply remove_words_unreserved.
Qed.

Lemma sanitize_drops_reserved_witness :
  unreserved (DellDrives.sanitize lower_by_units
                (js "RAID 100%? *table* Disk 0.1")).
Proof.
  apply (sanitize_drops_reserved lower_by_units).
  intros s. apply lower_by_units_unreserved.
Defined.

(** ** The chain of the services driver *)

Section EsxiChain.
Variables username password : jsstring.
Variables returnval_key returnval returnval_reference : jsstring → jsstring.
Variable services : jsstring → list EsxiServices.service.
Import EsxiServices.
#[local] Abbreviation on_reply' :=
  (on_reply returnval_key returnval returnval_reference services).
#[local] Abbreviation deliver' :=
  (deliver returnval_key returnval returnval_reference services).
#[local] Abbreviation run' :=
  (run returnval_key returnval returnval_reference services).

Lemma esxi_run_nothing_pending replies st :
  pending st = ∅ → run' replies st = st.
Proof.
  intros Hp. unfold run. induction replies as [|d replies IH]; simpl; [done|].
  unfold deliver at 2. by rewrite Hp, lookup_empty.
Qed.

Lemma on_reply_failure k r t st :
  soap_failure r = Some t →
  ∃ es, on_reply' k r st = emit (es ++ [Failure (Some t)]) st
        ∧ outcomes es = [].
Proof.
  unfold soap_failure, on_reply. intros Hr.
  destruct (herror r) as [e|].
  { injection Hr as <-. by exists [ConsoleError (LErr e)]. }
  destruct (hresponse r) as [resp|].
  2:{ injection Hr as <-. by exists []. }
  destruct (statusCode resp =? 400)%Z.
  { injection Hr as <-. by exists []. }
  destruct (statusCode resp =? 200)%Z; [done|].
  injection Hr as <-. by exists [].
Qed.

Lemma on_reply_ok k r st :
  soap_failure r = None →
  on_reply' k r st
  = match k with
    | KLogin => createAllHostContainer st
    | KContainer => fetchContainer (returnval (hbody r)) st
    | KFetch => retrieveProprieties (returnval_reference (hbody r)) st
    | KProperties =>
        let st := generateTabelOutput services (hbody r) st in
        emit [Success (Some (table st))] st
    end.
Proof.
  unfold soap_failure, on_reply. intros Hr.
  destruct (herror r) as [e|]; [done|].
  destruct (hresponse r) as [resp|]; [|done].
  destruct (statusCode resp =? 400)%Z; [done|].
  by destruct (statusCode resp =? 200)%Z.
Qed.

Lemma generateTabelOutput_rows body st :
  generateTabelOutput services body st
  = State (table st ++ (esxi_row <$> services body)) (pending st) (requests st)
          (trace st ++ (InsertRecord <$> (esxi_row <$> services body))).
Proof. apply populate_all. Qed.

Lemma esxi_once_deliver st d :
  esxi_once_inv st → esxi_once_inv (deliver' st d).
Proof.
  intros (Hrows & Hcases). unfold deliver.
  destruct (pending st !! d.1) as [k|] eqn:Hk; [|done].
  destruct Hcases as [[Hp _]|(j & c & Hp & Hout & Htable)].
  { by rewrite Hp, lookup_empty in Hk. }
  rewrite Hp in Hk. apply lookup_singleton_Some in Hk as [<- <-].
  rewrite Hp, delete_singleton_eq.
  set (st1 := State _ _ _ _).
  assert (outcomes (trace st1) = [] ∧ pending st1 = ∅ ∧ table st1 = [])
    as (Hout1 & Hp1 & Ht1).
  { unfold st1; simpl. rewrite outcomes_app, Hout. done. }
  clearbody st1.
  destruct (soap_failure d.2) as [t|] eqn:Hr.
  - destruct (on_reply_failure c d.2 t st1 Hr) as (es & -> & Hes).
    split; [exists []; simpl; by rewrite Ht1|]. left. split; [done|].
    unfold emit; simpl. rewrite !outcomes_app, Hout1, Hes. simpl. lia.
  - rewrite (on_reply_ok c d.2 st1 Hr).
    assert (∀ body k, esxi_once_inv (sendSoapRequest body k st1)) as Hsend.
    { intros body k. split; [exists []; simpl; by rewrite Ht1|]. right.
      exists (requests st1), k. unfold sendSoapRequest; simpl.
      rewrite Hp1, outcomes_app, Hout1. done. }
    destruct c; try apply Hsend.
    rewrite generateTabelOutput_rows. simpl. split.
    + exists (services (hbody d.2)). by rewrite Ht1.
    + left. split; [done|]. unfold emit; simpl.
      rewrite !outcomes_app, Hout1. simpl.
      assert (outcomes (InsertRecord <$> (esxi_row <$> services (hbody d.2)))
              = []) as ->; [|done].
      by induction (services (hbody d.2)).
Qed.

Lemma esxi_once_run replies :
  esxi_once_inv (run' replies (get_status username password initial)).
Proof.
  unfold run. induction replies as [|d replies IH] using rev_ind.
  - split; [by exists []|]. right. by eexists _, _.
  - rewrite foldl_app. by apply esxi_once_deliver.
Qed.
End EsxiChain.

Lemma esxi_row_filled s : Forall filled (esxi_row s).2.
Proof.
  assert (∀ x, filled (EsxiServices.or_NA x)) as Hna.
  { intros [|c x]; eexists; split; done. }
  unfold esxi_row; simpl. repeat (apply Forall_cons; split; [apply Hna|]).
  apply Forall_nil_2.
Qed.

(** X14. In a run of [get_status] of the services driver [D.success]
    and [D.failure] are called once between them at most, whatever the
    device answers. *)
Theorem esxi_reports_once (username password : jsstring)
    (returnval_key returnval returnval_reference : jsstring → jsstring)
    (services : jsstring → list EsxiServices.service)
    (replies : list (nat * http_reply)) :
  length (outcomes
            (EsxiServices.trace
               (EsxiServices.run returnval_key returnval returnval_reference services
          replies
                  (EsxiServices.get_status username password
                     EsxiServices.initial)))) ≤ 1.
Proof.
  destruct (esxi_once_run username password returnval_key returnval
              returnval_reference
              services replies) as [_ [[_ Hlen]|(k & c & _ & -> & _)]];
    [done|simpl; lia].
Qed.

(** X15. Every record in the table of the services driver has five
    columns, each a text that is not empty: a text the service lacks is
    [N/A]. *)
Theorem esxi_columns_filled (username password : jsstring)
    (returnval_key returnval returnval_reference : jsstring → jsstring)
    (services : jsstring → list EsxiServices.service)
    (replies : list (nat * http_reply)) :
  Forall (λ row : record, length row.2 = 5 ∧ Forall filled row.2)
    (EsxiServices.table
       (EsxiServices.run returnval_key returnval returnval_reference services
          replies
          (EsxiServices.get_status username password EsxiServices.initial))).
Proof.
  destruct (esxi_once_run username password returnval_key returnval
              returnval_reference
              services replies) as [[ss ->] _].
  apply Forall_fmap, Forall_forall. intros s _. split; [done|].
  apply esxi_row_filled.
Qed.

Section EsxiSteps.
Variables username password : jsstring.
Variables returnval_key returnval returnval_reference : jsstring → jsstring.
Variable services : jsstring → list EsxiServices.service.
Import EsxiServices.
#[local] Abbreviation deliver' :=
  (deliver returnval_key returnval returnval_reference services).
#[local] Abbreviation run' :=
  (run returnval_key returnval returnval_reference services).

Lemma esxi_deliver_ok st k c r :
  pending st = {[k := c]} → soap_failure r = None →
  deliver' st (k, r)
  = let st1 := State (table st) ∅ (requests st) (trace st ++ [Callback k]) in
    match c with
    | KLogin => createAllHostContainer st1
    | KContainer => fetchContainer (returnval (hbody r)) st1
    | KFetch => retrieveProprieties (returnval_reference (hbody r)) st1
    | KProperties =>
        State (table st ++ (esxi_row <$> services (hbody r))) ∅ (requests st)
              (trace st1 ++ (InsertRecord <$> (esxi_row <$> services (hbody r)))
               ++ [Success (Some (table st
                                  ++ (esxi_row <$> services (hbody r))))])
    end.
Proof.
  intros Hp Hr. unfold deliver; simpl.
  rewrite Hp, lookup_singleton_eq, delete_singleton_eq.
  rewrite (on_reply_ok returnval_key returnval returnval_reference services
             c r _ Hr).
  destruct c; try done.
  rewrite generateTabelOutput_rows. unfold emit; simpl.
  by rewrite <- !app_assoc.
Qed.

Lemma esxi_deliver_failure st k c r t :
  pending st = {[k := c]} → soap_failure r = Some t →
  ∃ es, outcomes es = []
        ∧ deliver' st (k, r)
          = State (table st) ∅ (requests st)
                  (trace st ++ [Callback k] ++ es ++ [Failure (Some t)]).
Proof.
  intros Hp Hr. unfold deliver; simpl.
  rewrite Hp, lookup_singleton_eq, delete_singleton_eq.
  destruct (on_reply_failure returnval_key returnval returnval_reference
              services c r t
              (State (table st) ∅ (requests st) (trace st ++ [Callback k])) Hr)
    as (es & -> & Hes).
  exists es. split; [done|]. unfold emit; simpl. by rewrite <- !app_assoc.
Qed.

Lemma esxi_step_ok tb n tr k c r :
  soap_failure r = None →
  let sent (request : state → state) := trace (request initial) in
  deliver' (State tb {[k := c]} n tr) (k, r)
  = match c with
    | KLogin =>
        State tb {[n := KContainer]} (S n)
              (tr ++ [Callback k] ++ sent createAllHostContainer)
    | KContainer =>
        State tb {[n := KFetch]} (S n)
              (tr ++ [Callback k]
               ++ sent (fetchContainer (returnval (hbody r))))
    | KFetch =>
        State tb {[n := KProperties]} (S n)
              (tr ++ [Callback k]
               ++ sent (retrieveProprieties (returnval_reference (hbody r))))
    | KProperties =>
        State (tb ++ (esxi_row <$> services (hbody r))) ∅ n
              (tr ++ [Callback k]
               ++ (InsertRecord <$> (esxi_row <$> services (hbody r)))
               ++ [Success (Some (tb ++ (esxi_row <$> services (hbody r))))])
    end.
Proof.
  intros Hr sent. rewrite (esxi_deliver_ok _ k c r) by done.
  destruct c; unfold sent, createAllHostContainer, fetchContainer,
    retrieveProprieties, sendSoapRequest;
    cbn [table pending requests trace initial];
    rewrite <- ?app_assoc; reflexivity.
Qed.

(** The promise the chain waits for after the good replies [oks]. *)
Lemma esxi_after_oks (oks : list http_reply) :
  Forall (λ r, soap_failure r = None) oks → length oks ≤ 3 →
  let st := run' (imap (λ i r, (i, r)) oks)
              (get_status username password initial) in
  pending st = {[length oks := kont_at (length oks)]}
  ∧ requests st = S (length oks) ∧ table st = []
  ∧ outcomes (trace st) = [].
Proof.
  unfold run. induction oks as [|r oks IH] using rev_ind; intros Hoks Hlen.
  - done.
  - apply Forall_app in Hoks as [Hoks Hr]. rewrite Forall_singleton in Hr.
    rewrite length_app in Hlen |- *. simpl in Hlen |- *.
    destruct IH as (Hp & Hreq & Ht & Hout); [done|lia|].
    rewrite imap_app, foldl_app. simpl. rewrite Nat.add_0_r.
    set (st0 := foldl _ _ (imap _ oks)) in *. clearbody st0.
    rewrite (esxi_deliver_ok st0 (length oks) _ r Hp Hr).
    replace (length oks + 1) with (S (length oks)) by lia.
    destruct (length oks) as [|[|[|n]]]; [| | |lia]; simpl;
      by rewrite Hreq, !outcomes_app, Hout.
Qed.
End EsxiSteps.

(** X16. When the device answers the four requests of [get_status] of
    the services driver with status 200, each request follows the reply
    to the one before, the container id read from the second reply goes
    into the third request and the host reference read from the third
    reply into the fourth, and the services of the fourth reply are
    inserted in their order before [D.success] is called on the table. *)
Theorem esxi_chain (username password : jsstring)
    (returnval_key returnval returnval_reference : jsstring → jsstring)
    (services : jsstring → list EsxiServices.service)
    (r0 r1 r2 r3 : http_reply) (more : list (nat * http_reply)) :
  soap_failure r0 = None → soap_failure r1 = None →
  soap_failure r2 = None → soap_failure r3 = None →
  let st := EsxiServices.run returnval_key returnval returnval_reference
              services ((0, r0) :: (1, r1) :: (2, r2) :: (3, r3) :: more)
              (EsxiServices.get_status username password EsxiServices.initial) in
  let rows := esxi_row <$> services (hbody r3) in
  let sent (request : EsxiServices.state → EsxiServices.state) :=
    EsxiServices.trace (request EsxiServices.initial) in
  EsxiServices.table st = rows
  ∧ EsxiServices.trace st
    = sent (EsxiServices.login username password) ++ [Callback 0]
      ++ sent EsxiServices.createAllHostContainer ++ [Callback 1]
      ++ sent (EsxiServices.fetchContainer (returnval (hbody r1)))
      ++ [Callback 2]
      ++ sent (EsxiServices.retrieveProprieties
                 (returnval_reference (hbody r2)))
      ++ [Callback 3]
      ++ (InsertRecord <$> rows) ++ [Success (Some rows)].
Proof.
  intros H0 H1 H2 H3 st rows sent. unfold st.
  change (EsxiServices.run returnval_key returnval returnval_reference services
            ((0, r0) :: (1, r1) :: (2, r2) :: (3, r3) :: more) ?s)
    with (EsxiServices.run returnval_key returnval returnval_reference services
            more
            (foldl (EsxiServices.deliver returnval_key returnval
                      returnval_reference services) s
               [(0, r0); (1, r1); (2, r2); (3, r3)])).
  change (EsxiServices.get_status username password EsxiServices.initial)
    with (EsxiServices.State [] {[0 := EsxiServices.KLogin]} 1
            (sent (EsxiServices.login username password))).
  cbn [foldl].
  rewrite !esxi_step_ok by done.
  rewrite esxi_run_nothing_pending by done.
  cbn [EsxiServices.table EsxiServices.trace]. split; [done|].
  rewrite <- ?app_assoc. reflexivity.
Qed.

Lemma esxi_chain_witness :
  let services := λ body : jsstring,
    [EsxiServices.Service (js "ntpd") (js "NTP Daemon") (js "false")
       (js "false") (js "true") (js "on");
     EsxiServices.Service body [] [] [] [] []] in
  let st := EsxiServices.run (λ s, s) (λ s, s) (λ s, s) services
              ((0, soap_ok (js "key")) :: (1, soap_ok (js "session[1]"))
               :: (2, soap_ok (js "ha-host")) :: (3, soap_ok (js "sshd"))
               :: [(4, soap_ok [])])
              (EsxiServices.get_status (js "root") (js "secret")
                 EsxiServices.initial) in
  let rows := esxi_row <$> services (hbody (soap_ok (js "sshd"))) in
  let sent (request : EsxiServices.state → EsxiServices.state) :=
    EsxiServices.trace (request EsxiServices.initial) in
  EsxiServices.table st = rows
  ∧ EsxiServices.trace st
    = sent (EsxiServices.login (js "root") (js "secret")) ++ [Callback 0]
      ++ sent EsxiServices.createAllHostContainer ++ [Callback 1]
      ++ sent (EsxiServices.fetchContainer (hbody (soap_ok (js "session[1]"))))
      ++ [Callback 2]
      ++ sent (EsxiServices.retrieveProprieties
                 (hbody (soap_ok (js "ha-host"))))
      ++ [Callback 3]
      ++ (InsertRecord <$> rows) ++ [Success (Some rows)].
Proof.
  intros services.
  apply (esxi_chain (js "root") (js "secret") (λ s, s) (λ s, s) (λ s, s)
           services); reflexivity.
Defined.

(** X17. When the first reply of a run of [get_status] of the services
    driver that is not a reply with status 200 comes before the chain
    has ended, [D.failure] is called once with the type of that reply,
    [D.success] is never called, the table stays empty and no further
    request is sent, whatever arrives later. *)
Theorem esxi_failure_ends (username password : jsstring)
    (returnval_key returnval returnval_reference : jsstring → jsstring)
    (services : jsstring → list EsxiServices.service)
    (oks : list http_reply) (bad : http_reply) (t : errorType)
    (more : list (nat * http_reply)) :
  Forall (λ r, soap_failure r = None) oks → length oks ≤ 3 →
  soap_failure bad = Some t →
  let st := EsxiServices.run returnval_key returnval returnval_reference
              services
              (imap (λ i r, (i, r)) oks ++ (length oks, bad) :: more)
              (EsxiServices.get_status username password EsxiServices.initial) in
  outcomes (EsxiServices.trace st) = [Failure (Some t)]
  ∧ EsxiServices.table st = []
  ∧ EsxiServices.requests st = S (length oks).
Proof.
  intros Hoks Hlen Hbad st. unfold st.
  assert (∀ a b s,
            EsxiServices.run returnval_key returnval returnval_reference
              services (a ++ b) s
            = EsxiServices.run returnval_key returnval returnval_reference
                services b
                (EsxiServices.run returnval_key returnval returnval_reference
                   services a s)) as ->
    by (intros; apply foldl_app).
  destruct (esxi_after_oks username password returnval_key returnval
              returnval_reference services oks Hoks Hlen)
    as (Hp & Hreq & Ht & Hout).
  set (st0 := EsxiServices.run _ _ _ _ (imap _ oks) _) in *. clearbody st0.
  change (EsxiServices.run returnval_key returnval returnval_reference services
            ((length oks, bad) :: more) st0)
    with (EsxiServices.run returnval_key returnval returnval_reference services
            more
            (EsxiServices.deliver returnval_key returnval returnval_reference
               services st0 (length oks, bad))).
  destruct (esxi_deliver_failure returnval_key returnval returnval_reference
              services st0 (length oks) _ bad t Hp Hbad) as (es & Hes & ->).
  rewrite esxi_run_nothing_pending by done.
  cbn [EsxiServices.table EsxiServices.trace EsxiServices.requests].
  rewrite !outcomes_app, Hout, Hes. done.
Qed.

Lemma esxi_failure_ends_witness :
  let st := EsxiServices.run (λ s, s) (λ s, s) (λ s, s) (λ _, [])
              (imap (λ i r, (i, r)) [soap_ok (js "key"); soap_ok (js "view")]
               ++ (2, HttpReply None (Some (Response None 400)) [])
               :: [(3, soap_ok [])])
              (EsxiServices.get_status (js "root") (js "secret")
                 EsxiServices.initial) in
  outcomes (EsxiServices.trace st) = [Failure (Some AUTHENTICATION_ERROR)]
  ∧ EsxiServices.table st = []
  ∧ EsxiServices.requests st = 3.
Proof.
  apply (esxi_failure_ends (js "root") (js "secret") (λ s, s) (λ s, s) (λ s, s)
           (λ _, []) [soap_ok (js "key"); soap_ok (js "view")]
           (HttpReply None (Some (Response None 400)) [])
           AUTHENTICATION_ERROR).
  - by repeat constructor.
  - simpl. lia.
  - done.
Defined.

(** X18. [validate] of the services driver sends the login and nothing
    else; on a reply with status 200 it calls [D.success()] when the
    session key read from the body is not empty and nothing at all when
    it is empty; on any other reply it calls [D.failure] once, with the
    type of the reply. *)
Theorem esxi_validate_outcome (username password : jsstring)
    (returnval_key : jsstring → jsstring)
    (r : http_reply) (more : list (nat * http_reply)) :
  let st := EsxiValidate.run returnval_key ((0, r) :: more)
              (EsxiValidate.validate username password EsxiServices.initial) in
  outcomes (EsxiServices.trace st)
  = match soap_failure r with
    | Some t => [Failure (Some t)]
    | None => if decide (returnval_key (hbody r) = []) then []
              else [Success None]
    end
  ∧ EsxiServices.requests st = 1
  ∧ EsxiServices.table st = [].
Proof.
  intros st. unfold st.
  change (EsxiValidate.run returnval_key ((0, r) :: more) ?s)
    with (EsxiValidate.run returnval_key more
            (EsxiValidate.deliver returnval_key s (0, r))).
  assert (∃ es,
            EsxiValidate.deliver returnval_key
              (EsxiValidate.validate username password EsxiServices.initial)
              (0, r)
            = EsxiServices.State [] ∅ 1 es
            ∧ outcomes es
              = match soap_failure r with
                | Some t => [Failure (Some t)]
                | None => if decide (returnval_key (hbody r) = []) then []
                          else [Success None]
                end) as (es & -> & Hes).
  { unfold EsxiValidate.deliver, EsxiValidate.validate, EsxiServices.login,
      EsxiServices.sendSoapRequest, EsxiServices.initial.
    cbn [EsxiServices.pending EsxiServices.table EsxiServices.requests
         EsxiServices.trace fst snd].
    rewrite lookup_insert_eq, delete_insert_eq, delete_empty.
    unfold EsxiValidate.on_login, soap_failure, EsxiServices.emit,
      EsxiServices.getSessionKey.
    cbn [EsxiServices.pending EsxiServices.table EsxiServices.requests
         EsxiServices.trace fst snd].
    destruct (herror r) as [e|]; [by eexists|].
    destruct (hresponse r) as [resp|]; [|by eexists].
    destruct (statusCode resp =? 400)%Z; [by eexists|].
    destruct (statusCode resp =? 200)%Z; [|by eexists].
    cbn [negb]. destruct (returnval_key (hbody r)) as [|c key]; by eexists. }
  assert (∀ replies st,
            EsxiServices.pending st = ∅ →
            EsxiValidate.run returnval_key replies st = st) as Hrun.
  { intros replies st0 Hp. unfold EsxiValidate.run.
    induction replies as [|d replies IH]; [done|]. cbn [foldl].
    unfold EsxiValidate.deliver at 2. by rewrite Hp, lookup_empty. }
  by rewrite Hrun.
Qed.

(** ** [validate] of the drives driver *)

Section DellValidateSteps.
Variable JSON_parse : jsstring → option value.
Variable lower_other : jsstring → jsstring.
Variable credentials : jsstring.
Import DellDrives.
#[local] Abbreviation processResponse' := (processResponse JSON_parse).
#[local] Abbreviation vdeliver := (DellValidate.deliver JSON_parse lower_other).
#[local] Abbreviation vrun := (DellValidate.run JSON_parse lower_other).

Lemma validate_run_nothing_pending replies st :
  pending (DellValidate.drives st) = ∅ → vrun replies st = st.
Proof.
  intros Hp. unfold DellValidate.run.
  induction replies as [|d replies IH]; simpl; [done|].
  unfold DellValidate.deliver at 2. by rewrite Hp, lookup_empty.
Qed.

(** A reply that resolves, to a run that waits for one request. *)
Lemma validate_deliver_one tok tb cs n tr w k c r v :
  resolves JSON_parse r v →
  ∃ es tok',
    Forall silent es
    ∧ vdeliver (DellValidate.State
                  (State tok tb cs false {[k := c]} n tr) w) (k, r)
      = let st1 := State tok' tb cs false ∅ n (tr ++ [Callback k] ++ es) in
        match c with
        | KLogin => DellValidate.State (getControllers st1) w
        | KStorage => DellValidate.on_storage v st1
        | KController ci =>
            DellValidate.check_all
              (DellValidate.State (on_controller lower_other ci v st1) w)
        | KDrive ci di name =>
            DellValidate.check_all
              (DellValidate.State (on_drive lower_other ci di name v st1) w)
        end.
Proof.
  intros Hr. unfold DellValidate.deliver.
  cbn [DellValidate.drives DellValidate.waiting pending sessionToken table
       controllers joined requests trace fst snd].
  rewrite lookup_singleton_eq, delete_singleton_eq.
  set (st0 := State _ _ _ _ _ _ _).
  destruct (processResponse_frame JSON_parse r st0) as (es & tok' & Hes & Hst).
  pose proof (processResponse_resolves JSON_parse r v st0 Hr) as Hv.
  destruct (processResponse' r st0) as [st1 x]. simpl in Hst, Hv. subst st1 x.
  exists es, tok'. split; [done|]. unfold st0.
  cbn [pending sessionToken table controllers joined requests trace].
  rewrite <- app_assoc. reflexivity.
Qed.

(** The run of [validate] up to the [then] of [getControllers]. *)
Lemma validate_at_storage r0 r1 v0 v1 :
  resolves JSON_parse r0 v0 → resolves JSON_parse r1 v1 →
  ∃ es tok,
    successes es = []
    ∧ vdeliver (vdeliver (DellValidate.validate credentials
                            DellValidate.initial) (0, r0)) (1, r1)
      = DellValidate.on_storage v1 (State tok [] [] false ∅ 2 es).
Proof.
  intros H0 H1.
  change (DellValidate.validate credentials DellValidate.initial)
    with (DellValidate.State
            (State None [] [] false {[0 := KLogin]} 1
               [HttpPost (js "/redfish/v1/SessionService/Sessions/")
                  credentials]) false).
  destruct (validate_deliver_one None [] [] 1
              [HttpPost (js "/redfish/v1/SessionService/Sessions/") credentials]
              false 0 KLogin r0 v0 H0) as (es0 & tok0 & Hes0 & ->).
  cbn zeta iota.
  match goal with
  | |- context [getControllers (State ?tok ?tb ?cs ?j ∅ ?n ?tr)] =>
      change (getControllers (State tok tb cs j ∅ n tr))
        with (State tok tb cs j {[1 := KStorage]} 2
                (tr ++ [HttpGet (VStr (js "/redfish/v1/Storage")) tok]))
  end.
  match goal with
  | |- context [vdeliver (DellValidate.State (State ?tok _ _ _ _ _ ?tr) _)] =>
      destruct (validate_deliver_one tok [] [] 2 tr false 1 KStorage r1 v1 H1)
        as (es1 & tok1 & Hes1 & ->)
  end.
  cbn zeta iota. eexists _, tok1. split; [|reflexivity].
  rewrite !successes_app, (successes_silent es0), (successes_silent es1)
    by done.
  done.
Qed.
End DellValidateSteps.

(** X19. When the list of controllers has no [Members] or an empty
    array of them, [validate] of the drives driver logs that the
    validation failed and calls [D.failure(PARSING_ERROR)] as its last
    call; [D.success] is never called and no further request is sent. *)
Theorem dell_validate_without_controllers
    (JSON_parse : jsstring → option value) (lower_other : jsstring → jsstring)
    (credentials : jsstring) (r0 r1 : http_reply) (v0 v1 : value)
    (more : list (nat * http_reply)) :
  resolves JSON_parse r0 v0 → resolves JSON_parse r1 v1 →
  truthy (default VUndef (get v1 (js "Members"))) = false
  ∨ get v1 (js "Members") = Some (VArr []) →
  let st := DellValidate.drives
              (DellValidate.run JSON_parse lower_other
                 ((0, r0) :: (1, r1) :: more)
                 (DellValidate.validate credentials DellValidate.initial)) in
  successes (DellDrives.trace st) = []
  ∧ last (DellDrives.trace st) = Some (Failure (Some PARSING_ERROR))
  ∧ DellDrives.requests st = 2.
Proof.
  intros H0 H1 Hm st. unfold st.
  change (DellValidate.run JSON_parse lower_other ((0, r0) :: (1, r1) :: more)
            ?s)
    with (DellValidate.run JSON_parse lower_other more
            (DellValidate.deliver JSON_parse lower_other
               (DellValidate.deliver JSON_parse lower_other s (0, r0))
               (1, r1))).
  destruct (validate_at_storage JSON_parse lower_other credentials r0 r1 v0 v1
              H0 H1) as (es & tok & Hes & ->).
  assert (DellValidate.on_storage v1 (DellDrives.State tok [] [] false ∅ 2 es)
          = DellValidate.State
              (DellDrives.State tok [] [] false ∅ 2
                 (es ++ [ConsoleError (LStr (js "Validation failed"));
                         Failure (Some PARSING_ERROR)])) false) as ->.
  { unfold DellValidate.on_storage. destruct Hm as [Hm|Hm].
    - by rewrite Hm, andb_false_r.
    - rewrite Hm. by destruct v1. }
  rewrite validate_run_nothing_pending by done.
  cbn [DellValidate.drives DellDrives.trace DellDrives.requests].
  rewrite successes_app, Hes, last_app. done.
Qed.

Lemma dell_validate_without_controllers_witness :
  let st := DellValidate.drives
              (DellValidate.run (λ _, Some (VObj [(js "Members", VArr [])]))
                 (λ s, s) [(0, http_failed); (1, http_failed)]
                 (DellValidate.validate (js "{}") DellValidate.initial)) in
  successes (DellDrives.trace st) = []
  ∧ last (DellDrives.trace st) = Some (Failure (Some PARSING_ERROR))
  ∧ DellDrives.requests st = 2.
Proof.
  apply (dell_validate_without_controllers
           (λ _, Some (VObj [(js "Members", VArr [])])) (λ s, s) (js "{}")
           http_failed http_failed
           (VObj [(js "Members", VArr [])]) (VObj [(js "Members", VArr [])])).
  - by eexists _, _.
  - by eexists _, _.
  - by right.
Defined.

Section DellValidateOne.
Variable JSON_parse : jsstring → option value.
Variable lower_other : jsstring → jsstring.
Import DellDrives.

(** A controller that lists no drive settles at once. *)
Lemma on_controller_no_drives ci v st :
  (∀ d ds, get v (js "Drives") ≠ Some (VArr (d :: ds))) →
  ∃ r es, successes es = []
    ∧ on_controller lower_other ci v st
      = check_join lower_other (set_slot ci (CDone r) (emit es st)).
Proof.
  intros Hv. unfold on_controller.
  destruct (truthy v && truthy _ && truthy _).
  2:{ eexists None, _. split; [|reflexivity]. done. }
  destruct (get v (js "Drives")) as [[| | | | |[|d ds]|]|] eqn:Hd;
    try (eexists None, _; split; [|reflexivity]; done).
  - exists (Some []), []. split; [done|]. simpl.
    unfold emit. rewrite app_nil_r. by destruct st.
  - by destruct (Hv d ds).
Qed.
End DellValidateOne.

(** X20. With one controller in [Members], [validate] of the drives
    driver calls [D.success()], as its last call, as soon as the reply
    about that controller resolves and lists no drive: also when the
    controller has no name, or no drives, so that [getControllerInfo]
    yields nothing. *)
Theorem dell_validate_one_controller
    (JSON_parse : jsstring → option value) (lower_other : jsstring → jsstring)
    (credentials : jsstring) (r0 r1 r2 : http_reply) (v0 v1 v2 member url : value)
    (more : list (nat * http_reply)) :
  resolves JSON_parse r0 v0 → resolves JSON_parse r1 v1 →
  resolves JSON_parse r2 v2 →
  get v1 (js "Members") = Some (VArr [member]) →
  get member (js "@odata.id") = Some url →
  (∀ d ds, get v2 (js "Drives") ≠ Some (VArr (d :: ds))) →
  let st := DellValidate.drives
              (DellValidate.run JSON_parse lower_other
                 ((0, r0) :: (1, r1) :: (2, r2) :: more)
                 (DellValidate.validate credentials DellValidate.initial)) in
  successes (DellDrives.trace st) = [None]
  ∧ last (DellDrives.trace st) = Some (Success None)
  ∧ DellDrives.table st = []
  ∧ DellDrives.requests st = 3.
Proof.
  intros H0 H1 H2 Hm Hurl Hv2 st. unfold st.
  change (DellValidate.run JSON_parse lower_other
            ((0, r0) :: (1, r1) :: (2, r2) :: more) ?s)
    with (DellValidate.run JSON_parse lower_other more
            (DellValidate.deliver JSON_parse lower_other
               (DellValidate.deliver JSON_parse lower_other
                  (DellValidate.deliver JSON_parse lower_other s (0, r0))
                  (1, r1)) (2, r2))).
  destruct (validate_at_storage JSON_parse lower_other credentials r0 r1 v0 v1
              H0 H1) as (es & tok & Hes & ->).
  assert (DellValidate.on_storage v1 (DellDrives.State tok [] [] false ∅ 2 es)
          = DellValidate.State
              (DellDrives.State tok [] [DellDrives.CWait] false
                 {[2 := DellDrives.KController 0]} 3
                 (es ++ [HttpGet url tok])) true) as ->.
  { unfold DellValidate.on_storage. rewrite Hm.
    destruct v1; try done. simpl. by rewrite Hurl. }
  destruct (validate_deliver_one JSON_parse lower_other tok []
              [DellDrives.CWait] 3 (es ++ [HttpGet url tok]) true 2
              (DellDrives.KController 0) r2 v2 H2) as (es2 & tok2 & Hes2 & ->).
  cbn zeta iota.
  destruct (on_controller_no_drives lower_other 0 v2
              (DellDrives.State tok2 [] [DellDrives.CWait] false ∅ 3
                 ((es ++ [HttpGet url tok]) ++ [Callback 2] ++ es2)) Hv2)
    as (r & es3 & Hes3 & ->).
  assert (DellValidate.check_all
            (DellValidate.State
               (DellDrives.check_join lower_other
                  (DellDrives.set_slot 0 (DellDrives.CDone r)
                     (DellDrives.emit es3
                        (DellDrives.State tok2 [] [DellDrives.CWait] false ∅ 3
                           ((es ++ [HttpGet url tok]) ++ [Callback 2] ++ es2)))))
               true)
          = DellValidate.State
              (DellDrives.State tok2 [] [DellDrives.CDone r] false ∅ 3
                 ((((es ++ [HttpGet url tok]) ++ [Callback 2] ++ es2) ++ es3)
                  ++ [ConsoleLog (LStr (js "Validation successful"));
                      Success None])) false) as -> by done.
  rewrite validate_run_nothing_pending by done.
  cbn [DellValidate.drives DellDrives.trace DellDrives.requests
       DellDrives.table].
  rewrite !successes_app, Hes, Hes3, (successes_silent es2) by done.
  split; [done|]. split; [|done].
  by rewrite last_app.
Qed.

Lemma dell_validate_one_controller_witness :
  let parse := λ _ : jsstring,
    Some (VObj [(js "Members",
                 VArr [VObj [(js "@odata.id", VStr (js "/c/a"))]])]) in
  let st := DellValidate.drives
              (DellValidate.run parse (λ s, s)
                 ((0, http_failed) :: (1, http_failed) :: (2, http_failed)
                  :: [(3, http_failed)])
                 (DellValidate.validate (js "{}") DellValidate.initial)) in
  successes (DellDrives.trace st) = [None]
  ∧ last (DellDrives.trace st) = Some (Success None)
  ∧ DellDrives.table st = []
  ∧ DellDrives.requests st = 3.
Proof.
  intros parse.
  apply (dell_validate_one_controller parse (λ s, s) (js "{}")
           http_failed http_failed http_failed
           (VObj [(js "Members",
                   VArr [VObj [(js "@odata.id", VStr (js "/c/a"))]])])
           (VObj [(js "Members",
                   VArr [VObj [(js "@odata.id", VStr (js "/c/a"))]])])
           (VObj [(js "Members",
                   VArr [VObj [(js "@odata.id", VStr (js "/c/a"))]])])
           (VObj [(js "@odata.id", VStr (js "/c/a"))])
           (VStr (js "/c/a"))).
  - by eexists _, _.
  - by eexists _, _.
  - by eexists _, _.
  - done.
  - done.
  - done.
Defined.

Section DellQuiet.
Variable JSON_parse : jsstring → option value.
Variable lower_other : jsstring → jsstring.
Import DellDrives.

Lemma quiet_refl st : quiet st st.
Proof. unfold quiet. auto. Qed.

Lemma quiet_trans st1 st2 st3 : quiet st1 st2 → quiet st2 st3 → quiet st1 st3.
Proof.
  intros (Ht1 & Hj1 & Hs1 & Hp1) (Ht2 & Hj2 & Hs2 & Hp2).
  unfold quiet. split; [congruence|]. split; [congruence|].
  split; [congruence|]. intros k c [H|H]%Hp2; auto.
Qed.

Lemma quiet_emit es st : successes es = [] → quiet st (emit es st).
Proof.
  intros Hes. unfold quiet, emit; simpl.
  rewrite successes_app, Hes, app_nil_r. auto.
Qed.

Lemma quiet_httpGet url c st : data_kont c → quiet st (httpGet url c st).
Proof.
  intros Hc. unfold quiet, httpGet, request; simpl.
  rewrite successes_app; simpl. rewrite app_nil_r.
  do 3 (split; [done|]).
  intros k c' [[<- <-]|[_ H]]%lookup_insert_Some; auto.
Qed.

Lemma quiet_set_controllers cs st :
  quiet st (set_controllers cs (joined st) st).
Proof. unfold quiet; simpl. auto. Qed.

Lemma quiet_map_members members ci st :
  quiet st (map_members ci members st).1.
Proof.
  revert ci st. induction members as [|member members IH]; intros ci st; simpl.
  - apply quiet_refl.
  - destruct (get member (js "@odata.id")) as [url|]; simpl.
    + eapply quiet_trans; [|apply IH]. by apply quiet_httpGet.
    + apply quiet_refl.
Qed.

Lemma quiet_map_drives drives ci di name st :
  quiet st (map_drives ci di name drives st).1.
Proof.
  revert di st. induction drives as [|drive drives IH]; intros di st; simpl.
  - apply quiet_refl.
  - destruct (get drive (js "@odata.id")) as [url|]; simpl.
    + eapply quiet_trans; [|apply IH]. by apply quiet_httpGet.
    + apply quiet_refl.
Qed.

Lemma check_join_idle st : joined st = false → check_join lower_other st = st.
Proof. intros Hj. unfold check_join. by rewrite Hj. Qed.

Lemma quiet_set_slot ci c st st' : quiet st st' → quiet st (set_slot ci c st').
Proof.
  intros Hq. eapply quiet_trans; [apply Hq|]. apply quiet_set_controllers.
Qed.

Lemma quiet_on_controller ci v st :
  joined st = false → quiet st (on_controller lower_other ci v st).
Proof.
  intros Hj. unfold on_controller.
  match goal with
  | |- quiet st (check_join lower_other ?s) =>
      assert (quiet st s) as Hq;
      [|rewrite check_join_idle; [done|destruct Hq as (_ & -> & _); done]]
  end.
  assert (∀ e, quiet st (set_slot ci (CDone None) (controller_failed e st)))
    as Hfail.
  { intros e. apply quiet_set_slot. by apply quiet_emit. }
  destruct (truthy v && truthy _ && truthy _).
  2:{ apply quiet_set_slot. by apply quiet_emit. }
  destruct (default VUndef (get v (js "Drives"))); try apply Hfail.
  match goal with
  | |- context [map_drives ci 0 ?name items st] =>
      pose proof (quiet_map_drives items ci 0 name st) as Hq;
      destruct (map_drives ci 0 name items st) as [st2 [e|]]
  end; simpl in Hq.
  - apply quiet_set_slot. eapply quiet_trans; [apply Hq|]. by apply quiet_emit.
  - by apply quiet_set_slot.
Qed.

Lemma quiet_on_drive ci di name v st :
  joined st = false → quiet st (on_drive lower_other ci di name v st).
Proof.
  intros Hj. unfold on_drive.
  set (found := truthy v && truthy _).
  set (st1 := if found then st else _).
  assert (quiet st st1) as Hq1.
  { unfold st1. destruct found; [apply quiet_refl|]. by apply quiet_emit. }
  clearbody st1.
  destruct (controllers st1 !! ci) as [[|drives|]|]; try done.
  rewrite check_join_idle.
  - by apply quiet_set_slot.
  - simpl. destruct Hq1 as (_ & -> & _). done.
Qed.

Lemma validated_successes response st :
  table (DellValidate.validated response st) = table st
  ∧ joined (DellValidate.validated response st) = joined st
  ∧ pending (DellValidate.validated response st) = pending st
  ∧ (successes (trace (DellValidate.validated response st))
     = successes (trace st)
     ∨ successes (trace (DellValidate.validated response st))
       = successes (trace st) ++ [None]).
Proof.
  unfold DellValidate.validated. destruct response as [[|c cs]|]; simpl;
    rewrite successes_app; simpl; rewrite ?app_nil_r; auto.
Qed.

(** Past the list of controllers. *)
Lemma validate_inv_check_all d w :
  table d = [] → joined d = false →
  (∀ k c, pending d !! k = Some c → data_kont c) →
  successes (trace d) = [] ∨ (w = false ∧ successes (trace d) = [None]) →
  validate_inv (DellValidate.check_all (DellValidate.State d w)).
Proof.
  intros Ht Hj Hp Hs. unfold DellValidate.check_all; simpl.
  assert (validate_inv (DellValidate.State d w)) as Hsame.
  { split; [done|]. split; [done|]. right. by split. }
  destruct w; [|done].
  destruct (mapM slot_result (controllers d)) as [data|]; [|done].
  destruct Hs as [Hs|[? _]]; [|done].
  destruct (validated_successes (Some data) d) as (Ht' & Hj' & Hp' & Hs').
  fold (DellValidate.validated (Some data) d).
  set (d' := DellValidate.validated (Some data) d) in *. clearbody d'.
  split; simpl; [congruence|]. split; [congruence|]. right.
  rewrite Hp'. split; [done|]. rewrite Hs in Hs'. simpl in Hs'.
  destruct Hs' as [->| ->]; auto.
Qed.

Lemma validate_inv_quiet d d' w :
  quiet d d' →
  table d = [] → joined d = false →
  (∀ k c, pending d !! k = Some c → data_kont c) →
  successes (trace d) = [] ∨ (w = false ∧ successes (trace d) = [None]) →
  validate_inv (DellValidate.check_all (DellValidate.State d' w)).
Proof.
  intros (Ht' & Hj' & Hs' & Hp') Ht Hj Hp Hs.
  apply validate_inv_check_all; [congruence|congruence| |by rewrite Hs'].
  intros k c [H|H]%Hp'; eauto.
Qed.

Lemma validate_inv_on_storage v d :
  table d = [] → joined d = false → pending d = ∅ →
  successes (trace d) = [] →
  validate_inv (DellValidate.on_storage v d).
Proof.
  intros Ht Hj Hp Hs. unfold DellValidate.on_storage.
  assert (∀ d', quiet d d' →
            validate_inv (DellValidate.State d' false)) as Hquiet.
  { intros d' Hq.
    apply (validate_inv_quiet d d' false Hq Ht Hj); [|by left].
    intros k c. by rewrite Hp, lookup_empty. }
  assert (∀ e, validate_inv (DellValidate.State (failed_chain e d) false))
    as Hfail.
  { intros e. apply Hquiet. by apply quiet_emit. }
  destruct (truthy v && truthy _).
  2:{ destruct (validated_successes None d) as (Ht' & Hj' & Hp' & Hs').
      set (d' := DellValidate.validated None d) in *. clearbody d'.
      split; simpl; [congruence|]. split; [congruence|]. right.
      rewrite Hp', Hp. split; [intros k c; by rewrite lookup_empty|].
      rewrite Hs in Hs'. simpl in Hs'. destruct Hs' as [->| ->]; auto. }
  destruct (default VUndef (get v (js "Members"))); try apply Hfail.
  set (d1 := set_controllers _ false d).
  assert (quiet d d1) as Hq1.
  { unfold d1. rewrite <- Hj at 1. apply quiet_set_controllers. }
  pose proof (quiet_map_members items 0 d1) as Hq2.
  destruct (map_members 0 items d1) as [d2 [e|]]; simpl in Hq2.
  - apply Hquiet. eapply quiet_trans; [apply Hq1|].
    eapply quiet_trans; [apply Hq2|]. by apply quiet_emit.
  - apply (validate_inv_quiet d d2 true); [|done|done| |by left].
    + by eapply quiet_trans.
    + intros k c. by rewrite Hp, lookup_empty.
Qed.

Lemma validate_inv_deliver st d :
  validate_inv st → validate_inv (DellValidate.deliver JSON_parse lower_other st d).
Proof.
  intros Hinv. unfold DellValidate.deliver.
  destruct (pending (DellValidate.drives st) !! d.1) as [k|] eqn:Hk; [|done].
  destruct st as [ds w]. simpl in Hk |- *.
  destruct Hinv as (Ht & Hj & Hphase). simpl in Ht, Hj, Hphase.
  set (st0 := State _ _ _ _ _ _ _).
  destruct (processResponse_frame JSON_parse d.2 st0) as (es & tok & Hes & Hst).
  destruct (processResponse JSON_parse d.2 st0) as [st1 x]. simpl in Hst.
  subst st1. unfold st0; simpl. clear st0.
  assert (∀ k, successes ((trace ds ++ [Callback k]) ++ es)
               = successes (trace ds)) as Hsucc.
  { intros k'. rewrite !successes_app, (successes_silent es) by done. simpl.
    by rewrite !app_nil_r. }
  destruct Hphase as [(j & c & Hp & Hc & Hw & Hs)|[Hp Hs]].
  - rewrite Hp in Hk. apply lookup_singleton_Some in Hk as [<- <-].
    rewrite Hp, delete_singleton_eq. simpl in Hw. subst w.
    destruct x as [x|v].
    { split; [done|]. split; [done|]. right. simpl.
      split; [intros k c'; by rewrite lookup_empty|]. left.
      rewrite successes_app, Hsucc, Hs. done. }
    destruct Hc as [-> | ->].
    + split; [done|]. split; [done|]. left. simpl.
      eexists _, KStorage. split; [reflexivity|]. split; [by right|].
      split; [done|]. rewrite successes_app, Hsucc, Hs. done.
    + apply validate_inv_on_storage; simpl; try done. by rewrite Hsucc.
  - set (st1 := State tok (table ds) (controllers ds) (joined ds)
                  (delete d.1 (pending ds)) (requests ds)
                  ((trace ds ++ [Callback d.1]) ++ es)).
    assert (quiet ds st1) as Hq1.
    { unfold quiet, st1; simpl. do 3 (split; [done|]).
      intros j c [_ H]%lookup_delete_Some. by left. }
    assert (joined st1 = false) as Hj1 by done.
    clearbody st1.
    destruct x as [x|v].
    { destruct Hq1 as (Ht1 & _ & Hs1 & Hp1).
      split; simpl; [congruence|]. split; [done|]. right.
      split; [intros j c [H|H]%Hp1; eauto|].
      rewrite successes_app, Hs1; simpl. by rewrite app_nil_r. }
    pose proof (Hp _ _ Hk) as Hd. destruct k; try done.
    + apply (validate_inv_quiet ds); try done.
      eapply quiet_trans; [apply Hq1|]. by apply quiet_on_controller.
    + apply (validate_inv_quiet ds); try done.
      eapply quiet_trans; [apply Hq1|]. by apply quiet_on_drive.
Qed.
End DellQuiet.

(** X21. [validate] of the drives driver never inserts a record, and in
    a run it calls [D.success] once at most, without a table, whatever
    the device answers. *)
Theorem dell_validate_reports (JSON_parse : jsstring → option value)
    (lower_other : jsstring → jsstring) (credentials : jsstring)
    (replies : list (nat * http_reply)) :
  let st := DellValidate.drives
              (DellValidate.run JSON_parse lower_other replies
                 (DellValidate.validate credentials DellValidate.initial)) in
  DellDrives.table st = []
  ∧ (successes (DellDrives.trace st) = []
     ∨ successes (DellDrives.trace st) = [None]).
Proof.
  intros st.
  assert (validate_inv
            (DellValidate.run JSON_parse lower_other replies
               (DellValidate.validate credentials DellValidate.initial)))
    as (Ht & _ & Hphase).
  { unfold DellValidate.run.
    induction replies as [|d replies IH] using rev_ind.
    - split; [done|]. split; [done|]. left.
      exists 0, DellDrives.KLogin. by auto.
    - rewrite foldl_app. by apply validate_inv_deliver. }
  split; [done|].
  destruct Hphase as [(_ & _ & _ & _ & _ & Hs)|[_ [Hs|[_ Hs]]]]; auto.
Qed.

(** ** The check at the head of the loop of [extractData] *)

Section DellSound.
Variable JSON_parse : jsstring → option value.
Variable lower_other : jsstring → jsstring.
Import DellDrives.

Lemma sound_emit es st : Forall known es → sound_inv st → sound_inv (emit es st).
Proof.
  intros Hes (Hc & Hp & Ht). split; [done|]. split; [done|].
  by apply Forall_app.
Qed.

Lemma sound_insertRecord r st : sound_inv st → sound_inv (insertRecord r st).
Proof.
  intros (Hc & Hp & Ht). split; [done|]. split; [done|].
  apply Forall_app. split; [done|]. by repeat constructor.
Qed.

Lemma sound_set_token t st : sound_inv st → sound_inv (set_token t st).
Proof. done. Qed.

Lemma sound_set_controllers cs j st :
  Forall cslot_sound cs → sound_inv st → sound_inv (set_controllers cs j st).
Proof. intros Hcs (Hc & Hp & Ht). by split. Qed.

Lemma sound_httpGet url c st :
  (∀ ci di name, c = KDrive ci di name → truthy name = true) →
  sound_inv st → sound_inv (httpGet url c st).
Proof.
  intros Hname (Hc & Hp & Ht). split; [done|]. split.
  - intros k ci di name. unfold httpGet, request; simpl.
    intros [[_ H]|[_ H]]%lookup_insert_Some; eauto.
  - apply Forall_app. split; [done|]. by repeat constructor.
Qed.

Lemma sound_set_slot ci c st :
  cslot_sound c → sound_inv st → sound_inv (set_slot ci c st).
Proof.
  intros Hc Hinv. apply sound_set_controllers; [|done].
  destruct Hinv as (Hcs & _). by apply Forall_insert.
Qed.

Lemma sound_processResponse r st :
  sound_inv st → sound_inv (processResponse JSON_parse r st).1.
Proof.
  intros Hinv. unfold processResponse.
  set (st1 := match herror r with Some e => _ | None => st end).
  assert (sound_inv st1) as H1.
  { unfold st1. destruct (herror r); [|done].
    apply sound_emit; [|done]. by repeat constructor. }
  clearbody st1.
  destruct (hresponse r) as [resp|]; [|done].
  destruct (rheaders resp) as [h|]; [|done].
  set (st2 := if truthy_header (x_auth_token h) then _ else _).
  assert (sound_inv st2) as H2.
  { unfold st2. destruct (truthy_header (x_auth_token h)); [done|].
    repeat (match goal with
            | |- context [if ?b then _ else _] => destruct b
            end; [apply sound_emit; [by repeat constructor|done]|]).
    done. }
  clearbody st2. by destruct (JSON_parse (hbody r)).
Qed.

Lemma sound_extract_drive d st :
  result_sound d → sound_inv st → sound_inv (extract_drive lower_other d st).1.
Proof.
  intros Hd Hinv. unfold extract_drive. destruct d as [[cn drive]|]; [|done].
  destruct Hd as [-> ->]. simpl negb. cbn [orb].
  destruct (get drive (js "Name")) as [name|]; [|done].
  match goal with
  | |- context [mbind ?f ?x] => destruct (mbind f x) as [cols|]
  end; [|done].
  by apply sound_insertRecord.
Qed.

Lemma sound_for_each {A} (P : A → Prop)
    (f : A → state → state * option exn) xs st :
  (∀ x st, P x → sound_inv st → sound_inv (f x st).1) →
  Forall P xs → sound_inv st → sound_inv (for_each f xs st).1.
Proof.
  intros Hf Hxs. revert st. induction Hxs as [|x xs Hx _ IH]; intros st Hinv.
  - done.
  - simpl. specialize (Hf x st Hx Hinv).
    destruct (f x st) as [st1 [e|]]; [done|]. by apply IH.
Qed.

Lemma sound_extract_or_catch data st :
  (∀ cs, data = Some cs → Forall cslot_sound (CDone <$> cs)) →
  sound_inv st → sound_inv (extract_or_catch lower_other data st).
Proof.
  intros Hdata Hinv. unfold extract_or_catch, extractData.
  destruct data as [cs|].
  2:{ apply sound_emit; [by repeat constructor|done]. }
  specialize (Hdata cs eq_refl).
  match goal with
  | |- context [for_each ?f cs st] =>
      assert (sound_inv (for_each f cs st).1) as Hfe;
      [|destruct (for_each f cs st) as [st1 [e|]]]
  end.
  - apply (sound_for_each (λ c, cslot_sound (CDone c))); [| |done].
    + intros [drives|] st0 Hc Hst0; [|done].
      apply (sound_for_each result_sound); [|exact Hc|exact Hst0].
      intros d st1. apply sound_extract_drive.
    + rewrite Forall_fmap in Hdata. exact Hdata.
  - apply sound_emit; [by repeat constructor|done].
  - apply sound_emit; [by repeat constructor|done].
Qed.

Lemma sound_check_join st : sound_inv st → sound_inv (check_join lower_other st).
Proof.
  intros Hinv. unfold check_join. destruct (joined st); [|done].
  destruct (mapM slot_result (controllers st)) as [data|] eqn:Hdata; [|done].
  apply sound_extract_or_catch.
  - intros cs Heq. assert (cs = data) as -> by congruence. clear Heq.
    destruct Hinv as (Hcs & _). apply mapM_Some in Hdata.
    assert (controllers st = CDone <$> data) as Heq;
      [|rewrite Heq in Hcs; exact Hcs].
    clear Hcs. induction Hdata as [|c r cs data Hc _ IH]; [done|].
    rewrite fmap_cons. f_equal; [|exact IH]. by destruct c; simplify_eq/=.
  - destruct Hinv as (Hcs & Hp & Ht). by split.
Qed.

Lemma sound_map_members members ci st :
  sound_inv st → sound_inv (map_members ci members st).1.
Proof.
  revert ci st. induction members as [|member members IH]; intros ci st Hinv;
    simpl; [done|].
  destruct (get member (js "@odata.id")) as [url|]; [|done].
  apply IH. by apply sound_httpGet.
Qed.

Lemma sound_map_drives drives ci di name st :
  truthy name = true →
  sound_inv st → sound_inv (map_drives ci di name drives st).1.
Proof.
  intros Hname. revert di st.
  induction drives as [|drive drives IH]; intros di st Hinv; simpl; [done|].
  destruct (get drive (js "@odata.id")) as [url|]; [|done].
  apply IH. apply sound_httpGet; [|done]. by intros ? ? ? [= _ _ <-].
Qed.

Lemma settle_sound drives : Forall dslot_sound drives → cslot_sound (settle drives).
Proof.
  intros Hds. unfold settle.
  destruct (mapM dslot_result drives) as [results|] eqn:Hres; [|done].
  apply mapM_Some in Hres. simpl.
  induction Hres as [|d r ds rs Hd _ IH]; [done|].
  apply Forall_cons in Hds as [Hd' Hds]. constructor; [|by apply IH].
  by destruct d; simplify_eq/=.
Qed.

Lemma sound_on_storage v st :
  sound_inv st → sound_inv (on_storage lower_other v st).
Proof.
  intros Hinv. unfold on_storage.
  assert (∀ e st, sound_inv st → sound_inv (failed_chain e st)) as Hfail.
  { intros e st0 H0. apply sound_emit; [by repeat constructor|done]. }
  destruct (truthy v && truthy _).
  2:{ by apply sound_extract_or_catch. }
  destruct (default VUndef (get v (js "Members"))); try by apply Hfail.
  set (st1 := set_controllers _ false st).
  assert (sound_inv st1) as H1.
  { apply sound_set_controllers; [|done]. by apply Forall_replicate. }
  pose proof (sound_map_members items 0 st1 H1) as H2.
  destruct (map_members 0 items st1) as [st2 [e|]]; simpl in H2.
  - by apply Hfail.
  - apply sound_check_join. destruct H2 as (Hc & Hp & Ht). by split.
Qed.

Lemma sound_on_controller ci v st :
  sound_inv st → sound_inv (on_controller lower_other ci v st).
Proof.
  intros Hinv. unfold on_controller. apply sound_check_join.
  assert (∀ e st, sound_inv st →
            sound_inv (set_slot ci (CDone None) (controller_failed e st)))
    as Hfail.
  { intros e st0 H0. apply sound_set_slot; [done|].
    apply sound_emit; [by repeat constructor|done]. }
  destruct (truthy v) eqn:Hv; simpl.
  2:{ apply sound_set_slot; [done|].
      apply sound_emit; [by repeat constructor|done]. }
  destruct (truthy (default VUndef (get v (js "Name")))) eqn:Hname; simpl.
  2:{ apply sound_set_slot; [done|].
      apply sound_emit; [by repeat constructor|done]. }
  destruct (truthy (default VUndef (get v (js "Drives")))) eqn:Hdrives; simpl.
  2:{ apply sound_set_slot; [done|].
      apply sound_emit; [by repeat constructor|done]. }
  destruct (default VUndef (get v (js "Drives"))); try by apply Hfail.
  match goal with
  | |- context [map_drives ci 0 ?name items st] =>
      pose proof (sound_map_drives items ci 0 name st Hname Hinv) as H2;
      destruct (map_drives ci 0 name items st) as [st2 [e|]]
  end; simpl in H2.
  - by apply Hfail.
  - apply sound_set_slot; [|done]. apply settle_sound.
    by apply Forall_replicate.
Qed.

Lemma sound_on_drive ci di name v st :
  truthy name = true →
  sound_inv st → sound_inv (on_drive lower_other ci di name v st).
Proof.
  intros Hname Hinv. unfold on_drive.
  destruct (truthy v) eqn:Hv; simpl.
  - destruct (truthy (default VUndef (get v (js "Name")))); simpl.
    + destruct (controllers st !! ci) as [[|drives|]|] eqn:Hci; try done.
      apply sound_check_join, sound_set_slot; [|done].
      apply settle_sound, Forall_insert; [|done].
      destruct Hinv as (Hcs & _).
      by apply (Forall_lookup_1 _ _ _ _ Hcs Hci).
    + destruct (controllers st !! ci) as [[|drives|]|] eqn:Hci; try done;
        try (apply sound_emit; [by repeat constructor|done]).
      apply sound_check_join, sound_set_slot;
        [|apply sound_emit; [by repeat constructor|done]].
      apply settle_sound, Forall_insert; [|done].
      destruct Hinv as (Hcs & _).
      by apply (Forall_lookup_1 _ _ _ _ Hcs Hci).
  - destruct (controllers st !! ci) as [[|drives|]|] eqn:Hci; try done;
      try (apply sound_emit; [by repeat constructor|done]).
    apply sound_check_join, sound_set_slot;
      [|apply sound_emit; [by repeat constructor|done]].
    apply settle_sound, Forall_insert; [|done].
    destruct Hinv as (Hcs & _).
    by apply (Forall_lookup_1 _ _ _ _ Hcs Hci).
Qed.

Lemma sound_deliver st d :
  sound_inv st → sound_inv (deliver JSON_parse lower_other st d).
Proof.
  intros Hinv. unfold deliver.
  destruct (pending st !! d.1) as [k|] eqn:Hk; [|done].
  set (st0 := State _ _ _ _ _ _ _).
  assert (sound_inv st0) as H0.
  { destruct Hinv as (Hc & Hp & Ht). unfold st0. split; [done|]. split.
    - simpl. intros j ci di name [_ H]%lookup_delete_Some. eauto.
    - simpl. apply Forall_app. split; [done|]. by repeat constructor. }
  assert (∀ ci di name, k = KDrive ci di name → truthy name = true) as Hname.
  { intros ci di name ->. destruct Hinv as (_ & Hp & _). eauto. }
  clearbody st0.
  pose proof (sound_processResponse d.2 st0 H0) as H1.
  destruct (processResponse JSON_parse d.2 st0) as [st1 [x|v]]; simpl in H1.
  - apply sound_emit; [by repeat constructor|done].
  - destruct k.
    + by apply sound_httpGet.
    + by apply sound_on_storage.
    + by apply sound_on_controller.
    + apply sound_on_drive; [|done]. by eapply Hname.
Qed.
End DellSound.

(** X22. [get_status] of the drives driver never logs
    [Controller name or drive not found]: a result that reaches the
    check at the head of the loop of [extractData] has a controller name
    and a drive, since [getControllerInfo] asks for the drives of a named
    controller only and [getDriveInfo] yields a drive only when it has
    one. *)
Theorem dell_check_never_fails (JSON_parse : jsstring → option value)
    (lower_other : jsstring → jsstring) (credentials : jsstring)
    (replies : list (nat * http_reply)) :
  Forall (λ e, is_not_found e = false)
    (DellDrives.trace
       (DellDrives.run JSON_parse lower_other replies
          (DellDrives.get_status credentials DellDrives.initial))).
Proof.
  assert (sound_inv
            (DellDrives.run JSON_parse lower_other replies
               (DellDrives.get_status credentials DellDrives.initial)))
    as (_ & _ & Ht); [|exact Ht].
  unfold DellDrives.run. induction replies as [|d replies IH] using rev_ind.
  - split; [done|]. split; [|by repeat constructor].
    intros k ci di name. unfold DellDrives.get_status, DellDrives.login,
      DellDrives.request; simpl.
    by intros [[_ H]|[_ H]]%lookup_insert_Some.
  - rewrite foldl_app. by apply sound_deliver.
Qed.

(** ** The login of the drives driver *)

(** X23. The token [get_status] of the drives driver sends with its
    first [GET] is the [x-auth-token] header of the reply to the login,
    when that header is not empty, and [undefined] otherwise, whatever
    the status and the error of the reply are; the request follows every
    reply that has headers and a body that parses. *)
Theorem dell_token_forwarded (JSON_parse : jsstring → option value)
    (lower_other : jsstring → jsstring) (credentials : jsstring)
    (r : http_reply) (resp : response) (h : headers) (v : value) :
  hresponse r = Some resp → rheaders resp = Some h →
  JSON_parse (hbody r) = Some v →
  let st := DellDrives.run JSON_parse lower_other [(0, r)]
              (DellDrives.get_status credentials DellDrives.initial) in
  let token := if DellDrives.truthy_header (x_auth_token h)
               then x_auth_token h else None in
  last (DellDrives.trace st)
    = Some (HttpGet (VStr (js "/redfish/v1/Storage")) token)
  ∧ DellDrives.sessionToken st = token
  ∧ DellDrives.requests st = 2.
Proof.
  intros Hresp Hh Hv st token. unfold st, token, DellDrives.run.
  cbn [foldl]. unfold DellDrives.deliver. cbn [fst snd].
  assert (DellDrives.pending
            (DellDrives.get_status credentials DellDrives.initial) !! 0
          = Some DellDrives.KLogin) as -> by reflexivity.
  set (st0 := DellDrives.State _ _ _ _ _ _ _).
  assert (DellDrives.sessionToken st0 = None ∧ DellDrives.requests st0 = 1)
    as [Htok0 Hreq0] by done.
  clearbody st0.
  destruct (DellDrives.processResponse JSON_parse r st0) as [st1 res] eqn:Hpr.
  assert (res = inr v
          ∧ DellDrives.sessionToken st1
            = (if DellDrives.truthy_header (x_auth_token h)
               then x_auth_token h else None)
          ∧ DellDrives.requests st1 = 1) as (-> & Htok & Hreq).
  { unfold DellDrives.processResponse in Hpr. rewrite Hresp, Hh, Hv in Hpr.
    injection Hpr as <- <-. split; [done|].
    destruct (herror r) as [e|];
      (destruct (x_auth_token h) as [[|c t]|]; simpl; [|done|];
       repeat match goal with
              | |- context [if ?b then _ else _] => destruct b; simpl
              end; done). }
  unfold DellDrives.getControllers, DellDrives.httpGet, DellDrives.request.
  cbn [DellDrives.trace DellDrives.sessionToken DellDrives.requests].
  rewrite last_snoc, Htok, Hreq. done.
Qed.

Lemma dell_token_forwarded_witness :
  let r := HttpReply (Some ssh_timeout)
             (Some (Response (Some (Headers (Some (js "3f2a")) None)) 500))
             (js "{}") in
  let st := DellDrives.run (λ _, Some (VObj [])) (λ s, s) [(0, r)]
              (DellDrives.get_status (js "{}") DellDrives.initial) in
  let token := if DellDrives.truthy_header (Some (js "3f2a"))
               then Some (js "3f2a") else None in
  last (DellDrives.trace st)
    = Some (HttpGet (VStr (js "/redfish/v1/Storage")) token)
  ∧ DellDrives.sessionToken st = token
  ∧ DellDrives.requests st = 2.
Proof.
  intros r.
  apply (dell_token_forwarded (λ _, Some (VObj [])) (λ s, s) (js "{}") r
           (Response (Some (Headers (Some (js "3f2a")) None)) 500)
           (Headers (Some (js "3f2a")) None) (VObj [])); reflexivity.
Defined.

(** X24. A reply to the login that has no response, or no headers, or
    a body that does not parse ends [get_status] of the drives driver
    inside the callback of the request: the exception is left to the
    host, the promise of [login] is never settled, so that nothing is
    sent, inserted or reported with [D.success] afterwards, and the
    [catch] of the chain does not run. *)
Theorem dell_unresolved_login (JSON_parse : jsstring → option value)
    (lower_other : jsstring → jsstring) (credentials : jsstring)
    (r : http_reply) (more : list (nat * http_reply)) :
  hresponse r = None
  ∨ (∃ resp, hresponse r = Some resp ∧ rheaders resp = None)
  ∨ JSON_parse (hbody r) = None →
  let st := DellDrives.run JSON_parse lower_other ((0, r) :: more)
              (DellDrives.get_status credentials DellDrives.initial) in
  (∃ x, last (DellDrives.trace st) = Some (Uncaught x))
  ∧ successes (DellDrives.trace st) = []
  ∧ DellDrives.table st = []
  ∧ DellDrives.requests st = 1.
Proof.
  intros Hr st. unfold st.
  change (DellDrives.run JSON_parse lower_other ((0, r) :: more) ?s)
    with (DellDrives.run JSON_parse lower_other more
            (DellDrives.deliver JSON_parse lower_other s (0, r))).
  assert (∃ es x tok,
            DellDrives.deliver JSON_parse lower_other
              (DellDrives.get_status credentials DellDrives.initial) (0, r)
            = DellDrives.State tok [] [] false ∅ 1 (es ++ [Uncaught x])
            ∧ successes es = [])
    as (es & x & tok & -> & Hes).
  { unfold DellDrives.get_status, DellDrives.login, DellDrives.request,
      DellDrives.deliver; simpl.
    rewrite lookup_insert_eq.
    set (st0 := DellDrives.State _ _ _ _ _ _ _).
    destruct (processResponse_frame JSON_parse r st0)
      as (es0 & tok & Hes0 & Hst0).
    assert (∃ x, (DellDrives.processResponse JSON_parse r st0).2 = inl x)
      as [x Hx].
    { unfold DellDrives.processResponse.
      destruct Hr as [->|[(resp & -> & ->)| Hp]]; [by eexists|by eexists|].
      destruct (hresponse r) as [resp|]; [|by eexists].
      destruct (rheaders resp) as [h|]; [|by eexists].
      rewrite Hp. by eexists. }
    destruct (DellDrives.processResponse JSON_parse r st0) as [st1 res].
    simpl in Hst0, Hx. subst st1 res. unfold st0; simpl.
    rewrite delete_insert_eq, delete_empty.
    eexists _, x, tok. split; [reflexivity|].
    simpl. by rewrite (successes_silent es0). }
  rewrite dell_run_nothing_pending by done. simpl.
  split; [exists x; by rewrite last_snoc|].
  rewrite successes_app, Hes. done.
Qed.

Lemma dell_unresolved_login_witness :
  let st := DellDrives.run (λ _, None) (λ s, s)
              ((0, http_failed) :: [(1, http_failed)])
              (DellDrives.get_status (js "{}") DellDrives.initial) in
  (∃ x, last (DellDrives.trace st) = Some (Uncaught x))
  ∧ successes (DellDrives.trace st) = []
  ∧ DellDrives.table st = []
  ∧ DellDrives.requests st = 1.
Proof.
  apply (dell_unresolved_login (λ _, None) (λ s, s) (js "{}")).
  right. by right.
Defined.
